(** * The structural diff engine of webdiff (src/js/utils.js, [DiffEngine])

    A shallow embedding of [DiffEngine.compare] and of the functions that
    consume its result ([calculateStats], [calculateChangePercentage],
    [generateJSONataQueries]), together with [DiffNavigation.getPathParts],
    followed by the properties of the comparison that the specification
    states.

    JavaScript values are modelled by [jsval]; numbers are IEEE-754 doubles
    (Rocq's primitive floats), strings are [string], an object is the list of
    its own enumerable properties in [Object.keys] order.  The accumulator
    [changes], which the JavaScript mutates with [push], is threaded
    explicitly.  The mutual recursion [deepCompare]/[compareObjects]/
    [compareArrays] descends through property lookups, so it is driven by a
    fuel argument: [deepCompare_total] shows that any fuel above the depth of
    the old value gives the same result, and [compare_returns] that the fuel
    [compare] supplies suffices.

    The file has three parts: the embedding of the source, the vocabulary in
    which the properties are stated, and the properties with their proofs. *)

From Stdlib Require Import List String Ascii Bool Arith ZArith Lia.
From Stdlib Require Import Decimal DecimalNat DecimalString.
From Stdlib Require Import Permutation Sorted.
From Stdlib Require Import Floats.
Import ListNotations.

Local Open Scope string_scope.
Local Open Scope list_scope.

(** ** JavaScript values *)

#[local] Unset Elimination Schemes.

Inductive jsval : Type :=
| JUndefined
| JNull
| JBool (b : bool)
| JNum (x : float)
| JStr (s : string)
| JArr (elems : list jsval)
| JObj (props : list (string * jsval)).

#[local] Set Elimination Schemes.

(** [Array.isArray(value)] *)
Definition isArray (v : jsval) : bool :=
  match v with JArr _ => true | _ => false end.

(** [typeof value === 'object'] (true of [null], arrays and objects). *)
Definition typeof_object (v : jsval) : bool :=
  match v with JNull | JArr _ | JObj _ => true | _ => false end.

(** [value === null] *)
Definition is_null (v : jsval) : bool :=
  match v with JNull => true | _ => false end.

(** [value === undefined] *)
Definition is_undefined (v : jsval) : bool :=
  match v with JUndefined => true | _ => false end.

(** [DiffEngine.getType] *)
Definition getType (value : jsval) : string :=
  if is_null value || is_undefined value then "null"
  else if isArray value then "array"
  else if typeof_object value then "object"
  else "primitive".

(** Strict equality [a === b] on the values that reach the [primitive] case
    of [deepCompare]; on numbers it is IEEE equality. *)
Definition strict_eq (a b : jsval) : bool :=
  match a, b with
  | JUndefined, JUndefined => true
  | JNull, JNull => true
  | JBool x, JBool y => Bool.eqb x y
  | JNum x, JNum y => PrimFloat.eqb x y
  | JStr x, JStr y => String.eqb x y
  | _, _ => false
  end.

(** [Object.keys(obj)] *)
Definition Object_keys (obj : jsval) : list string :=
  match obj with JObj props => map fst props | _ => [] end.

Fixpoint lookup (key : string) (props : list (string * jsval)) : option jsval :=
  match props with
  | [] => None
  | (k, v) :: rest => if String.eqb key k then Some v else lookup key rest
  end.

(** [obj[key]]: a missing property reads as [undefined]. *)
Definition get (obj : jsval) (key : string) : jsval :=
  match obj with
  | JObj props => match lookup key props with Some v => v | None => JUndefined end
  | _ => JUndefined
  end.

(** [keys.includes(key)] *)
Definition includes (keys : list string) (key : string) : bool :=
  existsb (String.eqb key) keys.

(** [new Set(keys)], listed in iteration (first insertion) order. *)
Definition Set_add (s : list string) (key : string) : list string :=
  if includes s key then s else s ++ [key].

Definition Set_of (keys : list string) : list string :=
  fold_left Set_add keys [].

(** [arr.length] and [arr[i]] *)
Definition elements (arr : jsval) : list jsval :=
  match arr with JArr l => l | _ => [] end.

Definition length_of (arr : jsval) : nat := List.length (elements arr).

Definition at_index (arr : jsval) (i : nat) : jsval :=
  nth i (elements arr) JUndefined.

(** ** Change records and the accumulator *)

(** [{ path, value, type }], the shape of added, removed and unchanged
    records. *)
Record Change : Type := mkChange {
  c_path : string;
  c_value : jsval;
  c_type : string
}.

(** A modified record: [{ path, oldValue, newValue, oldType, newType }] for
    a change of type and [{ path, oldValue, newValue, type }] for a changed
    primitive; a field the object literal does not have is [None]. *)
Record Modified : Type := mkModified {
  m_path : string;
  m_oldValue : jsval;
  m_newValue : jsval;
  m_oldType : option string;
  m_newType : option string;
  m_type : option string
}.

Record Changes : Type := mkChanges {
  added : list Change;
  removed : list Change;
  modified : list Modified;
  unchanged : list Change
}.

Definition no_changes : Changes := mkChanges [] [] [] [].

Definition push_added (c : Change) (ch : Changes) : Changes :=
  mkChanges (added ch ++ [c]) (removed ch) (modified ch) (unchanged ch).
Definition push_removed (c : Change) (ch : Changes) : Changes :=
  mkChanges (added ch) (removed ch ++ [c]) (modified ch) (unchanged ch).
Definition push_modified (m : Modified) (ch : Changes) : Changes :=
  mkChanges (added ch) (removed ch) (modified ch ++ [m]) (unchanged ch).
Definition push_unchanged (c : Change) (ch : Changes) : Changes :=
  mkChanges (added ch) (removed ch) (modified ch) (unchanged ch ++ [c]).

(** ** Paths *)

(** [`${i}`] for an array index. *)
Definition index_to_string (i : nat) : string :=
  NilEmpty.string_of_uint (Nat.to_uint i).

(** [path ? `${path}.${key}` : key] *)
Definition keyPath (path key : string) : string :=
  if String.eqb path "" then key else path ++ "." ++ key.

(** [`${path}[${i}]`] *)
Definition indexPath (path : string) (i : nat) : string :=
  path ++ "[" ++ index_to_string i ++ "]".

(** ** The comparison *)

(** [forEach] and the [for] loop over a list of keys or indices, stopping
    when the fuel of a nested call ran out. *)
Fixpoint forEach {A : Type} (f : A -> Changes -> option Changes)
    (l : list A) (changes : Changes) : option Changes :=
  match l with
  | [] => Some changes
  | x :: rest =>
      match f x changes with
      | Some changes' => forEach f rest changes'
      | None => None
      end
  end.

Section Recursion.

(** The recursive call [this.deepCompare]. *)
Variable deepCompare : jsval -> jsval -> string -> Changes -> option Changes.

(** [DiffEngine.compareObjects] *)
Definition compareObjects (oldObj newObj : jsval) (path : string)
    (changes : Changes) : option Changes :=
  let oldKeys := Object_keys oldObj in
  let newKeys := Object_keys newObj in
  let allKeys := Set_of (oldKeys ++ newKeys) in
  forEach (fun key changes =>
    let newPath := keyPath path key in
    let hasOld := includes oldKeys key in
    let hasNew := includes newKeys key in
    if hasOld && hasNew then
      deepCompare (get oldObj key) (get newObj key) newPath changes
    else if hasOld then
      Some (push_removed
              (mkChange newPath (get oldObj key) (getType (get oldObj key)))
              changes)
    else
      Some (push_added
              (mkChange newPath (get newObj key) (getType (get newObj key)))
              changes))
    allKeys changes.

(** [DiffEngine.compareArrays] *)
Definition compareArrays (oldArr newArr : jsval) (path : string)
    (changes : Changes) : option Changes :=
  let maxLength := Nat.max (length_of oldArr) (length_of newArr) in
  forEach (fun i changes =>
    let newPath := indexPath path i in
    if (i <? length_of oldArr)%nat && (i <? length_of newArr)%nat then
      deepCompare (at_index oldArr i) (at_index newArr i) newPath changes
    else if (i <? length_of oldArr)%nat then
      Some (push_removed
              (mkChange newPath (at_index oldArr i)
                 (getType (at_index oldArr i)))
              changes)
    else
      Some (push_added
              (mkChange newPath (at_index newArr i)
                 (getType (at_index newArr i)))
              changes))
    (seq 0 maxLength) changes.

End Recursion.

(** [DiffEngine.deepCompare]; [None] only when the fuel is exhausted. *)
Fixpoint deepCompare (fuel : nat) (oldVal newVal : jsval) (path : string)
    (changes : Changes) : option Changes :=
  match fuel with
  | O => None
  | S fuel' =>
      let oldType := getType oldVal in
      let newType := getType newVal in
      if is_null oldVal && is_null newVal then
        Some (push_unchanged (mkChange path JNull "null") changes)
      else if is_null oldVal || is_null newVal then
        if is_null oldVal then
          Some (push_added (mkChange path newVal newType) changes)
        else
          Some (push_removed (mkChange path oldVal oldType) changes)
      else if negb (String.eqb oldType newType) then
        Some (push_modified
                (mkModified path oldVal newVal (Some oldType) (Some newType) None)
                changes)
      else if String.eqb oldType "object" then
        compareObjects (deepCompare fuel') oldVal newVal path changes
      else if String.eqb oldType "array" then
        compareArrays (deepCompare fuel') oldVal newVal path changes
      else if String.eqb oldType "primitive" then
        if negb (strict_eq oldVal newVal) then
          Some (push_modified
                  (mkModified path oldVal newVal None None (Some oldType))
                  changes)
        else
          Some (push_unchanged (mkChange path oldVal oldType) changes)
      else
        Some changes
  end.

(** Nesting depth of a value: the number of object and array levels. *)
Fixpoint depth (v : jsval) : nat :=
  match v with
  | JArr l => S (fold_right (fun x acc => Nat.max (depth x) acc) 0 l)
  | JObj l => S (fold_right (fun kv acc => Nat.max (depth (snd kv)) acc) 0 l)
  | _ => 0
  end.

Definition fuel_for (oldObj newObj : jsval) : nat :=
  S (Nat.max (depth oldObj) (depth newObj)).

(** [DiffEngine.compare] *)
Definition compare (oldObj newObj : jsval) : Changes :=
  match deepCompare (fuel_for oldObj newObj) oldObj newObj "" no_changes with
  | Some changes => changes
  | None => no_changes
  end.

(** ** Statistics *)

(** A list length or a sum of lengths as a JavaScript number; exact, since
    array lengths stay below 2^32. *)
Definition Number_of_nat (n : nat) : float :=
  PrimFloat.of_uint63 (Uint63.of_Z (Z.of_nat n)).

(** An integer of magnitude below 2^53 as a JavaScript number. *)
Definition Number_of_Z (z : Z) : float :=
  if (z <? 0)%Z then PrimFloat.opp (PrimFloat.of_uint63 (Uint63.of_Z (- z)))
  else PrimFloat.of_uint63 (Uint63.of_Z z).

(** [Math.round]: the integer nearest to [x], a tie going towards
    +infinity; NaN, the infinities and integral values are returned as they
    are, and a result of zero keeps the sign of [x].  The finite case is
    computed exactly, on the mantissa and exponent of [x]:
    [floor (x + 1/2)] for [x = +-m * 2^e] with [e < 0]. *)
Definition Math_round (x : float) : float :=
  match Prim2SF x with
  | S754_finite s m e =>
      if (0 <=? e)%Z then x
      else
        let sm := if s then Z.neg m else Z.pos m in
        let r := ((2 * sm + 2 ^ (- e)) / 2 ^ (1 - e))%Z in
        if (r =? 0)%Z then (if s then neg_zero else zero)
        else Number_of_Z r
  | _ => x
  end.

(** [DiffEngine.calculateChangePercentage] *)
Definition calculateChangePercentage (changes : Changes) : float :=
  let total := List.length (added changes) + List.length (removed changes) +
               List.length (modified changes) + List.length (unchanged changes) in
  if Nat.eqb total 0 then zero
  else
    let changed := List.length (added changes) + List.length (removed changes) +
                   List.length (modified changes) in
    Math_round (PrimFloat.mul
                  (PrimFloat.div (Number_of_nat changed) (Number_of_nat total))
                  100%float).

Record Stats : Type := mkStats {
  totalChanges : nat;
  s_added : nat;
  s_removed : nat;
  s_modified : nat;
  s_unchanged : nat;
  changePercentage : float
}.

(** [DiffEngine.calculateStats] *)
Definition calculateStats (changes : Changes) : Stats :=
  mkStats
    (List.length (added changes) + List.length (removed changes) +
     List.length (modified changes))
    (List.length (added changes))
    (List.length (removed changes))
    (List.length (modified changes))
    (List.length (unchanged changes))
    (calculateChangePercentage changes).

(** ** Transformation descriptors *)

(** One element of the array [generateJSONataQueries] returns; a field the
    object literal does not have is [None]. *)
Record Query : Type := mkQuery {
  q_type : string;
  q_path : string;
  q_query : string;
  q_description : string;
  q_value : option jsval;
  q_oldValue : option jsval;
  q_newValue : option jsval
}.

(** The one-character string holding a double quote. *)
Definition quote : string := String (ascii_of_nat 34) "".

Section Queries.

(** The text the built-ins [JSON.stringify(v)] and [String(v)] put into a
    template literal; the engine does not depend on what they print. *)
Variable JSON_stringify : jsval -> string.
Variable String_of : jsval -> string.

(** [str.length > maxLength ? str.substring(0, maxLength) + '...' : str] *)
Definition truncate (str : string) (maxLength : nat) : string :=
  if (maxLength <? String.length str)%nat
  then String.substring 0 maxLength str ++ "..."
  else str.

(** [DiffEngine.formatValue] *)
Definition formatValue (value : jsval) (maxLength : nat) : string :=
  if is_null value || is_undefined value then "null"
  else if typeof_object value then truncate (JSON_stringify value) maxLength
  else truncate (String_of value) maxLength.

Definition additionQuery (change : Change) : Query :=
  mkQuery "addition" (c_path change)
    ("$ ~> | $ | { " ++ quote ++ c_path change ++ quote ++ ": "
       ++ JSON_stringify (c_value change) ++ " } |")
    ("Add field " ++ c_path change)
    (Some (c_value change)) None None.

Definition deletionQuery (change : Change) : Query :=
  mkQuery "deletion" (c_path change)
    ("$ ~> | $ | { " ++ quote ++ c_path change ++ quote ++ ": undefined } |")
    ("Remove field " ++ c_path change)
    None (Some (c_value change)) None.

Definition modificationQuery (change : Modified) : Query :=
  mkQuery "modification" (m_path change)
    ("$ ~> | $ | { " ++ quote ++ m_path change ++ quote ++ ": "
       ++ JSON_stringify (m_newValue change) ++ " } |")
    ("Change " ++ m_path change ++ " from "
       ++ formatValue (m_oldValue change) 50 ++ " to "
       ++ formatValue (m_newValue change) 50)
    None (Some (m_oldValue change)) (Some (m_newValue change)).

(** [list.forEach(change => { queries.push(mk(change)) })] *)
Definition pushEach {A : Type} (mk : A -> Query) (l : list A)
    (queries : list Query) : list Query :=
  fold_left (fun queries change => queries ++ [mk change]) l queries.

(** [DiffEngine.generateJSONataQueries] *)
Definition generateJSONataQueries (changes : Changes) : list Query :=
  let queries := [] in
  let queries := pushEach additionQuery (added changes) queries in
  let queries := pushEach deletionQuery (removed changes) queries in
  let queries := pushEach modificationQuery (modified changes) queries in
  queries.

End Queries.

(** ** Parsing a path ([DiffNavigation.getPathParts]) *)

Definition is_digit (c : ascii) : bool :=
  let n := nat_of_ascii c in (48 <=? n)%nat && (n <=? 57)%nat.

(** [path.split('.')] *)
Fixpoint split_dot (s : string) : list string :=
  match s with
  | EmptyString => [""]
  | String c rest =>
      if Ascii.eqb c "." then "" :: split_dot rest
      else match split_dot rest with
           | [] => [String c ""]
           | part :: parts => String c part :: parts
           end
  end.

(** The rest of the input after a match of [\d*\]] at its start. *)
Fixpoint match_digits_close (s : string) : option string :=
  match s with
  | EmptyString => None
  | String c rest =>
      if is_digit c then match_digits_close rest
      else if Ascii.eqb c "]" then Some rest
      else None
  end.

(** The rest of the input after a match of [\[\d+\]] at its start. *)
Definition match_index (s : string) : option string :=
  match s with
  | String c1 (String c2 rest) =>
      if Ascii.eqb c1 "[" && is_digit c2 then match_digits_close rest else None
  | _ => None
  end.

(** [part.replace(/\[\d+\]/, '')]: the leftmost match is removed. *)
Fixpoint replace_index (part : string) : string :=
  match match_index part with
  | Some rest => rest
  | None =>
      match part with
      | EmptyString => EmptyString
      | String c rest => String c (replace_index rest)
      end
  end.

(** [DiffNavigation.getPathParts] *)
Definition getPathParts (path : string) : list string :=
  map replace_index (split_dot path).

(** A path segment and the path of a child, as [compareObjects] and
    [compareArrays] build it. *)
Inductive segment : Type :=
| Key (key : string)
| Index (i : nat).

Definition childPath (path : string) (s : segment) : string :=
  match s with
  | Key key => keyPath path key
  | Index i => indexPath path i
  end.

(** The path the comparison gives the location reached from the root by
    [segs]. *)
Definition format (segs : list segment) : string :=
  fold_left childPath segs "".

(** ** Looking a path up in a result *)

(** [DiffEngine.getChangeType]; [None] is [null].  [list.find(...)] is used
    as a condition only: it is truthy when some record has the path. *)
Definition getChangeType (path : string) (changes : Changes) : option string :=
  match find (fun c => String.eqb (c_path c) path) (added changes) with
  | Some _ => Some "added"
  | None =>
  match find (fun c => String.eqb (c_path c) path) (removed changes) with
  | Some _ => Some "removed"
  | None =>
  match find (fun c => String.eqb (m_path c) path) (modified changes) with
  | Some _ => Some "modified"
  | None =>
  match find (fun c => String.eqb (c_path c) path) (unchanged changes) with
  | Some _ => Some "unchanged"
  | None => None
  end end end end.

(** [list.forEach(c => paths.add(c.path))] on the set [paths]. *)
Definition addPaths {A : Type} (path_of : A -> string) (l : list A)
    (paths : list string) : list string :=
  fold_left (fun paths c => Set_add paths (path_of c)) l paths.

(** [Array.prototype.sort()] without a comparison function, on an array of
    strings: ascending in the order of the character codes.  The elements
    sorted here are distinct, so the result does not depend on the sorting
    algorithm; it is computed by insertion. *)
Fixpoint insert_sorted (x : string) (l : list string) : list string :=
  match l with
  | [] => [x]
  | y :: rest => if String.leb x y then x :: l else y :: insert_sorted x rest
  end.

Definition Array_sort (l : list string) : list string :=
  fold_right insert_sorted [] l.

(** [DiffEngine.getChangedPaths] *)
Definition getChangedPaths (changes : Changes) : list string :=
  let paths := [] in
  let paths := addPaths c_path (added changes) paths in
  let paths := addPaths c_path (removed changes) paths in
  let paths := addPaths m_path (modified changes) paths in
  Array_sort paths.

(** ** Cells of the CSV export (src/js/exporters/csv-exporter.js) *)

Module CSVExporter.

(** The one-character string holding a line feed. *)
Definition newline : string := String (ascii_of_nat 10) "".

(** [str.includes(c)] for a one-character string [c]. *)
Fixpoint includes_char (c : ascii) (str : string) : bool :=
  match str with
  | EmptyString => false
  | String x rest => Ascii.eqb x c || includes_char c rest
  end.

(** The [str.replace] of [escapeCSV]: every double quote is written
    twice. *)
Fixpoint double_quotes (str : string) : string :=
  match str with
  | EmptyString => EmptyString
  | String x rest =>
      if Ascii.eqb x (ascii_of_nat 34)
      then String x (String x (double_quotes rest))
      else String x (double_quotes rest)
  end.

(** [String(value)]: a string is itself; what the built-in prints for any
    other value is left open. *)
Definition String_of_value (String_of : jsval -> string) (value : jsval) : string :=
  match value with
  | JStr s => s
  | _ => String_of value
  end.

(** [CSVExporter.escapeCSV] *)
Definition escapeCSV (String_of : jsval -> string) (value : jsval) : string :=
  if is_null value || is_undefined value then quote ++ quote
  else
    let str := String_of_value String_of value in
    if includes_char "," str || includes_char (ascii_of_nat 34) str
       || includes_char (ascii_of_nat 10) str
    then quote ++ double_quotes str ++ quote
    else str.

(** [values.map(v => this.escapeCSV(v)).join(',') + '\n'] *)
Definition formatCSVRow (String_of : jsval -> string) (values : list jsval) : string :=
  String.concat "," (map (escapeCSV String_of) values) ++ newline.

End CSVExporter.

(** ** Text of the PDF export (src/unnamed/part_001, [PDFExporter]) *)

Module PDFExporter.

(** [PDFExporter.truncate]; [text.substring(0, maxLength - 3)] takes nothing
    when [maxLength - 3] is negative. *)
Definition truncate (text : string) (maxLength : nat) : string :=
  if (String.length text <=? maxLength)%nat then text
  else String.substring 0 (maxLength - 3) text ++ "...".

End PDFExporter.

(** ** Navigation through the changes (src/unnamed/part_003, [DiffNavigation]) *)

Module DiffNavigation.

(** [{ type, path, data }], an element of [this.changes]; [data] is the
    record of the diff result it was made from. *)
Record Entry : Type := mkEntry {
  type : string;
  path : string;
  data : Change + Modified
}.

(** The two fields of the module that its functions read and write.  What
    the functions do to the page (highlighting, the counter, toasts) does not
    flow back into them. *)
Record State : Type := mkState {
  changes : list Entry;
  currentIndex : Z
}.

(** [changes: [], currentIndex: -1] *)
Definition initial : State := mkState [] (-1).

(** [this.changes.length] *)
Definition length (s : State) : Z := Z.of_nat (List.length (changes s)).

(** [this.changes[i]]; [None] is [undefined]. *)
Definition at_index (l : list Entry) (i : Z) : option Entry :=
  if (i <? 0)%Z then None else nth_error l (Z.to_nat i).

(** [DiffNavigation.navigateToChange] *)
Definition navigateToChange (index : Z) (s : State) : State :=
  if (index <? 0)%Z || (length s <=? index)%Z then s
  else mkState (changes s) index.

(** [DiffNavigation.next] *)
Definition next (s : State) : State :=
  if (length s =? 0)%Z then s
  else
    let nextIndex := Z.rem (currentIndex s + 1) (length s) in
    navigateToChange nextIndex s.

(** [DiffNavigation.previous] *)
Definition previous (s : State) : State :=
  if (length s =? 0)%Z then s
  else
    let prevIndex :=
      if (currentIndex s - 1 <? 0)%Z then (length s - 1)%Z
      else (currentIndex s - 1)%Z in
    navigateToChange prevIndex s.

(** [DiffNavigation.getCurrentChange]; [None] is [null]. *)
Definition getCurrentChange (s : State) : option Entry :=
  if (0 <=? currentIndex s)%Z && (currentIndex s <? length s)%Z
  then at_index (changes s) (currentIndex s)
  else None.

(** One of the two loops of [jumpToType], [count] rounds from index [i]:
    [if (this.changes[i].type === type) { targetIndex = i; break; }].
    The outer [None] is the TypeError of reading [type] of [undefined]; the
    inner [None] is a loop that ends without a hit. *)
Fixpoint scan (type_wanted : string) (l : list Entry) (i : Z) (count : nat)
    : option (option Z) :=
  match count with
  | O => Some None
  | S count' =>
      match at_index l i with
      | None => None
      | Some c =>
          if String.eqb (type c) type_wanted then Some (Some i)
          else scan type_wanted l (i + 1)%Z count'
      end
  end.

(** [DiffNavigation.jumpToType]; [None] when it throws. *)
Definition jumpToType (type_wanted : string) (s : State) : option State :=
  let matching :=
    filter (fun c => String.eqb (type c) type_wanted) (changes s) in
  if Nat.eqb (List.length matching) 0 then Some s
  else
    let navigate (targetIndex : Z) :=
      if (0 <=? targetIndex)%Z then navigateToChange targetIndex s else s in
    match scan type_wanted (changes s) (currentIndex s + 1)%Z
            (Z.to_nat (length s - (currentIndex s + 1))) with
    | None => None
    | Some (Some targetIndex) => Some (navigate targetIndex)
    | Some None =>
        match scan type_wanted (changes s) 0%Z
                (Z.to_nat (currentIndex s + 1)) with
        | None => None
        | Some (Some targetIndex) => Some (navigate targetIndex)
        | Some None => Some (navigate (-1)%Z)
        end
    end.

Section Build.

(** [changes.sort((a, b) => a.path.localeCompare(b.path))]: the order
    depends on the locale. *)
Variable sort_by_path : list Entry -> list Entry.

(** [DiffNavigation.buildChangesList]; a [diffResult] of [None] is [null]. *)
Definition buildChangesList (diffResult : option Changes) (s : State) : State :=
  match diffResult with
  | None => mkState [] (-1)
  | Some diffResult =>
      let changes := [] in
      let changes :=
        fold_left (fun changes change =>
                     changes ++ [mkEntry "added" (c_path change) (inl change)])
          (added diffResult) changes in
      let changes :=
        fold_left (fun changes change =>
                     changes ++ [mkEntry "removed" (c_path change) (inl change)])
          (removed diffResult) changes in
      let changes :=
        fold_left (fun changes change =>
                     changes ++ [mkEntry "modified" (m_path change) (inr change)])
          (modified diffResult) changes in
      let changes := sort_by_path changes in
      let s := mkState changes (currentIndex s) in
      if (0 <? length s)%Z then navigateToChange 0 (mkState changes 0)
      else mkState changes (-1)
  end.

End Build.

End DiffNavigation.

(** ** Statistics of a document (src/js/utils.js, [Utils.calculateStats]) *)

(** Fuel for [traverse]: more than the nesting depth of the document. *)
Definition traverse_fuel (obj : jsval) : nat := S (depth obj).

(** [forEach] over a list with a state of any type, stopping when the fuel
    of a nested call ran out. *)
Fixpoint forEachWith {S A : Type} (f : A -> S -> option S) (l : list A)
    (s : S) : option S :=
  match l with
  | [] => Some s
  | x :: rest =>
      match f x s with
      | Some s' => forEachWith f rest s'
      | None => None
      end
  end.

Module Utils.

(** The object [stats] that [traverse] updates. *)
Record Stats : Type := mkStats {
  totalKeys : nat;
  totalArrays : nat;
  totalObjects : nat;
  totalPrimitives : nat;
  depth : nat;
  size : nat
}.

(** The inner function [traverse(node, depth = 0)]; its parameter [depth] is
    [level] here. *)
Fixpoint traverse (fuel : nat) (node : jsval) (level : nat) (stats : Stats)
    : option Stats :=
  match fuel with
  | O => None
  | S fuel' =>
      let stats :=
        mkStats (totalKeys stats) (totalArrays stats) (totalObjects stats)
          (totalPrimitives stats) (Nat.max (depth stats) level) (size stats) in
      if isArray node then
        let stats :=
          mkStats (totalKeys stats) (totalArrays stats + 1) (totalObjects stats)
            (totalPrimitives stats) (depth stats) (size stats) in
        forEachWith (fun item stats => traverse fuel' item (level + 1) stats)
          (elements node) stats
      else if negb (is_null node) && typeof_object node then
        let stats :=
          mkStats (totalKeys stats) (totalArrays stats) (totalObjects stats + 1)
            (totalPrimitives stats) (depth stats) (size stats) in
        forEachWith
          (fun key stats =>
             let stats :=
               mkStats (totalKeys stats + 1) (totalArrays stats)
                 (totalObjects stats) (totalPrimitives stats) (depth stats)
                 (size stats) in
             traverse fuel' (get node key) (level + 1) stats)
          (Object_keys node) stats
      else
        Some (mkStats (totalKeys stats) (totalArrays stats) (totalObjects stats)
                (totalPrimitives stats + 1) (depth stats) (size stats))
  end.

(** [Utils.calculateStats]; [JSON_stringify] is the text the built-in
    [JSON.stringify(obj)] returns for a value other than [undefined].  For
    [undefined] the built-in returns [undefined], and reading its [length]
    throws: [None] is that TypeError (or fuel that ran out). *)
Definition calculateStats (JSON_stringify : jsval -> string) (obj : jsval)
    : option Stats :=
  let stats := mkStats 0 0 0 0 0 0 in
  match traverse (traverse_fuel obj) obj 0 stats with
  | Some stats =>
      if is_undefined obj then None
      else
        Some (mkStats (totalKeys stats) (totalArrays stats) (totalObjects stats)
                (totalPrimitives stats) (depth stats)
                (String.length (JSON_stringify obj)))
  | None => None
  end.

End Utils.

(** * Vocabulary of the properties *)

(** ** Records pushed by a comparison *)

(** Both accumulators' records, the second's after the first's. *)
Definition capp (a b : Changes) : Changes :=
  mkChanges (added a ++ added b) (removed a ++ removed b)
            (modified a ++ modified b) (unchanged a ++ unchanged b).

Definition cconcat (l : list Changes) : Changes :=
  fold_right capp no_changes l.

(** The result of a run that did not exhaust its fuel. *)
Definition run (r : option Changes) : Changes :=
  match r with Some changes => changes | None => no_changes end.

(** The records a comparison of [oldVal] and [newVal] at [path] pushes. *)
Definition changes_of (oldVal newVal : jsval) (path : string) : Changes :=
  run (deepCompare (S (depth oldVal)) oldVal newVal path no_changes).

(** What the body of the [forEach] of [compareObjects] pushes for [key]. *)
Definition keyChanges (o n : jsval) (p key : string) : Changes :=
  if includes (Object_keys o) key && includes (Object_keys n) key then
    changes_of (get o key) (get n key) (keyPath p key)
  else if includes (Object_keys o) key then
    push_removed
      (mkChange (keyPath p key) (get o key) (getType (get o key))) no_changes
  else
    push_added
      (mkChange (keyPath p key) (get n key) (getType (get n key))) no_changes.

(** What the body of the loop of [compareArrays] pushes at index [i]. *)
Definition indexChanges (o n : jsval) (p : string) (i : nat) : Changes :=
  if (i <? length_of o)%nat && (i <? length_of n)%nat then
    changes_of (at_index o i) (at_index n i) (indexPath p i)
  else if (i <? length_of o)%nat then
    push_removed
      (mkChange (indexPath p i) (at_index o i) (getType (at_index o i)))
      no_changes
  else
    push_added
      (mkChange (indexPath p i) (at_index n i) (getType (at_index n i)))
      no_changes.

Definition objectChanges (o n : jsval) (p : string) : Changes :=
  cconcat (map (keyChanges o n p) (Set_of (Object_keys o ++ Object_keys n))).

Definition arrayChanges (o n : jsval) (p : string) : Changes :=
  cconcat (map (indexChanges o n p)
             (seq 0 (Nat.max (length_of o) (length_of n)))).

(** Case analysis on the two values the way [deepCompare] makes it. *)
Inductive compare_case (o n : jsval) (p : string) : Changes -> Prop :=
| case_both_null :
    o = JNull -> n = JNull ->
    compare_case o n p (push_unchanged (mkChange p JNull "null") no_changes)
| case_old_null :
    o = JNull -> n <> JNull ->
    compare_case o n p (push_added (mkChange p n (getType n)) no_changes)
| case_new_null :
    o <> JNull -> n = JNull ->
    compare_case o n p (push_removed (mkChange p o (getType o)) no_changes)
| case_types_differ :
    o <> JNull -> n <> JNull -> getType o <> getType n ->
    compare_case o n p
      (push_modified
         (mkModified p o n (Some (getType o)) (Some (getType n)) None)
         no_changes)
| case_objects lo ln :
    o = JObj lo -> n = JObj ln ->
    compare_case o n p (objectChanges o n p)
| case_arrays lo ln :
    o = JArr lo -> n = JArr ln ->
    compare_case o n p (arrayChanges o n p)
| case_primitive_changed :
    getType o = "primitive" -> getType n = "primitive" ->
    strict_eq o n = false ->
    compare_case o n p
      (push_modified (mkModified p o n None None (Some "primitive")) no_changes)
| case_primitive_same :
    getType o = "primitive" -> getType n = "primitive" ->
    strict_eq o n = true ->
    compare_case o n p (push_unchanged (mkChange p o "primitive") no_changes)
| case_both_undefined :
    o = JUndefined -> n = JUndefined ->
    compare_case o n p no_changes.

(** ** Exchanging the two documents *)

(** A Modified record with its old and new sides exchanged. *)
Definition swap (m : Modified) : Modified :=
  mkModified (m_path m) (m_newValue m) (m_oldValue m)
             (m_newType m) (m_oldType m) (m_type m).

(** [b] holds the records of [a] with the roles of the two documents
    exchanged. *)
Definition mirrored (a b : Changes) : Prop :=
  (forall c, In c (added a) -> In c (removed b))
  /\ (forall c, In c (removed a) -> In c (added b))
  /\ (forall m, In m (modified a) -> In (swap m) (modified b)).

(** ** JSON-shaped values and their leaves *)

(** No key occurs twice. *)
Fixpoint distinct (keys : list string) : bool :=
  match keys with
  | [] => true
  | key :: rest => negb (includes rest key) && distinct rest
  end.

(** What [JSON.parse] can return: no [undefined], finite numbers, and
    objects whose property names are distinct. *)
Fixpoint json_shaped (v : jsval) : bool :=
  match v with
  | JUndefined => false
  | JNull | JBool _ | JStr _ => true
  | JNum x => PrimFloat.is_finite x
  | JArr l => forallb json_shaped l
  | JObj l => distinct (map fst l) && forallb (fun kv => json_shaped (snd kv)) l
  end.

(** The records of the leaves of [v], the [null]s and primitives in it, as
    the comparison builds the path of each from [path] with [keyPath] and
    [indexPath], in the order in which a depth-first walk meets them.  An
    empty object or array has none. *)
Fixpoint leaves (path : string) (v : jsval) : list Change :=
  match v with
  | JUndefined => []
  | JObj l =>
      (fix props (l : list (string * jsval)) : list Change :=
         match l with
         | [] => []
         | (key, x) :: rest => leaves (keyPath path key) x ++ props rest
         end) l
  | JArr l =>
      (fix elems (i : nat) (l : list jsval) : list Change :=
         match l with
         | [] => []
         | x :: rest => leaves (indexPath path i) x ++ elems (S i) rest
         end) 0 l
  | _ => [mkChange path v (getType v)]
  end.

(** ** The leaf paths of the specification *)

(** The decimal numeral of an array index. *)
Definition decimal (i : nat) : string :=
  NilEmpty.string_of_uint (Nat.to_uint i).

(** The path grammar of the specification, written out from the segments:
    key segments are joined by ['.'], and an index segment is the marker
    ["[n]"] put behind what precedes it.  [first] tells that nothing has been
    written yet, so that a key comes without a dot. *)
Fixpoint join (first : bool) (segs : list segment) : string :=
  match segs with
  | [] => ""
  | Key key :: rest =>
      ((if first then key else "." ++ key) ++ join false rest)%string
  | Index i :: rest => ("[" ++ decimal i ++ "]" ++ join false rest)%string
  end.

(** The path of the location reached from the root by [segs]; the root has
    the empty path. *)
Definition path_of (segs : list segment) : string := join true segs.

(** The kind of a leaf. *)
Definition leaf_kind (v : jsval) : string :=
  if is_null v then "null" else "primitive".

(** One Unchanged record per leaf of [v] (a [null] or a primitive), in
    depth-first order, [v] being the value at the location [here]: the path
    of the leaf in the grammar above, its value and its kind. *)
Fixpoint leaf_records_at (here : list segment) (v : jsval) : list Change :=
  match v with
  | JUndefined => []
  | JObj l =>
      (fix props (l : list (string * jsval)) : list Change :=
         match l with
         | [] => []
         | (key, x) :: rest =>
             leaf_records_at (here ++ [Key key]) x ++ props rest
         end) l
  | JArr l =>
      (fix elems (i : nat) (l : list jsval) : list Change :=
         match l with
         | [] => []
         | x :: rest => leaf_records_at (here ++ [Index i]) x ++ elems (S i) rest
         end) 0 l
  | _ => [mkChange (path_of here) v (leaf_kind v)]
  end.

Definition leaf_records (v : jsval) : list Change := leaf_records_at [] v.

(** The comparison's rendering of [segs] is the path of the grammar, and it
    is empty at the root only. *)
Definition rendered (segs : list segment) : Prop :=
  format segs = path_of segs /\ (segs <> [] -> format segs <> "").

(** ** Locations of a comparison *)

(** [visits o n p q a b]: the comparison of [o] and [n] at path [p] reaches
    the location with path [q], where the old document has [a] and the new
    one [b]; [None] is a key that the object does not have, or an index
    beyond the end of the array.  The comparison descends below a location
    only where both documents have an object, or both an array; a key or
    index is looked at when at least one of the two has it. *)
Inductive visits (o n : jsval) (p : string) :
    string -> option jsval -> option jsval -> Prop :=
| visits_here :
    visits o n p p (Some o) (Some n)
| visits_key_one_side lo ln key :
    o = JObj lo -> n = JObj ln ->
    lookup key lo = None \/ lookup key ln = None ->
    lookup key lo <> None \/ lookup key ln <> None ->
    visits o n p (keyPath p key) (lookup key lo) (lookup key ln)
| visits_key_both lo ln key vo vn q a b :
    o = JObj lo -> n = JObj ln ->
    lookup key lo = Some vo -> lookup key ln = Some vn ->
    visits vo vn (keyPath p key) q a b ->
    visits o n p q a b
| visits_index_one_side lo ln i :
    o = JArr lo -> n = JArr ln ->
    nth_error lo i = None \/ nth_error ln i = None ->
    nth_error lo i <> None \/ nth_error ln i <> None ->
    visits o n p (indexPath p i) (nth_error lo i) (nth_error ln i)
| visits_index_both lo ln i vo vn q a b :
    o = JArr lo -> n = JArr ln ->
    nth_error lo i = Some vo -> nth_error ln i = Some vn ->
    visits vo vn (indexPath p i) q a b ->
    visits o n p q a b.

(** What [changes] must hold for the location [q] with sides [a] and [b]. *)
Definition null_rule (q : string) (a b : option jsval) (changes : Changes) : Prop :=
  (a = Some JNull -> b = Some JNull ->
   In (mkChange q JNull "null") (unchanged changes))
  /\ (forall v, a = Some JNull -> b = Some v -> v <> JNull ->
        In (mkChange q v (getType v)) (added changes))
  /\ (forall v, a = None -> b = Some v ->
        In (mkChange q v (getType v)) (added changes))
  /\ (forall v, a = Some v -> v <> JNull -> b = Some JNull ->
        In (mkChange q v (getType v)) (removed changes))
  /\ (forall v, a = Some v -> b = None ->
        In (mkChange q v (getType v)) (removed changes)).

(** ** Keys and paths *)

(** No character of [s] satisfies [bad]. *)
Fixpoint avoids (bad : ascii -> bool) (s : string) : bool :=
  match s with
  | EmptyString => true
  | String c rest => negb (bad c) && avoids bad rest
  end.

Definition is_dot (c : ascii) : bool := Ascii.eqb c ".".
Definition is_open (c : ascii) : bool := Ascii.eqb c "[".
Definition is_close (c : ascii) : bool := Ascii.eqb c "]".

(** The delimiters the path grammar gives a meaning to. *)
Definition is_delimiter (c : ascii) : bool := is_dot c || is_open c || is_close c.

(** An object key that contains no ['.'], ['['] or [']']. *)
Definition plain_key (key : string) : bool := avoids is_delimiter key.

(** A key that is not empty and contains no ['.'], ['['] or [']']. *)
Definition named_key (key : string) : bool :=
  negb (key =? "") && plain_key key.

(** Every key of every object in [v] satisfies [P]. *)
Fixpoint keys_all (P : string -> bool) (v : jsval) : bool :=
  match v with
  | JArr l => forallb (keys_all P) l
  | JObj l => forallb (fun kv => P (fst kv) && keys_all P (snd kv)) l
  | _ => true
  end.

(** The path of a location reached through object keys only. *)
Definition formatKeys (keys : list string) : string := format (map Key keys).

(** [".k1.k2..."] *)
Fixpoint dotted (keys : list string) : string :=
  match keys with
  | [] => ""
  | key :: rest => "." ++ key ++ dotted rest
  end.

(** [t] is empty or starts with a character that satisfies [bad]. *)
Definition starts_with (bad : ascii -> bool) (t : string) : Prop :=
  match t with
  | EmptyString => True
  | String c _ => bad c = true
  end.

(** A key segment ends, and an index segment starts, at ['.'] or ['[']. *)
Definition is_separator (c : ascii) : bool := is_dot c || is_open c.

(** [q] is [p] or the path of a location below [p]. *)
Definition below (p q : string) : Prop :=
  exists t, q = (p ++ t)%string /\ starts_with is_separator t.

(** The paths of all records of a result. *)
Definition all_paths (changes : Changes) : list string :=
  map c_path (added changes) ++ map c_path (removed changes)
  ++ map m_path (modified changes) ++ map c_path (unchanged changes).

(** How many records of [changes] have the path [q]. *)
Definition occurrences (q : string) (changes : Changes) : nat :=
  count_occ string_dec (all_paths changes) q.

(** ** Exact percentages *)

(** The integer nearest to [100 * changed / total], a tie going up, computed
    exactly (for a positive [total]). *)
Definition exact_percentage_half_up (changed total : Z) : Z :=
  ((200 * changed + total) / (2 * total))%Z.

(** The same with a tie going to the even neighbour. *)
Definition exact_percentage_half_even (changed total : Z) : Z :=
  let q := ((100 * changed) / total)%Z in
  let r := ((100 * changed) mod total)%Z in
  if (2 * r <? total)%Z then q
  else if (total <? 2 * r)%Z then (q + 1)%Z
  else if Z.even q then q else (q + 1)%Z.

(** ** Example documents *)

Definition example_object_a : jsval := JObj [("a", JObj [("x", JNum 1)])].
Definition example_array_a : jsval := JObj [("a", JArr [JNum 1])].

Definition example_a123 : jsval := JObj [("a", JArr [JNum 1; JNum 2; JNum 3])].
Definition example_a12 : jsval := JObj [("a", JArr [JNum 1; JNum 2])].

Definition example_a1 : jsval := JObj [("a", JNum 1)].

(** A document with nested objects, an array and a [null]. *)
Definition example_dmp : jsval :=
  JObj [("dmp", JObj [("title", JStr "plan");
                      ("dataset", JArr [JObj [("id", JNum 7)]; JNull])]);
        ("ok", JBool true)].

Definition example_empty : jsval := JObj [].
Definition example_a_null : jsval := JObj [("a", JNull)].

(** An object with an empty key at the root, over a key that occurs at the
    root too. *)
Definition example_empty_key : jsval :=
  JObj [("", JObj [("a", JNum 1)]); ("a", JNum 2)].

(** Forty numbers, of which the first twenty-three change. *)
Definition forty_old : jsval := JArr (repeat (JNum 0) 40).
Definition forty_new : jsval := JArr (repeat (JNum 1) 23 ++ repeat (JNum 0) 17).

(** ** Records and the locations they come from *)

(** The value a document has below [v] along one segment, if any. *)
Definition child (v : jsval) (s : segment) : option jsval :=
  match s, v with
  | Key key, JObj props => lookup key props
  | Index i, JArr elems => nth_error elems i
  | _, _ => None
  end.

(** The value a document has at the end of the segments [segs]. *)
Fixpoint descend (v : jsval) (segs : list segment) : option jsval :=
  match segs with
  | [] => Some v
  | s :: rest =>
      match child v s with
      | Some c => descend c rest
      | None => None
      end
  end.

(** Each record of each of the four sequences satisfies its predicate. *)
Definition all_records (PA PR : Change -> Prop) (PM : Modified -> Prop)
    (PU : Change -> Prop) (changes : Changes) : Prop :=
  Forall PA (added changes) /\ Forall PR (removed changes)
  /\ Forall PM (modified changes) /\ Forall PU (unchanged changes).

(** The [type] of a record is the kind of its value. *)
Definition change_typed (c : Change) : Prop :=
  c_type c = getType (c_value c).

(** An Unchanged record holds a [null] or a primitive, with its kind. *)
Definition unchanged_leaf (c : Change) : Prop :=
  c_type c = getType (c_value c)
  /\ (c_type c = "null" \/ c_type c = "primitive").

(** A Modified record is of one of two shapes: a change of kind between two
    values that are not [null], with both kinds and no [type], or two
    primitives that are not strictly equal, with [type] alone. *)
Definition modified_typed (m : Modified) : Prop :=
  (m_oldType m = Some (getType (m_oldValue m))
   /\ m_newType m = Some (getType (m_newValue m))
   /\ m_type m = None
   /\ getType (m_oldValue m) <> getType (m_newValue m)
   /\ m_oldValue m <> JNull /\ m_newValue m <> JNull)
  \/ (m_oldType m = None /\ m_newType m = None
      /\ m_type m = Some "primitive"
      /\ getType (m_oldValue m) = "primitive"
      /\ getType (m_newValue m) = "primitive"
      /\ strict_eq (m_oldValue m) (m_newValue m) = false).

(** The path [q] leads from [p] along [segs], and [v] has [x] there. *)
Definition located (v : jsval) (p : string) (q : string) (x : jsval) : Prop :=
  exists segs, q = fold_left childPath segs p /\ descend v segs = Some x.

(** A Modified record sits at a location both documents have. *)
Definition modified_located (o n : jsval) (p : string) (m : Modified) : Prop :=
  exists segs,
    m_path m = fold_left childPath segs p
    /\ descend o segs = Some (m_oldValue m)
    /\ descend n segs = Some (m_newValue m).

(** An Unchanged record sits at a location both documents have, with strictly
    equal values. *)
Definition unchanged_located (o n : jsval) (p : string) (c : Change) : Prop :=
  exists segs x,
    c_path c = fold_left childPath segs p
    /\ descend o segs = Some (c_value c)
    /\ descend n segs = Some x
    /\ strict_eq (c_value c) x = true.

(** ** Reading a CSV cell back *)

(** The text of a quoted cell after its opening double quote, read up to the
    closing one: a doubled double quote stands for one, a single one must be
    the last character.  [None] when the cell is not well formed. *)
Fixpoint read_quoted (s : string) : option string :=
  match s with
  | EmptyString => None
  | String c rest =>
      if Ascii.eqb c (ascii_of_nat 34) then
        match rest with
        | EmptyString => Some EmptyString
        | String c' rest' =>
            if Ascii.eqb c' (ascii_of_nat 34)
            then option_map (String c') (read_quoted rest')
            else None
        end
      else option_map (String c) (read_quoted rest)
  end.

(** The text a CSV reader gets from a cell: a cell that starts with a double
    quote is a quoted cell, any other cell is its own text. *)
Definition read_cell (cell : string) : option string :=
  match cell with
  | EmptyString => Some EmptyString
  | String c rest =>
      if Ascii.eqb c (ascii_of_nat 34) then read_quoted rest else Some cell
  end.

(** ** States of the navigation *)

(** The index points at a change, or there is no change and it is -1. *)
Definition nav_consistent (s : DiffNavigation.State) : Prop :=
  (DiffNavigation.changes s = [] /\ DiffNavigation.currentIndex s = (-1)%Z)
  \/ (0 <= DiffNavigation.currentIndex s < DiffNavigation.length s)%Z.

(** The entry at index [k] of [s], when there is one, is not of type [t]. *)
Definition not_of_type (t : string) (s : DiffNavigation.State) (k : Z) : Prop :=
  forall c,
    DiffNavigation.at_index (DiffNavigation.changes s) k = Some c ->
    DiffNavigation.type c <> t.

(** Two changes, the index on the second. *)
Definition nav_two_entries : DiffNavigation.State :=
  DiffNavigation.mkState
    [DiffNavigation.mkEntry "added" "a" (inl (mkChange "a" JNull "null"));
     DiffNavigation.mkEntry "removed" "b" (inl (mkChange "b" JNull "null"))]
    1.


(** ** Counting the nodes of a document *)

(** [v] is an object. *)
Definition is_object (v : jsval) : bool :=
  match v with JObj _ => true | _ => false end.

(** [v] is neither an array nor an object. *)
Definition is_leaf (v : jsval) : bool :=
  match v with JArr _ | JObj _ => false | _ => true end.

(** The number of nodes of [v], itself included, that satisfy [P]. *)
Fixpoint count_nodes (P : jsval -> bool) (v : jsval) : nat :=
  (if P v then 1 else 0)
  + match v with
    | JArr l => list_sum (map (count_nodes P) l)
    | JObj l => list_sum (map (fun kv => count_nodes P (snd kv)) l)
    | _ => 0
    end.

(** The number of properties of all objects in [v]. *)
Fixpoint count_keys (v : jsval) : nat :=
  match v with
  | JArr l => list_sum (map count_keys l)
  | JObj l => List.length l + list_sum (map (fun kv => count_keys (snd kv)) l)
  | _ => 0
  end.

(** The greatest number of steps (keys or indices) from [v] down to a node. *)
Fixpoint height (v : jsval) : nat :=
  match v with
  | JArr l => list_max (map (fun x => S (height x)) l)
  | JObj l => list_max (map (fun kv => S (height (snd kv))) l)
  | _ => 0
  end.

(** The statistics [stats] with the counts of the document [v], met at
    nesting level [level], added. *)
Definition stats_with (v : jsval) (level : nat) (stats : Utils.Stats)
    : Utils.Stats :=
  Utils.mkStats
    (Utils.totalKeys stats + count_keys v)
    (Utils.totalArrays stats + count_nodes isArray v)
    (Utils.totalObjects stats + count_nodes is_object v)
    (Utils.totalPrimitives stats + count_nodes is_leaf v)
    (Nat.max (Utils.depth stats) (level + height v))
    (Utils.size stats).

(** ** Results with the same records *)

(** Each of the four sequences of [a] has the records of the same sequence
    of [b], possibly in another order. *)
Definition same_records (a b : Changes) : Prop :=
  (forall c, In c (added a) <-> In c (added b))
  /\ (forall c, In c (removed a) <-> In c (removed b))
  /\ (forall m, In m (modified a) <-> In m (modified b))
  /\ (forall c, In c (unchanged a) <-> In c (unchanged b)).

(** * Properties *)

(** ** The accumulator only grows *)

Lemma capp_nil_l (a : Changes) : capp no_changes a = a.
Proof. destruct a; reflexivity. Qed.

Lemma capp_nil_r (a : Changes) : capp a no_changes = a.
Proof. destruct a; unfold capp; simpl; now rewrite !app_nil_r. Qed.

Lemma capp_assoc (a b c : Changes) : capp (capp a b) c = capp a (capp b c).
Proof. unfold capp; simpl; now rewrite <- !app_assoc. Qed.

Lemma push_added_capp c ch : push_added c ch = capp ch (push_added c no_changes).
Proof. unfold push_added, capp; simpl; now rewrite !app_nil_r. Qed.

Lemma push_removed_capp c ch :
  push_removed c ch = capp ch (push_removed c no_changes).
Proof. unfold push_removed, capp; simpl; now rewrite !app_nil_r. Qed.

Lemma push_modified_capp m ch :
  push_modified m ch = capp ch (push_modified m no_changes).
Proof. unfold push_modified, capp; simpl; now rewrite !app_nil_r. Qed.

Lemma push_unchanged_capp c ch :
  push_unchanged c ch = capp ch (push_unchanged c no_changes).
Proof. unfold push_unchanged, capp; simpl; now rewrite !app_nil_r. Qed.

Lemma forEach_ext {A} (f g : A -> Changes -> option Changes) l :
  (forall x, In x l -> forall ch, f x ch = g x ch) ->
  forall ch, forEach f l ch = forEach g l ch.
Proof.
  induction l as [|x l IH]; intros E ch; simpl; [reflexivity|].
  rewrite (E x (or_introl eq_refl)).
  destruct (g x ch); [|reflexivity].
  apply IH. intros y Hy. apply E. now right.
Qed.

Lemma forEach_collect {A} (f : A -> Changes -> option Changes) l :
  (forall x, In x l -> forall ch, f x ch = Some (capp ch (run (f x no_changes)))) ->
  forall ch,
    forEach f l ch
    = Some (capp ch (cconcat (map (fun x => run (f x no_changes)) l))).
Proof.
  induction l as [|x l IH]; intros E ch; simpl.
  - now rewrite capp_nil_r.
  - rewrite (E x (or_introl eq_refl) ch).
    rewrite IH by (intros y Hy; apply E; now right).
    now rewrite capp_assoc.
Qed.

(** ** Fuel *)

Lemma includes_In keys key : includes keys key = true <-> In key keys.
Proof.
  unfold includes. rewrite existsb_exists. split.
  - intros [x [Hx E]]. apply String.eqb_eq in E. now subst.
  - intros H. exists key. split; [assumption|apply String.eqb_refl].
Qed.

Lemma includes_false keys key : includes keys key = false <-> ~ In key keys.
Proof.
  rewrite <- includes_In. destruct (includes keys key); split; congruence.
Qed.

Lemma lookup_In key props v : lookup key props = Some v -> In (key, v) props.
Proof.
  induction props as [|[k x] props IH]; simpl; [discriminate|].
  destruct (String.eqb_spec key k) as [->|N].
  - intros [= ->]. now left.
  - intros H. right. auto.
Qed.

Lemma lookup_None key props : lookup key props = None <-> ~ In key (map fst props).
Proof.
  induction props as [|[k x] props IH]; simpl.
  - tauto.
  - destruct (String.eqb_spec key k) as [->|N].
    + split; [discriminate|]. intros H. exfalso. apply H. now left.
    + rewrite IH. split; [intros H [E|I]; [congruence|tauto] | tauto].
Qed.

Lemma depth_prop k v props : In (k, v) props -> depth v < depth (JObj props).
Proof.
  simpl. induction props as [|kv props IH]; simpl; [tauto|].
  intros [->|H]; simpl; [lia|]. specialize (IH H). lia.
Qed.

Lemma depth_elem v l : In v l -> depth v < depth (JArr l).
Proof.
  simpl. induction l as [|x l IH]; simpl; [tauto|].
  intros [->|H]; [lia|]. specialize (IH H). lia.
Qed.

Lemma depth_get obj key :
  includes (Object_keys obj) key = true -> depth (get obj key) < depth obj.
Proof.
  destruct obj as [| | | | | |props]; simpl; try discriminate.
  intros H. apply includes_In in H.
  destruct (lookup key props) as [v|] eqn:L.
  - apply lookup_In in L. apply (depth_prop _ _ _ L).
  - apply lookup_None in L. contradiction.
Qed.

Lemma depth_at_index arr i :
  i < length_of arr -> depth (at_index arr i) < depth arr.
Proof.
  unfold length_of, at_index. destruct arr as [| | | | |l|]; simpl; try lia.
  intros H. apply (depth_elem _ l). now apply nth_In.
Qed.

(** The fuel does not matter once it exceeds the depth of the old value. *)
Lemma deepCompare_fuel_irrelevant f1 :
  forall f2 o n p ch, depth o < f1 -> depth o < f2 ->
    deepCompare f1 o n p ch = deepCompare f2 o n p ch.
Proof.
  induction f1 as [|f1 IH]; intros f2 o n p ch H1 H2; [lia|].
  destruct f2 as [|f2]; [lia|]. simpl.
  destruct (is_null o && is_null n); [reflexivity|].
  destruct (is_null o || is_null n); [reflexivity|].
  destruct (negb (getType o =? getType n)); [reflexivity|].
  destruct (getType o =? "object").
  { unfold compareObjects. apply forEach_ext. intros key _ ch'.
    destruct (includes (Object_keys o) key) eqn:Ho; simpl; [|reflexivity].
    destruct (includes (Object_keys n) key); [|reflexivity].
    apply depth_get in Ho. apply IH; lia. }
  destruct (getType o =? "array"); [|reflexivity].
  unfold compareArrays. apply forEach_ext. intros i _ ch'.
  destruct (Nat.ltb_spec i (length_of o)) as [Ho|Ho]; simpl; [|reflexivity].
  destruct (i <? length_of n)%nat; [|reflexivity].
  apply depth_at_index in Ho. apply IH; lia.
Qed.

(** With enough fuel [deepCompare] returns, and what it returns is the
    accumulator it was given followed by the records it pushed. *)
Lemma deepCompare_appends f :
  forall o n p ch, depth o < f ->
    deepCompare f o n p ch
    = Some (capp ch (run (deepCompare f o n p no_changes))).
Proof.
  induction f as [|f IH]; intros o n p ch H; [lia|]. simpl.
  destruct (is_null o && is_null n);
    [simpl; now rewrite push_unchanged_capp|].
  destruct (is_null o || is_null n).
  { destruct (is_null o); simpl;
      [now rewrite push_added_capp | now rewrite push_removed_capp]. }
  destruct (negb (getType o =? getType n));
    [simpl; now rewrite push_modified_capp|].
  destruct (getType o =? "object").
  { unfold compareObjects.
    match goal with |- forEach ?F ?L _ = _ =>
      assert (E : forall x, In x L -> forall c,
                 F x c = Some (capp c (run (F x no_changes)))) end.
    { intros key _ c.
      destruct (includes (Object_keys o) key) eqn:Ho; simpl.
      - destruct (includes (Object_keys n) key).
        + apply depth_get in Ho. apply IH. lia.
        + now rewrite push_removed_capp.
      - now rewrite push_added_capp. }
    rewrite (forEach_collect _ _ E ch).
    rewrite (forEach_collect _ _ E no_changes). simpl.
    now rewrite capp_nil_l. }
  destruct (getType o =? "array").
  { unfold compareArrays.
    match goal with |- forEach ?F ?L _ = _ =>
      assert (E : forall x, In x L -> forall c,
                 F x c = Some (capp c (run (F x no_changes)))) end.
    { intros i _ c.
      destruct (Nat.ltb_spec i (length_of o)) as [Ho|Ho]; simpl.
      - destruct (i <? length_of n)%nat.
        + apply depth_at_index in Ho. apply IH. lia.
        + now rewrite push_removed_capp.
      - now rewrite push_added_capp. }
    rewrite (forEach_collect _ _ E ch).
    rewrite (forEach_collect _ _ E no_changes). simpl.
    now rewrite capp_nil_l. }
  destruct (getType o =? "primitive").
  { destruct (negb (strict_eq o n)); simpl;
      [now rewrite push_modified_capp | now rewrite push_unchanged_capp]. }
  simpl. now rewrite capp_nil_r.
Qed.

Lemma deepCompare_total f o n p ch :
  depth o < f -> deepCompare f o n p ch = Some (capp ch (changes_of o n p)).
Proof.
  intros H. rewrite (deepCompare_appends f o n p ch H). unfold changes_of.
  rewrite (deepCompare_fuel_irrelevant f (S (depth o)) o n p no_changes);
    [reflexivity | assumption | lia].
Qed.

(** [compare] never runs out of fuel. *)
Lemma compare_returns o n :
  deepCompare (fuel_for o n) o n "" no_changes = Some (compare o n).
Proof.
  unfold compare, fuel_for. now rewrite deepCompare_total by lia.
Qed.

Lemma compare_changes_of o n : compare o n = changes_of o n "".
Proof.
  unfold compare, fuel_for.
  rewrite deepCompare_total by lia. simpl. apply capp_nil_l.
Qed.

(** ** The comparison without fuel *)

Lemma compareObjects_total f o n p ch :
  depth o <= f ->
  compareObjects (deepCompare f) o n p ch = Some (capp ch (objectChanges o n p)).
Proof.
  intros H. unfold compareObjects, objectChanges.
  match goal with |- forEach ?F ?L _ = _ =>
    assert (E : forall x, In x L -> forall c,
               F x c = Some (capp c (keyChanges o n p x))) end.
  { intros key _ c. unfold keyChanges.
    destruct (includes (Object_keys o) key) eqn:Ho; simpl.
    - destruct (includes (Object_keys n) key).
      + apply depth_get in Ho. apply deepCompare_total. lia.
      + now rewrite push_removed_capp.
    - now rewrite push_added_capp. }
  rewrite forEach_collect.
  - do 2 f_equal. f_equal. apply map_ext_in. intros key Hk.
    rewrite (E key Hk no_changes). simpl. apply capp_nil_l.
  - intros key Hk c. rewrite (E key Hk c), (E key Hk no_changes). simpl.
    now rewrite capp_nil_l.
Qed.

Lemma compareArrays_total f o n p ch :
  depth o <= f ->
  compareArrays (deepCompare f) o n p ch = Some (capp ch (arrayChanges o n p)).
Proof.
  intros H. unfold compareArrays, arrayChanges.
  match goal with |- forEach ?F ?L _ = _ =>
    assert (E : forall x, In x L -> forall c,
               F x c = Some (capp c (indexChanges o n p x))) end.
  { intros i _ c. unfold indexChanges.
    destruct (Nat.ltb_spec i (length_of o)) as [Ho|Ho]; simpl.
    - destruct (i <? length_of n)%nat.
      + apply depth_at_index in Ho. apply deepCompare_total. lia.
      + now rewrite push_removed_capp.
    - now rewrite push_added_capp. }
  rewrite forEach_collect.
  - do 2 f_equal. f_equal. apply map_ext_in. intros i Hi.
    rewrite (E i Hi no_changes). simpl. apply capp_nil_l.
  - intros i Hi c. rewrite (E i Hi c), (E i Hi no_changes). simpl.
    now rewrite capp_nil_l.
Qed.

(** The defining equation of the comparison: [deepCompare] read off at a
    fuel that suffices. *)
Lemma changes_of_eq o n p :
  changes_of o n p =
    if is_null o && is_null n then
      push_unchanged (mkChange p JNull "null") no_changes
    else if is_null o || is_null n then
      if is_null o then push_added (mkChange p n (getType n)) no_changes
      else push_removed (mkChange p o (getType o)) no_changes
    else if negb (getType o =? getType n) then
      push_modified
        (mkModified p o n (Some (getType o)) (Some (getType n)) None) no_changes
    else if getType o =? "object" then objectChanges o n p
    else if getType o =? "array" then arrayChanges o n p
    else if getType o =? "primitive" then
      if negb (strict_eq o n) then
        push_modified (mkModified p o n None None (Some (getType o))) no_changes
      else push_unchanged (mkChange p o (getType o)) no_changes
    else no_changes.
Proof.
  unfold changes_of. simpl.
  destruct (is_null o && is_null n); [reflexivity|].
  destruct (is_null o || is_null n); [destruct (is_null o); reflexivity|].
  destruct (negb (getType o =? getType n)); [reflexivity|].
  destruct (getType o =? "object").
  { rewrite compareObjects_total by lia. simpl. apply capp_nil_l. }
  destruct (getType o =? "array").
  { rewrite compareArrays_total by lia. simpl. apply capp_nil_l. }
  destruct (getType o =? "primitive"); [|reflexivity].
  destruct (negb (strict_eq o n)); reflexivity.
Qed.

Lemma changes_of_case o n p : compare_case o n p (changes_of o n p).
Proof.
  rewrite changes_of_eq.
  destruct (strict_eq o n) eqn:E;
    destruct o as [| |bo|xo|so|lo|lo], n as [| |bn|xn|sn|ln|ln];
    cbn -[strict_eq objectChanges arrayChanges] in *;
    try discriminate E;
    first
      [ eapply case_objects; reflexivity
      | eapply case_arrays; reflexivity
      | apply case_primitive_same; solve [reflexivity | assumption]
      | apply case_primitive_changed; solve [reflexivity | assumption]
      | apply case_both_null; reflexivity
      | apply case_both_undefined; reflexivity
      | apply case_old_null; solve [reflexivity | discriminate]
      | apply case_new_null; solve [reflexivity | discriminate]
      | apply case_types_differ; solve [reflexivity | discriminate] ].
Qed.

(** ** Records of a concatenation *)

Lemma cconcat_app l1 l2 : cconcat (l1 ++ l2) = capp (cconcat l1) (cconcat l2).
Proof.
  induction l1 as [|c l1 IH]; simpl.
  - now rewrite capp_nil_l.
  - now rewrite IH, capp_assoc.
Qed.

Lemma cconcat_pushes_removed {A} (g : A -> Change) l :
  cconcat (map (fun x => push_removed (g x) no_changes) l)
  = mkChanges [] (map g l) [] [].
Proof. induction l as [|x l IH]; simpl; [reflexivity|now rewrite IH]. Qed.

Lemma cconcat_pushes_added {A} (g : A -> Change) l :
  cconcat (map (fun x => push_added (g x) no_changes) l)
  = mkChanges (map g l) [] [] [].
Proof. induction l as [|x l IH]; simpl; [reflexivity|now rewrite IH]. Qed.

Lemma in_added_cconcat r l :
  In r (added (cconcat l)) <-> exists c, In c l /\ In r (added c).
Proof.
  induction l as [|c l IH]; simpl.
  - split; [tauto|intros [c [[] _]]].
  - rewrite in_app_iff, IH. split.
    + intros [H|[c' [H1 H2]]]; [exists c; auto|exists c'; auto].
    + intros [c' [[->|H1] H2]]; [now left|right; eauto].
Qed.

Lemma in_removed_cconcat r l :
  In r (removed (cconcat l)) <-> exists c, In c l /\ In r (removed c).
Proof.
  induction l as [|c l IH]; simpl.
  - split; [tauto|intros [c [[] _]]].
  - rewrite in_app_iff, IH. split.
    + intros [H|[c' [H1 H2]]]; [exists c; auto|exists c'; auto].
    + intros [c' [[->|H1] H2]]; [now left|right; eauto].
Qed.

Lemma in_modified_cconcat r l :
  In r (modified (cconcat l)) <-> exists c, In c l /\ In r (modified c).
Proof.
  induction l as [|c l IH]; simpl.
  - split; [tauto|intros [c [[] _]]].
  - rewrite in_app_iff, IH. split.
    + intros [H|[c' [H1 H2]]]; [exists c; auto|exists c'; auto].
    + intros [c' [[->|H1] H2]]; [now left|right; eauto].
Qed.

Lemma in_unchanged_cconcat r l :
  In r (unchanged (cconcat l)) <-> exists c, In c l /\ In r (unchanged c).
Proof.
  induction l as [|c l IH]; simpl.
  - split; [tauto|intros [c [[] _]]].
  - rewrite in_app_iff, IH. split.
    + intros [H|[c' [H1 H2]]]; [exists c; auto|exists c'; auto].
    + intros [c' [[->|H1] H2]]; [now left|right; eauto].
Qed.

(** ** Type changes (C2) *)

(** C2, as stated, fails when one side is [null]: the kinds [null] and [array]
    differ, yet the record pushed at ["a"] is an Added one and [modified]
    stays empty. *)
Lemma kinds_differ_not_modified_at_null :
  getType JNull <> getType (JArr [JNum 1])
  /\ compare (JObj [("a", JNull)]) (JObj [("a", JArr [JNum 1])])
     = mkChanges [mkChange "a" (JArr [JNum 1]) "array"] [] [] []
  /\ modified (compare (JObj [("a", JNull)]) (JObj [("a", JArr [JNum 1])]))
     = [].
Proof. split; [discriminate|split; reflexivity]. Qed.

(** C2 (amended): [compare({a:{x:1}}, {a:[1]})] is exactly one Modified record,
    at path ["a"], with [oldType] ["object"] and [newType] ["array"], and no
    other record; in general, when neither side is [null] and the kinds of the
    two sides differ, [deepCompare] pushes one Modified record with the two
    values and kinds at that path, whatever the two subtrees contain, and
    nothing else. *)
Theorem type_change_short_circuit :
  compare example_object_a example_array_a
  = mkChanges [] []
      [mkModified "a" (JObj [("x", JNum 1)]) (JArr [JNum 1])
         (Some "object") (Some "array") None] []
  /\
  forall fuel o n path changes,
    o <> JNull -> n <> JNull -> getType o <> getType n ->
    deepCompare (S fuel) o n path changes
    = Some (push_modified
              (mkModified path o n (Some (getType o)) (Some (getType n)) None)
              changes).
Proof.
  split; [reflexivity|].
  intros fuel o n path changes Ho Hn Hk. simpl.
  assert (is_null o = false) as -> by (destruct o; simpl; congruence).
  assert (is_null n = false) as -> by (destruct n; simpl; congruence).
  simpl. apply String.eqb_neq in Hk. now rewrite Hk.
Qed.

Lemma type_change_short_circuit_witness :
  deepCompare 1 (JObj [("x", JNum 1)]) (JArr [JNum 1]) "a" no_changes
  = Some (push_modified
            (mkModified "a" (JObj [("x", JNum 1)]) (JArr [JNum 1])
               (Some "object") (Some "array") None)
            no_changes).
Proof.
  apply (proj2 type_change_short_circuit 0); discriminate.
Defined.

(** ** Statistics (C5) *)

(** C5: [totalChanges] is the number of added, removed and modified records;
    the unchanged records do not enter it. *)
Theorem calculateStats_totalChanges :
  forall r : Changes,
    totalChanges (calculateStats r)
    = List.length (added r) + List.length (removed r) + List.length (modified r)
    /\ forall u : list Change,
         totalChanges
           (calculateStats (mkChanges (added r) (removed r) (modified r) u))
         = totalChanges (calculateStats r).
Proof. intros r. split; [reflexivity|intros u; reflexivity]. Qed.

(** ** Transformation descriptors (C9) *)

Lemma pushEach_map {A} (mk : A -> Query) l queries :
  pushEach mk l queries = queries ++ map mk l.
Proof.
  unfold pushEach. revert queries.
  induction l as [|x l IH]; intros queries; simpl.
  - now rewrite app_nil_r.
  - now rewrite IH, <- app_assoc.
Qed.

Lemma map_const_repeat {A B} (b : B) (l : list A) :
  map (fun _ => b) l = repeat b (List.length l).
Proof. induction l; simpl; congruence. Qed.

(** C9: the descriptors are one addition per Added record, then one deletion
    per Removed record, then one modification per Modified record, each group
    in the order of its records and at its record's path; the Unchanged
    records contribute nothing, so there are [totalChanges] descriptors. *)
Theorem generateJSONataQueries_projection :
  forall (JSON_stringify String_of : jsval -> string) (r : Changes),
    let queries := generateJSONataQueries JSON_stringify String_of r in
    queries
    = map (additionQuery JSON_stringify) (added r)
      ++ map deletionQuery (removed r)
      ++ map (modificationQuery JSON_stringify String_of) (modified r)
    /\ map q_type queries
       = repeat "addition" (List.length (added r))
         ++ repeat "deletion" (List.length (removed r))
         ++ repeat "modification" (List.length (modified r))
    /\ map q_path queries
       = map c_path (added r) ++ map c_path (removed r)
         ++ map m_path (modified r)
    /\ List.length queries = totalChanges (calculateStats r)
    /\ forall u : list Change,
         generateJSONataQueries JSON_stringify String_of
           (mkChanges (added r) (removed r) (modified r) u)
         = queries.
Proof.
  intros js so r queries.
  assert (E : queries
              = map (additionQuery js) (added r)
                ++ map deletionQuery (removed r)
                ++ map (modificationQuery js so) (modified r)).
  { unfold queries, generateJSONataQueries.
    rewrite !pushEach_map. simpl. now rewrite <- app_assoc. }
  split; [exact E|]. rewrite E. repeat split.
  - rewrite !map_app, !map_map. simpl.
    f_equal; [|f_equal].
    + apply map_const_repeat.
    + apply map_const_repeat.
    + apply map_const_repeat.
  - now rewrite !map_app, !map_map.
  - rewrite !length_app, !length_map. simpl. lia.
  - intros u. unfold generateJSONataQueries.
    rewrite !pushEach_map. simpl. now rewrite <- app_assoc.
Qed.

(** ** Arrays are compared by position (C8) *)

Lemma seq_max_split a b :
  seq 0 (Nat.max a b) = seq 0 (Nat.min a b) ++ seq (Nat.min a b) (Nat.max a b - Nat.min a b).
Proof.
  rewrite <- seq_app. f_equal. lia.
Qed.

(** C8: [compare({a:[1,2,3]}, {a:[1,2]})] reports [a[2]] removed, nothing
    modified or added, and [a[0]], [a[1]] unchanged; in general two arrays are
    compared index by index: the indices both have are compared recursively at
    [path[i]] in increasing order, then every further element of the old array
    is reported Removed and every further element of the new array Added, at
    [path[i]], with the element as value. *)
Theorem compareArrays_positional :
  compare example_a123 example_a12
  = mkChanges []
      [mkChange "a[2]" (JNum 3) "primitive"]
      []
      [mkChange "a[0]" (JNum 1) "primitive";
       mkChange "a[1]" (JNum 2) "primitive"]
  /\
  forall (lo ln : list jsval) (path : string),
    changes_of (JArr lo) (JArr ln) path
    = capp
        (cconcat
           (map (fun i => changes_of (nth i lo JUndefined) (nth i ln JUndefined)
                            (indexPath path i))
              (seq 0 (Nat.min (List.length lo) (List.length ln)))))
        (mkChanges
           (map (fun i => mkChange (indexPath path i) (nth i ln JUndefined)
                            (getType (nth i ln JUndefined)))
              (seq (List.length lo) (List.length ln - List.length lo)))
           (map (fun i => mkChange (indexPath path i) (nth i lo JUndefined)
                            (getType (nth i lo JUndefined)))
              (seq (List.length ln) (List.length lo - List.length ln)))
           [] []).
Proof.
  split; [reflexivity|].
  intros lo ln path. rewrite changes_of_eq.
  cbn -[arrayChanges]. unfold arrayChanges, length_of. simpl elements.
  rewrite seq_max_split, map_app, cconcat_app. f_equal.
  - f_equal. apply map_ext_in. intros i Hi. apply in_seq in Hi.
    unfold indexChanges, length_of, at_index. simpl elements.
    destruct (Nat.ltb_spec i (List.length lo)); [|lia].
    destruct (Nat.ltb_spec i (List.length ln)); [|lia]. reflexivity.
  - destruct (Nat.le_ge_cases (List.length lo) (List.length ln)) as [L|L].
    + replace (List.length lo - List.length ln) with 0 by lia.
      replace (Nat.min (List.length lo) (List.length ln))
        with (List.length lo) by lia.
      replace (Nat.max (List.length lo) (List.length ln) - List.length lo)
        with (List.length ln - List.length lo) by lia.
      simpl. rewrite <- cconcat_pushes_added. f_equal.
      apply map_ext_in. intros i Hi. apply in_seq in Hi.
      unfold indexChanges, length_of, at_index. simpl elements.
      destruct (Nat.ltb_spec i (List.length lo)); [lia|]. reflexivity.
    + replace (List.length ln - List.length lo) with 0 by lia.
      replace (Nat.min (List.length lo) (List.length ln))
        with (List.length ln) by lia.
      replace (Nat.max (List.length lo) (List.length ln) - List.length ln)
        with (List.length lo - List.length ln) by lia.
      simpl. rewrite <- cconcat_pushes_removed. f_equal.
      apply map_ext_in. intros i Hi. apply in_seq in Hi.
      unfold indexChanges, length_of, at_index. simpl elements.
      destruct (Nat.ltb_spec i (List.length lo)); [|lia].
      destruct (Nat.ltb_spec i (List.length ln)); [lia|]. reflexivity.
Qed.

(** ** The percentage of changes (C6) *)

Lemma calculateChangePercentage_no_records :
  forall r : Changes,
    added r = [] -> removed r = [] -> modified r = [] -> unchanged r = [] ->
    changePercentage (calculateStats r) = zero.
Proof.
  intros r Ha Hr Hm Hu. simpl. unfold calculateChangePercentage.
  now rewrite Ha, Hr, Hm, Hu.
Qed.

Lemma calculateChangePercentage_empty_documents :
  changePercentage (calculateStats (compare (JObj []) (JObj []))) = zero
  /\ changePercentage (calculateStats (compare (JArr []) (JArr []))) = zero.
Proof. split; reflexivity. Qed.

(** C6 at 23 changed records out of 40: [100 * 23 / 40] is exactly 57.5, whose
    nearest integer is 58 under either treatment of the tie, but the double
    [23 / 40] lies below 0.575, its product with 100 is 57.49999999999999,
    and [Math.round] makes 57 of it. *)
Theorem changePercentage_23_of_40 :
  let r := compare forty_old forty_new in
  totalChanges (calculateStats r) = 23
  /\ s_unchanged (calculateStats r) = 17
  /\ changePercentage (calculateStats r) = 57%float
  /\ PrimFloat.mul (PrimFloat.div 23 40) 100 = 0x1.cbfffffffffffp+5%float
  /\ (2 * (100 * 23) = 115 * 40)%Z
  /\ exact_percentage_half_up 23 40 = 58%Z
  /\ exact_percentage_half_even 23 40 = 58%Z.
Proof. vm_compute. repeat split. Qed.

(** ** Strings *)

Lemma append_nil_r (s : string) : (s ++ "")%string = s.
Proof. induction s; simpl; congruence. Qed.

Lemma append_assoc (a b c : string) :
  ((a ++ b) ++ c)%string = (a ++ (b ++ c))%string.
Proof. induction a; simpl; congruence. Qed.

Lemma append_eq_nil (a b : string) :
  (a ++ b)%string = "" -> a = "" /\ b = "".
Proof. destruct a; simpl; [auto|discriminate]. Qed.

Lemma avoids_weaken (bad bad' : ascii -> bool) s :
  (forall c, bad' c = true -> bad c = true) ->
  avoids bad s = true -> avoids bad' s = true.
Proof.
  intros W. induction s as [|c s IH]; simpl; [reflexivity|].
  intros H. apply andb_true_iff in H as [H1 H2].
  rewrite IH by assumption. destruct (bad' c) eqn:E; [|reflexivity].
  apply W in E. now rewrite E in H1.
Qed.

Lemma plain_key_no_dot key : plain_key key = true -> avoids is_dot key = true.
Proof.
  apply avoids_weaken. intros c H. unfold is_delimiter. now rewrite H.
Qed.

Lemma plain_key_no_open key : plain_key key = true -> avoids is_open key = true.
Proof.
  apply avoids_weaken. intros c H. unfold is_delimiter. rewrite H.
  now rewrite orb_true_r.
Qed.

(** ** Parsing a path back (C4) *)

Lemma formatKeys_fold keys : formatKeys keys = fold_left keyPath keys "".
Proof.
  unfold formatKeys, format. generalize "".
  induction keys as [|k keys IH]; intros p; simpl; [reflexivity|apply IH].
Qed.

Lemma fold_keyPath_nonempty keys :
  forall p, p <> "" -> fold_left keyPath keys p = (p ++ dotted keys)%string.
Proof.
  induction keys as [|k keys IH]; intros p Hp; simpl.
  - now rewrite append_nil_r.
  - unfold keyPath at 2. apply String.eqb_neq in Hp. rewrite Hp.
    rewrite IH.
    + now rewrite !append_assoc.
    + intros E. apply append_eq_nil in E as [E _]. subst p. discriminate.
Qed.

Lemma split_dot_nonempty s : split_dot s <> [].
Proof.
  destruct s as [|c s]; simpl; [discriminate|].
  destruct (Ascii.eqb c "."); [discriminate|].
  destruct (split_dot s); discriminate.
Qed.

Lemma split_dot_key key rest :
  avoids is_dot key = true ->
  split_dot (key ++ String "." rest)%string = key :: split_dot rest.
Proof.
  induction key as [|c key IH]; simpl; intros H; [reflexivity|].
  apply andb_true_iff in H as [H1 H2]. unfold is_dot in H1.
  destruct (Ascii.eqb c "."); [discriminate|].
  now rewrite IH.
Qed.

Lemma split_dot_plain key :
  avoids is_dot key = true -> split_dot key = [key].
Proof.
  induction key as [|c key IH]; simpl; intros H; [reflexivity|].
  apply andb_true_iff in H as [H1 H2]. unfold is_dot in H1.
  destruct (Ascii.eqb c "."); [discriminate|].
  now rewrite IH.
Qed.

Lemma split_dot_dotted keys :
  Forall (fun k => avoids is_dot k = true) keys ->
  forall key, avoids is_dot key = true ->
    split_dot (key ++ dotted keys)%string = key :: keys.
Proof.
  induction 1 as [|k keys Hk _ IH]; intros key H; simpl.
  - rewrite append_nil_r. now apply split_dot_plain.
  - rewrite split_dot_key by assumption. f_equal. now apply IH.
Qed.

Lemma match_index_open s rest :
  match_index s = Some rest -> exists t, s = String "[" t.
Proof.
  destruct s as [|c1 [|c2 s]]; simpl; try discriminate.
  destruct (Ascii.eqb_spec c1 "["); simpl; [|discriminate].
  subst. eauto.
Qed.

Lemma replace_index_plain s : avoids is_open s = true -> replace_index s = s.
Proof.
  induction s as [|c s IH]; intros H.
  - reflexivity.
  - simpl in H. apply andb_true_iff in H as [H1 H2].
    cbn [replace_index].
    destruct (match_index (String c s)) as [rest|] eqn:M.
    + apply match_index_open in M as [t [= -> _]]. discriminate.
    + now rewrite IH.
Qed.

Lemma map_replace_index_plain keys :
  Forall (fun key => plain_key key = true) keys ->
  map replace_index keys = keys.
Proof.
  induction 1 as [|x l Hx _ IHl]; simpl; [reflexivity|].
  rewrite IHl, replace_index_plain; [reflexivity|].
  now apply plain_key_no_open.
Qed.

(** Parsing the path of a sequence of plain keys that starts with a
    non-empty key gives the keys back. *)
Lemma getPathParts_formatKeys key keys :
  key <> "" ->
  Forall (fun key => plain_key key = true) (key :: keys) ->
  getPathParts (formatKeys (key :: keys)) = key :: keys.
Proof.
  intros Hne H. rewrite formatKeys_fold.
  change (fold_left keyPath (key :: keys) "") with (fold_left keyPath keys key).
  rewrite (fold_keyPath_nonempty keys key Hne).
  unfold getPathParts. inversion H as [|k l Hk Hks]; subst.
  rewrite split_dot_dotted.
  - now apply map_replace_index_plain.
  - eapply Forall_impl; [|exact Hks]. intros a. apply plain_key_no_dot.
  - now apply plain_key_no_dot.
Qed.

Lemma formatKeys_getPathParts keys :
  Forall (fun key => plain_key key = true) keys ->
  formatKeys (getPathParts (formatKeys keys)) = formatKeys keys.
Proof.
  intros H. induction H as [|k keys Hk Hks IH]; [reflexivity|].
  destruct k as [|c k].
  - rewrite !formatKeys_fold in *. exact IH.
  - rewrite getPathParts_formatKeys; [reflexivity|discriminate|].
    now constructor.
Qed.

(** C4, as stated, fails on every path with an array index: the comparison
    produces ["a[2]"], which [getPathParts] parses into the single part ["a"],
    and formatting that part gives ["a"].  And parsing is not the inverse of
    formatting where the first key is empty, a key without ['.'], ['['] or
    [']']: the keys [""] and ["a"] format to ["a"], which parses into ["a"]
    alone. *)
Lemma getPathParts_drops_index :
  In "a[2]" (map c_path (removed (compare example_a123 example_a12)))
  /\ format [Key "a"; Index 2] = "a[2]"
  /\ getPathParts "a[2]" = ["a"]
  /\ formatKeys (getPathParts "a[2]") <> "a[2]"
  /\ Forall (fun key => plain_key key = true) [""; "a"]
  /\ getPathParts (formatKeys [""; "a"]) = ["a"].
Proof.
  repeat split; [left; reflexivity|discriminate|repeat constructor].
Qed.

(** C4 (amended): for every path the comparison builds from object keys only
    (keys without ['.'], ['['] or [']'], no array index on the way), the parts
    [getPathParts] returns format to the same path again; and when the first
    key is not empty, the parts are the keys themselves, so that parsing is
    the inverse of formatting. *)
Theorem getPathParts_round_trip_keys :
  forall keys : list string,
    Forall (fun key => plain_key key = true) keys ->
    formatKeys (getPathParts (formatKeys keys)) = formatKeys keys
    /\ (forall key rest,
          keys = key :: rest -> key <> "" ->
          getPathParts (formatKeys keys) = keys).
Proof.
  intros keys H. split.
  - now apply formatKeys_getPathParts.
  - intros key rest -> Hne. now apply getPathParts_formatKeys.
Qed.

Lemma getPathParts_round_trip_keys_witness :
  formatKeys (getPathParts (formatKeys ["dmp"; "title"]))
  = formatKeys ["dmp"; "title"]
  /\ getPathParts (formatKeys ["dmp"; "title"]) = ["dmp"; "title"].
Proof.
  destruct (getPathParts_round_trip_keys ["dmp"; "title"]) as [A B].
  - repeat constructor.
  - split; [exact A|]. apply (B "dmp" ["title"]); [reflexivity|discriminate].
Defined.

(** ** Swapping the two documents (C3) *)

Lemma swap_involutive m : swap (swap m) = m.
Proof. now destruct m. Qed.

Lemma SFcompare_swap f1 f2 :
  SFcompare f2 f1 = option_map CompOpp (SFcompare f1 f2).
Proof.
  destruct f1 as [s1|s1| |s1 m1 e1], f2 as [s2|s2| |s2 m2 e2]; simpl;
    try reflexivity;
    try (destruct s1; reflexivity); try (destruct s2; reflexivity);
    try (destruct s1, s2; reflexivity).
  destruct s1, s2; simpl; try reflexivity;
    change (Pos.compare_cont Eq m2 m1) with (m2 ?= m1)%positive;
    change (Pos.compare_cont Eq m1 m2) with (m1 ?= m2)%positive;
    rewrite (Z.compare_antisym e1 e2), (Pos.compare_antisym m1 m2);
    destruct (e1 ?= e2)%Z; simpl; try reflexivity;
    destruct (m1 ?= m2)%positive; reflexivity.
Qed.

Lemma float_eqb_sym (x y : float) : PrimFloat.eqb x y = PrimFloat.eqb y x.
Proof.
  rewrite !FloatAxioms.eqb_spec. unfold SFeqb.
  rewrite (SFcompare_swap (Prim2SF x) (Prim2SF y)).
  destruct (SFcompare (Prim2SF x) (Prim2SF y)) as [[| |]|]; reflexivity.
Qed.

Lemma strict_eq_sym a b : strict_eq a b = strict_eq b a.
Proof.
  destruct a, b; simpl; try reflexivity.
  - destruct b, b0; reflexivity.
  - apply float_eqb_sym.
  - apply String.eqb_sym.
Qed.

Lemma in_fold_Set_add key keys :
  forall s, In key (fold_left Set_add keys s) <-> In key s \/ In key keys.
Proof.
  induction keys as [|k keys IH]; intros s; simpl; [tauto|].
  rewrite IH. unfold Set_add.
  destruct (includes s k) eqn:E.
  - apply includes_In in E. split; [tauto|].
    intros [H|[->|H]]; tauto.
  - rewrite in_app_iff. simpl. tauto.
Qed.

Lemma in_Set_of key keys : In key (Set_of keys) <-> In key keys.
Proof. unfold Set_of. rewrite in_fold_Set_add. simpl. tauto. Qed.

Lemma mirrored_cconcat {A} (f g : A -> Changes) l1 l2 :
  (forall x, In x l1 -> In x l2) ->
  (forall x, In x l1 -> mirrored (f x) (g x)) ->
  mirrored (cconcat (map f l1)) (cconcat (map g l2)).
Proof.
  intros Hin Hm. repeat split.
  - intros c H. apply in_added_cconcat in H as [ch [H1 H2]].
    apply in_map_iff in H1 as [x [<- Hx]].
    apply in_removed_cconcat. exists (g x). split.
    + apply in_map. auto.
    + now apply (Hm x Hx).
  - intros c H. apply in_removed_cconcat in H as [ch [H1 H2]].
    apply in_map_iff in H1 as [x [<- Hx]].
    apply in_added_cconcat. exists (g x). split.
    + apply in_map. auto.
    + now apply (Hm x Hx).
  - intros m H. apply in_modified_cconcat in H as [ch [H1 H2]].
    apply in_map_iff in H1 as [x [<- Hx]].
    apply in_modified_cconcat. exists (g x). split.
    + apply in_map. auto.
    + now apply (Hm x Hx).
Qed.

Lemma mirrored_added_removed c :
  mirrored (push_added c no_changes) (push_removed c no_changes).
Proof. repeat split; simpl; tauto. Qed.

Lemma mirrored_removed_added c :
  mirrored (push_removed c no_changes) (push_added c no_changes).
Proof. repeat split; simpl; tauto. Qed.

Lemma mirrored_modified m :
  mirrored (push_modified m no_changes) (push_modified (swap m) no_changes).
Proof.
  repeat split; simpl; try tauto. intros m' [<-|[]]. now left.
Qed.

Lemma mirrored_unchanged c c' :
  mirrored (push_unchanged c no_changes) (push_unchanged c' no_changes).
Proof. repeat split; simpl; tauto. Qed.

Lemma changes_of_mirrored d :
  forall o n p, depth o <= d -> mirrored (changes_of o n p) (changes_of n o p).
Proof.
  induction d as [|d IH]; intros o n p Hd.
  - destruct (changes_of_case o n p) as
      [-> ->| -> Hn|Ho ->|Ho Hn Hk|lo ln -> ->|lo ln -> ->|Ho Hn E|Ho Hn E| -> ->];
      try (simpl in Hd; lia); rewrite changes_of_eq.
    + apply mirrored_unchanged.
    + destruct n; try congruence; apply mirrored_added_removed.
    + destruct o; try congruence; apply mirrored_removed_added.
    + destruct o, n; try congruence; try (now elim Hk);
        apply mirrored_modified.
    + rewrite strict_eq_sym in E.
      destruct o, n; try discriminate; cbn -[strict_eq]; rewrite E;
        apply mirrored_modified.
    + rewrite strict_eq_sym in E.
      destruct o, n; try discriminate; cbn -[strict_eq]; rewrite E;
        apply mirrored_unchanged.
    + repeat split; simpl; tauto.
  - destruct (changes_of_case o n p) as
      [-> ->| -> Hn|Ho ->|Ho Hn Hk|lo ln -> ->|lo ln -> ->|Ho Hn E|Ho Hn E| -> ->];
      rewrite changes_of_eq.
    + apply mirrored_unchanged.
    + destruct n; try congruence; apply mirrored_added_removed.
    + destruct o; try congruence; apply mirrored_removed_added.
    + destruct o, n; try congruence; try (now elim Hk);
        apply mirrored_modified.
    + cbn -[objectChanges]. unfold objectChanges.
      apply mirrored_cconcat.
      * intros key. rewrite !in_Set_of, !in_app_iff. tauto.
      * intros key Hkey. apply in_Set_of, in_app_iff in Hkey.
        unfold keyChanges.
        destruct (includes (Object_keys (JObj lo)) key) eqn:Eo;
          destruct (includes (Object_keys (JObj ln)) key) eqn:En; cbn [andb].
        -- apply IH. apply depth_get in Eo. lia.
        -- apply mirrored_removed_added.
        -- apply mirrored_added_removed.
        -- apply includes_false in Eo, En. tauto.
    + cbn -[arrayChanges]. unfold arrayChanges.
      rewrite (Nat.max_comm (length_of (JArr ln))).
      apply mirrored_cconcat; [auto|].
      intros i Hi. unfold indexChanges.
      destruct (Nat.ltb_spec i (length_of (JArr lo))) as [Eo|Eo];
        destruct (Nat.ltb_spec i (length_of (JArr ln))) as [En|En]; cbn [andb].
      -- apply IH. apply depth_at_index in Eo. lia.
      -- apply mirrored_removed_added.
      -- apply mirrored_added_removed.
      -- apply in_seq in Hi. lia.
    + rewrite strict_eq_sym in E.
      destruct o, n; try discriminate; cbn -[strict_eq]; rewrite E;
        apply mirrored_modified.
    + rewrite strict_eq_sym in E.
      destruct o, n; try discriminate; cbn -[strict_eq]; rewrite E;
        apply mirrored_unchanged.
    + repeat split; simpl; tauto.
Qed.

(** C3: the Added records of [compare X Y] are the Removed records of
    [compare Y X] and the other way round, as sets of records (path, value and
    kind), and the Modified records of the one are those of the other with
    old and new value (and old and new kind) exchanged. *)
Theorem compare_antisymmetric :
  forall X Y : jsval,
    (forall c, In c (added (compare X Y)) <-> In c (removed (compare Y X)))
    /\ (forall c, In c (removed (compare X Y)) <-> In c (added (compare Y X)))
    /\ (forall m, In m (modified (compare X Y))
                  <-> In (swap m) (modified (compare Y X))).
Proof.
  intros X Y. rewrite !compare_changes_of.
  destruct (changes_of_mirrored (depth X) X Y "" (le_n _)) as [A1 [R1 M1]].
  destruct (changes_of_mirrored (depth Y) Y X "" (le_n _)) as [A2 [R2 M2]].
  repeat split; auto.
  intros H. apply M2 in H. now rewrite swap_involutive in H.
Qed.

(** ** JSON-shaped values *)

Lemma distinct_NoDup keys : distinct keys = true <-> NoDup keys.
Proof.
  induction keys as [|k keys IH]; simpl.
  - split; [constructor|reflexivity].
  - rewrite andb_true_iff, negb_true_iff, includes_false, IH.
    split; [intros [H1 H2]; now constructor|inversion 1; auto].
Qed.

Lemma lookup_distinct props :
  distinct (map fst props) = true ->
  forall key v, In (key, v) props -> lookup key props = Some v.
Proof.
  induction props as [|[k x] props IH]; simpl; [tauto|].
  intros H key v Hin. apply andb_true_iff in H as [H1 H2].
  apply negb_true_iff, includes_false in H1.
  destruct Hin as [[= -> ->]|Hin].
  - now rewrite String.eqb_refl.
  - destruct (String.eqb_spec key k) as [->|N]; [|now apply IH].
    exfalso. apply H1. apply (in_map fst) in Hin. exact Hin.
Qed.

Lemma fold_Set_add_fresh keys :
  forall s, NoDup (s ++ keys) -> fold_left Set_add keys s = s ++ keys.
Proof.
  induction keys as [|k keys IH]; intros s H; simpl.
  - now rewrite app_nil_r.
  - unfold Set_add at 2.
    assert (N : ~ In k s).
    { apply NoDup_remove_2 in H. rewrite in_app_iff in H. tauto. }
    apply includes_false in N. rewrite N.
    rewrite IH; rewrite <- app_assoc; [reflexivity|exact H].
Qed.

Lemma fold_Set_add_known keys :
  forall s, (forall k, In k keys -> In k s) -> fold_left Set_add keys s = s.
Proof.
  induction keys as [|k keys IH]; intros s H; simpl; [reflexivity|].
  unfold Set_add at 2.
  assert (I : In k s) by (apply H; now left).
  apply includes_In in I. rewrite I. apply IH. intros k' Hk'. apply H. now right.
Qed.

Lemma Set_of_twice keys : distinct keys = true -> Set_of (keys ++ keys) = keys.
Proof.
  intros H. apply distinct_NoDup in H. unfold Set_of.
  rewrite fold_left_app, (fold_Set_add_fresh keys []) by exact H.
  simpl. apply fold_Set_add_known. auto.
Qed.

Lemma cconcat_unchanged_only {A} (f : A -> Changes) (g : A -> list Change) l :
  (forall x, In x l -> f x = mkChanges [] [] [] (g x)) ->
  cconcat (map f l) = mkChanges [] [] [] (flat_map g l).
Proof.
  induction l as [|x l IH]; intros H; simpl; [reflexivity|].
  rewrite (H x (or_introl eq_refl)), IH; [reflexivity|].
  intros y Hy. apply H. now right.
Qed.

Lemma flat_map_ext_in {A B} (f g : A -> list B) l :
  (forall x, In x l -> f x = g x) -> flat_map f l = flat_map g l.
Proof.
  induction l as [|x l IH]; intros H; simpl; [reflexivity|].
  rewrite (H x (or_introl eq_refl)), IH; [reflexivity|].
  intros y Hy. apply H. now right.
Qed.

Lemma json_shaped_get props key :
  json_shaped (JObj props) = true -> In key (map fst props) ->
  json_shaped (get (JObj props) key) = true.
Proof.
  simpl. intros H Hin. apply andb_true_iff in H as [_ H].
  destruct (lookup key props) as [v|] eqn:L.
  - apply lookup_In in L. rewrite forallb_forall in H. apply (H _ L).
  - apply lookup_None in L. contradiction.
Qed.

Lemma json_shaped_nth l i :
  json_shaped (JArr l) = true -> i < List.length l ->
  json_shaped (nth i l JUndefined) = true.
Proof.
  simpl. intros H Hi. rewrite forallb_forall in H. apply H. now apply nth_In.
Qed.

(** ** Comparing a document with itself (C7) *)

Lemma leaves_elems p l :
  forall a,
    flat_map (fun i => leaves (indexPath p i) (nth (i - a) l JUndefined))
      (seq a (List.length l))
    = (fix elems (i : nat) (l : list jsval) : list Change :=
         match l with
         | [] => []
         | x :: rest => leaves (indexPath p i) x ++ elems (S i) rest
         end) a l.
Proof.
  induction l as [|x l IH]; intros a; simpl; [reflexivity|].
  rewrite Nat.sub_diag. f_equal.
  rewrite <- IH. apply flat_map_ext_in. intros i Hi. apply in_seq in Hi.
  replace (i - a) with (S (i - S a)) by lia. reflexivity.
Qed.

Lemma leaves_props p props :
  forall l,
    (forall key v, In (key, v) l -> lookup key props = Some v) ->
    flat_map (fun key => leaves (keyPath p key) (get (JObj props) key))
      (map fst l)
    = (fix props (l : list (string * jsval)) : list Change :=
         match l with
         | [] => []
         | (key, x) :: rest => leaves (keyPath p key) x ++ props rest
         end) l.
Proof.
  induction l as [|[k x] l IH]; intros H; simpl; [reflexivity|].
  rewrite (H k x (or_introl eq_refl)). f_equal.
  apply IH. intros key v Hin. apply H. now right.
Qed.

Lemma float_eqb_refl_finite x : PrimFloat.is_finite x = true -> PrimFloat.eqb x x = true.
Proof.
  unfold PrimFloat.is_finite, PrimFloat.is_nan. intros H.
  apply negb_true_iff, orb_false_iff in H as [H _].
  now apply negb_false_iff in H.
Qed.

Lemma changes_of_same d :
  forall X p, depth X <= d -> json_shaped X = true ->
    changes_of X X p = mkChanges [] [] [] (leaves p X).
Proof.
  induction d as [|d IH]; intros X p Hd HX;
    destruct X as [| |b|x|s|l|l]; try discriminate HX;
    try (simpl in Hd; lia); rewrite changes_of_eq;
    try (cbn; now rewrite ?Bool.eqb_reflx, ?String.eqb_refl);
    try (cbn in *; now rewrite float_eqb_refl_finite).
  - cbn -[arrayChanges]. unfold arrayChanges, length_of. simpl elements.
    rewrite Nat.max_id.
    rewrite (cconcat_unchanged_only _
               (fun i => leaves (indexPath p i) (nth i l JUndefined))).
    + f_equal. rewrite <- (leaves_elems p l 0).
      apply flat_map_ext_in. intros i _. now rewrite Nat.sub_0_r.
    + intros i Hi. apply in_seq in Hi. unfold indexChanges, length_of, at_index.
      simpl elements.
      destruct (Nat.ltb_spec i (List.length l)); [|lia]. cbn [andb].
      apply IH.
      * assert (D := depth_elem (nth i l JUndefined) l (nth_In _ _ (proj2 Hi))).
        lia.
      * apply json_shaped_nth; [exact HX|lia].
  - cbn -[objectChanges]. unfold objectChanges.
    assert (Hdis : distinct (map fst l) = true)
      by (simpl in HX; now apply andb_true_iff in HX as [? _]).
    simpl Object_keys. rewrite Set_of_twice by exact Hdis.
    rewrite (cconcat_unchanged_only _
               (fun key => leaves (keyPath p key) (get (JObj l) key))).
    + f_equal. apply leaves_props. apply lookup_distinct. exact Hdis.
    + intros key Hkey. unfold keyChanges. simpl Object_keys.
      assert (I := proj2 (includes_In _ _) Hkey). rewrite I. cbn [andb].
      apply IH.
      * assert (D := depth_get (JObj l) key I). lia.
      * now apply json_shaped_get.
Qed.

(** ** Null and absent sides (C1) *)

Lemma null_rule_cconcat q a b c l :
  In c l -> null_rule q a b c -> null_rule q a b (cconcat l).
Proof.
  intros Hc (U & A1 & A2 & R1 & R2). repeat split.
  - intros Ha Hb. apply in_unchanged_cconcat. exists c. auto.
  - intros v Ha Hb Hv. apply in_added_cconcat. exists c. auto.
  - intros v Ha Hb. apply in_added_cconcat. exists c. auto.
  - intros v Ha Hv Hb. apply in_removed_cconcat. exists c. auto.
  - intros v Ha Hb. apply in_removed_cconcat. exists c. auto.
Qed.

Lemma lookup_Some_includes key props v :
  lookup key props = Some v -> includes (map fst props) key = true.
Proof.
  intros H. apply includes_In. apply lookup_In in H.
  apply (in_map fst) in H. exact H.
Qed.

Lemma lookup_None_includes key props :
  lookup key props = None -> includes (map fst props) key = false.
Proof. intros H. apply includes_false. now apply lookup_None. Qed.

Lemma nth_error_nth_default (l : list jsval) i v :
  nth_error l i = Some v -> nth i l JUndefined = v /\ i < List.length l.
Proof.
  intros H. split.
  - now apply nth_error_nth.
  - apply nth_error_Some. congruence.
Qed.

Lemma in_allKeys lo ln key :
  lookup key lo <> None \/ lookup key ln <> None ->
  In key (Set_of (map fst lo ++ map fst ln)).
Proof.
  intros H. apply in_Set_of, in_app_iff.
  destruct H as [H|H]; [left|right];
    destruct (lookup key _) eqn:L; try congruence;
    apply includes_In; eapply lookup_Some_includes; eassumption.
Qed.

Lemma visits_null_rule o n p q a b :
  visits o n p q a b -> null_rule q a b (changes_of o n p).
Proof.
  induction 1 as
    [o n p
    |o n p lo ln key -> -> Hone Hsome
    |o n p lo ln key vo vn q a b -> -> Lo Ln _ IH
    |o n p lo ln i -> -> Hone Hsome
    |o n p lo ln i vo vn q a b -> -> Lo Ln _ IH].
  - rewrite changes_of_eq. repeat split.
    + intros [= ->] [= ->]. now left.
    + intros v [= ->] [= ->] Hv. destruct v; try congruence; now left.
    + discriminate.
    + intros v [= ->] Hv [= ->]. destruct v; try congruence; now left.
    + discriminate.
  - rewrite changes_of_eq. cbn -[objectChanges]. unfold objectChanges.
    apply null_rule_cconcat with (c := keyChanges (JObj lo) (JObj ln) p key).
    { apply in_map. simpl. now apply in_allKeys. }
    unfold keyChanges. simpl Object_keys. simpl get.
    destruct (lookup key lo) as [vo|] eqn:Lo, (lookup key ln) as [vn|] eqn:Ln;
      try (destruct Hone; discriminate); try (destruct Hsome; congruence).
    + rewrite (lookup_Some_includes _ _ _ Lo), (lookup_None_includes _ _ Ln).
      repeat split; try discriminate. intros v [= ->] _. now left.
    + rewrite (lookup_None_includes _ _ Lo).
      repeat split; try discriminate. intros v _ [= ->]. now left.
  - rewrite changes_of_eq. cbn -[objectChanges]. unfold objectChanges.
    apply null_rule_cconcat with (c := keyChanges (JObj lo) (JObj ln) p key).
    { apply in_map. simpl. apply in_allKeys. left. congruence. }
    unfold keyChanges. simpl Object_keys. simpl get.
    rewrite (lookup_Some_includes _ _ _ Lo), (lookup_Some_includes _ _ _ Ln).
    rewrite Lo, Ln. exact IH.
  - rewrite changes_of_eq. cbn -[arrayChanges]. unfold arrayChanges.
    apply null_rule_cconcat with (c := indexChanges (JArr lo) (JArr ln) p i).
    { apply in_map, in_seq. unfold length_of. simpl elements.
      destruct Hsome as [H|H]; apply nth_error_Some in H; lia. }
    unfold indexChanges, length_of, at_index. simpl elements.
    destruct (nth_error lo i) as [vo|] eqn:Lo, (nth_error ln i) as [vn|] eqn:Ln;
      try (destruct Hone; discriminate); try (destruct Hsome; congruence).
    + apply nth_error_nth_default in Lo as [Eo Io].
      apply nth_error_None in Ln.
      destruct (Nat.ltb_spec i (List.length lo)); [|lia].
      destruct (Nat.ltb_spec i (List.length ln)); [lia|]. cbn [andb].
      rewrite Eo.
      repeat split; try discriminate. intros v [= ->] _. now left.
    + apply nth_error_nth_default in Ln as [En In'].
      apply nth_error_None in Lo.
      destruct (Nat.ltb_spec i (List.length lo)); [lia|]. cbn [andb].
      rewrite En.
      repeat split; try discriminate. intros v _ [= ->]. now left.
  - rewrite changes_of_eq. cbn -[arrayChanges]. unfold arrayChanges.
    apply nth_error_nth_default in Lo as [Eo Io].
    apply nth_error_nth_default in Ln as [En In'].
    apply null_rule_cconcat with (c := indexChanges (JArr lo) (JArr ln) p i).
    { apply in_map, in_seq. unfold length_of. simpl elements. lia. }
    unfold indexChanges, length_of, at_index. simpl elements.
    destruct (Nat.ltb_spec i (List.length lo)); [|lia].
    destruct (Nat.ltb_spec i (List.length ln)); [|lia]. cbn [andb].
    rewrite Eo, En. exact IH.
Qed.

(** C1, as stated, fails where one side is absent and the other an explicit
    [null]: at path ["a"] of [compare({}, {a:null})] the old side is absent
    and the new side is [null], so both are null or absent, but the record is
    an Added one and there is no Unchanged record. *)
Lemma absent_versus_null_is_added :
  visits example_empty example_a_null "" "a" None (Some JNull)
  /\ compare example_empty example_a_null
     = mkChanges [mkChange "a" JNull "null"] [] [] []
  /\ ~ In (mkChange "a" JNull "null")
         (unchanged (compare example_empty example_a_null)).
Proof.
  split; [|split; [reflexivity|intros []]].
  apply (visits_key_one_side _ _ "" [] [("a", JNull)] "a");
    [reflexivity|reflexivity|now left|right; discriminate].
Qed.

(** C1 (amended): at every location the comparison reaches, where both sides
    are present and [null] there is an Unchanged record with value [null];
    where the old side is absent, or is [null] while the new side is a
    non-null value, there is an Added record with the new value (which is
    [null] when an absent old side faces an explicit [null]); where the new
    side is absent, or is [null] while the old side is a non-null value, there
    is a Removed record with the old value.  At a location both documents
    have, the record is the only one the visit pushes. *)
Theorem null_and_absent_sides :
  (forall X Y q a b,
      visits X Y "" q a b -> null_rule q a b (compare X Y))
  /\ (forall fuel path changes,
        deepCompare (S fuel) JNull JNull path changes
        = Some (push_unchanged (mkChange path JNull "null") changes))
  /\ (forall fuel n path changes,
        n <> JNull ->
        deepCompare (S fuel) JNull n path changes
        = Some (push_added (mkChange path n (getType n)) changes))
  /\ (forall fuel o path changes,
        o <> JNull ->
        deepCompare (S fuel) o JNull path changes
        = Some (push_removed (mkChange path o (getType o)) changes)).
Proof.
  split; [|split; [|split]].
  - intros X Y q a b V. rewrite compare_changes_of.
    now apply visits_null_rule.
  - reflexivity.
  - intros fuel n path changes Hn. destruct n; congruence || reflexivity.
  - intros fuel o path changes Ho. destruct o; congruence || reflexivity.
Qed.

Lemma null_and_absent_sides_witness :
  null_rule "a" None (Some JNull) (compare example_empty example_a_null)
  /\ deepCompare 1 JNull (JNum 1) "a" no_changes
     = Some (push_added (mkChange "a" (JNum 1) "primitive") no_changes)
  /\ deepCompare 1 (JNum 1) JNull "a" no_changes
     = Some (push_removed (mkChange "a" (JNum 1) "primitive") no_changes).
Proof.
  destruct null_and_absent_sides as (V & _ & A & R).
  split; [|split].
  - apply V. apply (visits_key_one_side _ _ "" [] [("a", JNull)] "a");
      [reflexivity|reflexivity|now left|right; discriminate].
  - apply (A 0). discriminate.
  - apply (R 0). discriminate.
Defined.

(** ** Paths of different locations differ *)

Lemma append_inj_l (p a b : string) : (p ++ a)%string = (p ++ b)%string -> a = b.
Proof. induction p as [|c p IH]; simpl; [auto|]. intros [= H]. auto. Qed.

(** A string without [bad] characters is determined by any string it is the
    start of up to the first [bad] character. *)
Lemma prefix_determined (bad : ascii -> bool) :
  forall s1 s2 t1 t2,
    avoids bad s1 = true -> avoids bad s2 = true ->
    starts_with bad t1 -> starts_with bad t2 ->
    (s1 ++ t1)%string = (s2 ++ t2)%string -> s1 = s2.
Proof.
  induction s1 as [|c1 s1 IH]; intros [|c2 s2] t1 t2 A1 A2 T1 T2 E; simpl in *.
  - reflexivity.
  - subst t1. simpl in T1. rewrite T1 in A2. discriminate.
  - subst t2. simpl in T2. rewrite T2 in A1. discriminate.
  - injection E as -> E.
    apply andb_true_iff in A1 as [_ A1]. apply andb_true_iff in A2 as [_ A2].
    f_equal. exact (IH s2 t1 t2 A1 A2 T1 T2 E).
Qed.

Lemma string_of_uint_digits d :
  avoids (fun c => negb (is_digit c)) (NilEmpty.string_of_uint d) = true.
Proof.
  induction d; [reflexivity|..];
    cbn [NilEmpty.string_of_uint avoids]; rewrite IHd; reflexivity.
Qed.

Lemma index_to_string_no_close i : avoids is_close (index_to_string i) = true.
Proof.
  unfold index_to_string.
  apply (avoids_weaken (fun c => negb (is_digit c))).
  - intros c H. unfold is_close in H. apply Ascii.eqb_eq in H. now subst.
  - apply string_of_uint_digits.
Qed.

Lemma index_to_string_inj i j : index_to_string i = index_to_string j -> i = j.
Proof.
  unfold index_to_string. intros E.
  apply DecimalNat.Unsigned.to_uint_inj.
  assert (H : Some (Nat.to_uint i) = Some (Nat.to_uint j))
    by (rewrite <- !NilEmpty.usu; now rewrite E).
  now injection H.
Qed.

Lemma below_refl p : below p p.
Proof. exists "". split; [now rewrite append_nil_r|exact I]. Qed.

Lemma below_keyPath p key q :
  p <> "" -> below (keyPath p key) q -> below p q.
Proof.
  intros Hp [t [-> _]]. unfold keyPath. apply String.eqb_neq in Hp. rewrite Hp.
  exists ("." ++ key ++ t)%string. split; [|reflexivity].
  now rewrite !append_assoc.
Qed.

Lemma below_indexPath p i q : below (indexPath p i) q -> below p q.
Proof.
  intros [t [-> _]]. unfold indexPath.
  exists ("[" ++ index_to_string i ++ "]" ++ t)%string. split; [|reflexivity].
  now rewrite !append_assoc.
Qed.

Lemma keyPath_nonempty p key : key <> "" -> keyPath p key <> "".
Proof.
  intros Hk. unfold keyPath. destruct (String.eqb_spec p ""); [assumption|].
  intros E. apply append_eq_nil in E as [E _]. contradiction.
Qed.

Lemma indexPath_nonempty p i : indexPath p i <> "".
Proof.
  unfold indexPath. intros E. apply append_eq_nil in E as [_ E]. discriminate.
Qed.

(** Two keys whose paths have a common descendant are the same key. *)
Lemma keyPath_separates p k1 k2 q :
  avoids is_separator k1 = true -> avoids is_separator k2 = true ->
  below (keyPath p k1) q -> below (keyPath p k2) q -> k1 = k2.
Proof.
  intros A1 A2 [t1 [-> T1]] [t2 [E T2]]. unfold keyPath in E.
  destruct (p =? "").
  - exact (prefix_determined is_separator k1 k2 t1 t2 A1 A2 T1 T2 E).
  - rewrite !append_assoc in E. apply append_inj_l in E. simpl in E.
    injection E as E.
    exact (prefix_determined is_separator k1 k2 t1 t2 A1 A2 T1 T2 E).
Qed.

(** Two indices whose paths have a common descendant are the same index. *)
Lemma indexPath_separates p i j q :
  below (indexPath p i) q -> below (indexPath p j) q -> i = j.
Proof.
  intros [t1 [-> _]] [t2 [E _]]. unfold indexPath in E.
  rewrite !append_assoc in E. apply append_inj_l in E. simpl in E.
  injection E as E. rewrite ?append_assoc in E.
  apply index_to_string_inj.
  eapply (prefix_determined is_close);
    [apply index_to_string_no_close|apply index_to_string_no_close| | |exact E];
    reflexivity.
Qed.

(** ** Every path is reported once (C10) *)

Lemma occurrences_capp q a b :
  occurrences q (capp a b) = occurrences q a + occurrences q b.
Proof.
  unfold occurrences, all_paths, capp. simpl.
  rewrite !map_app, !count_occ_app. lia.
Qed.

Lemma occurrences_cconcat q l :
  occurrences q (cconcat l) = list_sum (map (occurrences q) l).
Proof.
  induction l as [|c l IH]; simpl; [reflexivity|].
  now rewrite occurrences_capp, IH.
Qed.

Lemma occurrences_In q changes :
  0 < occurrences q changes <-> In q (all_paths changes).
Proof. unfold occurrences. now rewrite (count_occ_In string_dec). Qed.

Lemma list_sum_positive {A} (g : A -> nat) l :
  0 < list_sum (map g l) -> exists x, In x l /\ 0 < g x.
Proof.
  induction l as [|x l IH]; simpl; [lia|].
  intros H. destruct (Nat.eq_dec (g x) 0) as [E|E].
  - destruct IH as [y [Hy Gy]]; [lia|]. exists y. auto.
  - exists x. split; [now left|lia].
Qed.

Lemma list_sum_at_most_one {A} (g : A -> nat) l :
  NoDup l ->
  (forall x, In x l -> g x <= 1) ->
  (forall x y, In x l -> In y l -> 0 < g x -> 0 < g y -> x = y) ->
  list_sum (map g l) <= 1.
Proof.
  induction 1 as [|x l Hx Hl IH]; intros B S; simpl; [lia|].
  assert (Bx := B x (or_introl eq_refl)).
  assert (IH' : list_sum (map g l) <= 1).
  { apply IH; [intros y Hy; apply B; now right|].
    intros y z Hy Hz. apply S; now right. }
  destruct (Nat.eq_dec (g x) 0) as [E|E]; [lia|].
  destruct (Nat.eq_dec (list_sum (map g l)) 0) as [Z|Z]; [lia|].
  destruct (list_sum_positive g l) as [y [Hy Gy]]; [lia|].
  exfalso. apply Hx. rewrite (S x y); auto; [now left|now right|lia].
Qed.

Lemma in_all_paths_cconcat {A} q (f : A -> Changes) l :
  In q (all_paths (cconcat (map f l))) ->
  exists x, In x l /\ In q (all_paths (f x)).
Proof.
  intros H. apply occurrences_In in H. rewrite occurrences_cconcat, map_map in H.
  apply list_sum_positive in H as [x [Hx Gx]].
  exists x. split; [assumption|]. now apply occurrences_In.
Qed.

Lemma NoDup_fold_Set_add keys :
  forall s, NoDup s -> NoDup (fold_left Set_add keys s).
Proof.
  induction keys as [|k keys IH]; intros s H; simpl; [assumption|].
  apply IH. unfold Set_add. destruct (includes s k) eqn:E; [assumption|].
  apply includes_false in E.
  apply NoDup_app; [assumption|repeat constructor; auto|].
  intros x Hx [<-|[]]. contradiction.
Qed.

Lemma NoDup_Set_of keys : NoDup (Set_of keys).
Proof. apply NoDup_fold_Set_add. constructor. Qed.

Lemma keys_all_get P props key :
  keys_all P (JObj props) = true ->
  includes (map fst props) key = true ->
  P key = true /\ keys_all P (get (JObj props) key) = true.
Proof.
  simpl. intros H I. apply includes_In in I.
  destruct (lookup key props) as [v|] eqn:L.
  - apply lookup_In in L. rewrite forallb_forall in H.
    specialize (H _ L). simpl in H. now apply andb_true_iff in H.
  - apply lookup_None in L. contradiction.
Qed.

Lemma keys_all_nth P l i :
  keys_all P (JArr l) = true -> i < List.length l ->
  keys_all P (nth i l JUndefined) = true.
Proof.
  simpl. intros H Hi. rewrite forallb_forall in H. apply H. now apply nth_In.
Qed.

Lemma named_key_spec key :
  named_key key = true -> key <> "" /\ avoids is_separator key = true.
Proof.
  unfold named_key. intros H. apply andb_true_iff in H as [H1 H2]. split.
  - apply negb_true_iff in H1. now apply String.eqb_neq.
  - revert H2. apply avoids_weaken. intros c Hc.
    unfold is_delimiter. unfold is_separator in Hc. now rewrite Hc.
Qed.

Lemma keyChanges_below o n p key q :
  (includes (Object_keys o) key = true -> includes (Object_keys n) key = true ->
   In q (all_paths (changes_of (get o key) (get n key) (keyPath p key))) ->
   below (keyPath p key) q) ->
  In q (all_paths (keyChanges o n p key)) -> below (keyPath p key) q.
Proof.
  intros Hrec. unfold keyChanges.
  destruct (includes (Object_keys o) key);
    destruct (includes (Object_keys n) key); cbn [andb]; auto;
    simpl; intros [<-|[]]; apply below_refl.
Qed.

Lemma indexChanges_below o n p i q :
  (i < length_of o -> i < length_of n ->
   In q (all_paths (changes_of (at_index o i) (at_index n i) (indexPath p i))) ->
   below (indexPath p i) q) ->
  In q (all_paths (indexChanges o n p i)) -> below (indexPath p i) q.
Proof.
  intros Hrec. unfold indexChanges.
  destruct (Nat.ltb_spec i (length_of o));
    destruct (Nat.ltb_spec i (length_of n)); cbn [andb]; auto;
    simpl; intros [<-|[]]; apply below_refl.
Qed.

Lemma allKeys_named lo ln key :
  keys_all named_key (JObj lo) = true -> keys_all named_key (JObj ln) = true ->
  In key (Set_of (map fst lo ++ map fst ln)) ->
  named_key key = true.
Proof.
  intros Ko Kn H. apply in_Set_of, in_app_iff in H.
  destruct H as [H|H]; apply includes_In in H.
  - apply (keys_all_get _ _ _ Ko H).
  - apply (keys_all_get _ _ _ Kn H).
Qed.

(** The records pushed by a comparison at a non-empty path [p] are at [p]
    or below it. *)
Lemma changes_of_below d :
  forall o n p, depth o < d ->
    keys_all named_key o = true -> keys_all named_key n = true -> p <> "" ->
    forall q, In q (all_paths (changes_of o n p)) -> below p q.
Proof.
  induction d as [|d IH]; intros o n p Hd Ko Kn Hp q; [lia|].
  destruct (changes_of_case o n p) as
    [-> ->| -> Hn|Ho ->|Ho Hn Hk|lo ln -> ->|lo ln -> ->|Ho Hn E|Ho Hn E| -> ->];
    try (simpl; intros [<-|[]]; apply below_refl).
  - unfold objectChanges. intros H.
    apply in_all_paths_cconcat in H as [key [Hkey Hq]].
    apply (below_keyPath _ key _ Hp).
    apply (keyChanges_below _ _ _ _ _) in Hq; [assumption|].
    intros Io In' Hq'.
    assert (D := depth_get _ _ Io).
    apply (IH (get (JObj lo) key) (get (JObj ln) key)); try assumption.
    + lia.
    + apply (keys_all_get _ _ _ Ko Io).
    + apply (keys_all_get _ _ _ Kn In').
    + apply keyPath_nonempty.
      apply (named_key_spec key). apply (keys_all_get _ _ _ Ko Io).
  - unfold arrayChanges. intros H.
    apply in_all_paths_cconcat in H as [i [Hi Hq]].
    apply (below_indexPath _ i).
    apply (indexChanges_below _ _ _ _ _) in Hq; [assumption|].
    intros Io In' Hq'.
    assert (D := depth_at_index _ _ Io).
    apply (IH (at_index (JArr lo) i) (at_index (JArr ln) i)); try assumption.
    + lia.
    + apply (keys_all_nth _ _ _ Ko Io).
    + apply (keys_all_nth _ _ _ Kn In').
    + apply indexPath_nonempty.
  - simpl. tauto.
Qed.

Lemma occurrences_single q path :
  count_occ string_dec [path] q <= 1.
Proof. simpl. destruct (string_dec path q); lia. Qed.

(** No path occurs in two records of a comparison. *)
Lemma changes_of_occurrences d :
  forall o n p, depth o < d ->
    keys_all named_key o = true -> keys_all named_key n = true ->
    forall q, occurrences q (changes_of o n p) <= 1.
Proof.
  induction d as [|d IH]; intros o n p Hd Ko Kn q; [lia|].
  destruct (changes_of_case o n p) as
    [-> ->| -> Hn|Ho ->|Ho Hn Hk|lo ln -> ->|lo ln -> ->|Ho Hn E|Ho Hn E| -> ->];
    try apply occurrences_single.
  - unfold objectChanges. rewrite occurrences_cconcat, map_map.
    assert (B : forall key q',
               In q' (all_paths (keyChanges (JObj lo) (JObj ln) p key)) ->
               below (keyPath p key) q').
    { intros key q'. apply keyChanges_below. intros Io In'.
      assert (D := depth_get _ _ Io).
      apply (changes_of_below (depth (JObj lo))); try assumption.
      - apply (keys_all_get _ _ _ Ko Io).
      - apply (keys_all_get _ _ _ Kn In').
      - apply keyPath_nonempty.
        apply (named_key_spec key). apply (keys_all_get _ _ _ Ko Io). }
    apply list_sum_at_most_one.
    + apply NoDup_Set_of.
    + intros key Hkey. unfold keyChanges.
      destruct (includes (Object_keys (JObj lo)) key) eqn:Io;
        destruct (includes (Object_keys (JObj ln)) key) eqn:In';
        cbn [andb]; try apply occurrences_single.
      assert (D := depth_get _ _ Io).
      apply IH; [lia| |].
      * apply (keys_all_get _ _ _ Ko Io).
      * apply (keys_all_get _ _ _ Kn In').
    + intros k1 k2 H1 H2 O1 O2.
      apply occurrences_In, B in O1. apply occurrences_In, B in O2.
      apply (keyPath_separates p k1 k2 q); try assumption.
      * apply named_key_spec. apply (allKeys_named lo ln); assumption.
      * apply named_key_spec. apply (allKeys_named lo ln); assumption.
  - unfold arrayChanges. rewrite occurrences_cconcat, map_map.
    assert (B : forall i q',
               In q' (all_paths (indexChanges (JArr lo) (JArr ln) p i)) ->
               below (indexPath p i) q').
    { intros i q'. apply indexChanges_below. intros Io In'.
      assert (D := depth_at_index _ _ Io).
      apply (changes_of_below (depth (JArr lo))); try assumption.
      - apply (keys_all_nth _ _ _ Ko Io).
      - apply (keys_all_nth _ _ _ Kn In').
      - apply indexPath_nonempty. }
    apply list_sum_at_most_one.
    + apply seq_NoDup.
    + intros i Hi. unfold indexChanges.
      destruct (Nat.ltb_spec i (length_of (JArr lo))) as [Io|Io];
        destruct (Nat.ltb_spec i (length_of (JArr ln))) as [In'|In'];
        cbn [andb]; try apply occurrences_single.
      assert (D := depth_at_index _ _ Io).
      apply IH; [lia| |].
      * apply (keys_all_nth _ _ _ Ko Io).
      * apply (keys_all_nth _ _ _ Kn In').
    + intros i j H1 H2 O1 O2.
      apply occurrences_In, B in O1. apply occurrences_In, B in O2.
      apply (indexPath_separates p i j q); assumption.
  - unfold occurrences. simpl. lia.
Qed.

(** C10, as stated, fails for an empty key: it contains none of ['.'], ['['],
    [']'], but below the root it leaves the path empty, so the leaf under
    [""] then ["a"] and the leaf under ["a"] are both reported at ["a"]. *)
Lemma empty_key_repeats_path :
  keys_all plain_key example_empty_key = true
  /\ json_shaped example_empty_key = true
  /\ unchanged (compare example_empty_key example_empty_key)
     = [mkChange "a" (JNum 1) "primitive"; mkChange "a" (JNum 2) "primitive"]
  /\ ~ NoDup (all_paths (compare example_empty_key example_empty_key)).
Proof.
  repeat split.
  intros H. vm_compute in H. inversion H as [|x l N _]. apply N. now left.
Qed.

(** C10 (amended): when every object key of the two inputs is non-empty and
    contains no ['.'], ['['] or [']'], no two records of the result of
    [compare] have the same path, whether in the same sequence or in two
    different ones of the four. *)
Theorem compare_paths_distinct :
  forall X Y : jsval,
    keys_all named_key X = true -> keys_all named_key Y = true ->
    NoDup (all_paths (compare X Y)).
Proof.
  intros X Y KX KY. rewrite compare_changes_of.
  apply (NoDup_count_occ string_dec). intros q.
  apply (changes_of_occurrences (S (depth X))); auto.
Qed.

Lemma compare_paths_distinct_witness :
  NoDup (all_paths (compare example_a123 example_a12)).
Proof.
  apply compare_paths_distinct; reflexivity.
Defined.

(** ** A value compared with itself (C7) *)

Lemma join_app (a s : list segment) :
  forall first,
    join first (a ++ s)
    = (join first a ++ join (match a with [] => first | _ => false end) s)%string.
Proof.
  induction a as [|x a IH]; intros first; [reflexivity|].
  assert (E : join false (a ++ s) = (join false a ++ join false s)%string)
    by (rewrite IH; now destruct a).
  rewrite <- app_comm_cons.
  destruct x as [key|i]; cbn [join]; rewrite E.
  - now rewrite append_assoc.
  - cbn [append]. f_equal. now rewrite !append_assoc.
Qed.

Lemma format_snoc segs s :
  format (segs ++ [s]) = childPath (format segs) s.
Proof. unfold format. now rewrite fold_left_app. Qed.

Lemma rendered_root : rendered [].
Proof. split; [reflexivity|congruence]. Qed.

Lemma rendered_key segs key :
  key <> "" -> rendered segs -> rendered (segs ++ [Key key]).
Proof.
  intros Hk [E N]. split.
  - rewrite format_snoc. unfold path_of. rewrite join_app.
    destruct segs as [|x segs].
    + cbn. now rewrite append_nil_r.
    + assert (F : format (x :: segs) <> "") by (apply N; discriminate).
      cbn [childPath]. unfold keyPath. apply String.eqb_neq in F. rewrite F.
      rewrite E. unfold path_of. cbn [join]. now rewrite append_nil_r.
  - intros _. rewrite format_snoc. now apply keyPath_nonempty.
Qed.

Lemma rendered_index segs i :
  rendered segs -> rendered (segs ++ [Index i]).
Proof.
  intros [E N]. split.
  - rewrite format_snoc. unfold path_of. rewrite join_app.
    cbn [childPath]. unfold indexPath. rewrite E. unfold path_of.
    assert (J : forall b, join b [Index i]
                          = ("[" ++ index_to_string i ++ "]")%string).
    { intros b. cbn [join]. unfold decimal, index_to_string.
      now rewrite append_nil_r. }
    destruct segs; now rewrite J.
  - intros _. rewrite format_snoc. apply indexPath_nonempty.
Qed.

Lemma leaf_records_elems p here l :
  (forall x i, In x l ->
     leaves (indexPath p i) x = leaf_records_at (here ++ [Index i]) x) ->
  forall a,
    (fix elems (i : nat) (l : list jsval) : list Change :=
       match l with
       | [] => []
       | x :: rest => leaves (indexPath p i) x ++ elems (S i) rest
       end) a l
    = (fix elems (i : nat) (l : list jsval) : list Change :=
         match l with
         | [] => []
         | x :: rest => leaf_records_at (here ++ [Index i]) x ++ elems (S i) rest
         end) a l.
Proof.
  induction l as [|x l IHl]; intros H a; [reflexivity|].
  rewrite (H x a (or_introl eq_refl)).
  rewrite IHl by (intros y i Hy; apply H; now right). reflexivity.
Qed.

Lemma leaf_records_props p here l :
  (forall key x, In (key, x) l ->
     leaves (keyPath p key) x = leaf_records_at (here ++ [Key key]) x) ->
  (fix props (l : list (string * jsval)) : list Change :=
     match l with
     | [] => []
     | (key, x) :: rest => leaves (keyPath p key) x ++ props rest
     end) l
  = (fix props (l : list (string * jsval)) : list Change :=
       match l with
       | [] => []
       | (key, x) :: rest =>
           leaf_records_at (here ++ [Key key]) x ++ props rest
       end) l.
Proof.
  induction l as [|[key x] l IHl]; intros H; [reflexivity|].
  rewrite (H key x (or_introl eq_refl)).
  rewrite IHl by (intros k y Hy; apply H; now right). reflexivity.
Qed.

(** Where the keys are non-empty, the records the comparison builds for the
    leaves are those of the grammar. *)
Lemma leaves_leaf_records d :
  forall v here,
    depth v < d -> keys_all named_key v = true -> rendered here ->
    leaves (format here) v = leaf_records_at here v.
Proof.
  induction d as [|d IH]; intros v here Hd Kv R; [lia|].
  destruct v as [| |b|x|s|l|l]; try reflexivity;
    try (cbn [leaves leaf_records_at]; now rewrite (proj1 R)).
  - cbn [leaves leaf_records_at]. apply leaf_records_elems.
    intros x i Hx. change (indexPath (format here) i)
      with (childPath (format here) (Index i)).
    rewrite <- format_snoc. apply IH.
    + assert (D := depth_elem x l Hx). lia.
    + simpl in Kv. rewrite forallb_forall in Kv. now apply Kv.
    + now apply rendered_index.
  - cbn [leaves leaf_records_at]. apply leaf_records_props.
    intros key x Hx. change (keyPath (format here) key)
      with (childPath (format here) (Key key)).
    simpl in Kv. rewrite forallb_forall in Kv. specialize (Kv _ Hx).
    simpl in Kv. apply andb_true_iff in Kv as [K1 K2].
    rewrite <- format_snoc. apply IH.
    + assert (D := depth_prop key x l Hx). lia.
    + exact K2.
    + apply rendered_key; [|exact R]. now apply named_key_spec in K1.
Qed.

(** C7, as stated, fails for a JSON-shaped value with an empty key: the two
    leaves of [{"": {a: 1}, a: 2}] have the paths [".a"] and ["a"], and the
    comparison reports both at ["a"], the path of the second alone. *)
Lemma reflexive_empty_key_two_records :
  json_shaped example_empty_key = true
  /\ map c_path (leaf_records example_empty_key) = [".a"; "a"]
  /\ map c_path (unchanged (compare example_empty_key example_empty_key))
     = ["a"; "a"]
  /\ unchanged (compare example_empty_key example_empty_key)
     <> leaf_records example_empty_key.
Proof.
  repeat split. discriminate.
Qed.

(** C7 (amended): comparing a JSON-shaped value with itself reports nothing
    added, removed or modified; and when every object key of the value is
    non-empty and contains no ['.'], ['['] or [']'], the Unchanged records are
    exactly one record per leaf of the value, with the leaf's path (keys
    joined by dots, indices as markers), value and kind, in depth-first
    order, and no path occurs twice. *)
Theorem compare_reflexive :
  forall X : jsval,
    json_shaped X = true ->
    added (compare X X) = []
    /\ removed (compare X X) = []
    /\ modified (compare X X) = []
    /\ (keys_all named_key X = true ->
        unchanged (compare X X) = leaf_records X
        /\ NoDup (map c_path (leaf_records X))).
Proof.
  intros X HX.
  assert (E : compare X X = mkChanges [] [] [] (leaves "" X)).
  { rewrite compare_changes_of. now apply (changes_of_same (depth X)). }
  rewrite E. cbn [added removed modified unchanged].
  do 3 (split; [reflexivity|]). intros KX. split.
  - apply (leaves_leaf_records (S (depth X)) X []); auto using rendered_root.
  - unfold leaf_records.
    rewrite <- (leaves_leaf_records (S (depth X)) X []);
      auto using rendered_root.
    change (format []) with "".
    assert (N : NoDup (all_paths (compare X X))).
    { rewrite compare_changes_of.
      apply (NoDup_count_occ string_dec). intros q.
      apply (changes_of_occurrences (S (depth X))); auto. }
    rewrite E in N. exact N.
Qed.

Lemma compare_reflexive_witness :
  compare example_a1 example_a1
  = mkChanges [] [] [] [mkChange "a" (JNum 1) "primitive"]
  /\ unchanged (compare example_dmp example_dmp)
     = [mkChange "dmp.title" (JStr "plan") "primitive";
        mkChange "dmp.dataset[0].id" (JNum 7) "primitive";
        mkChange "dmp.dataset[1]" JNull "null";
        mkChange "ok" (JBool true) "primitive"].
Proof.
  destruct (compare_reflexive example_a1 eq_refl) as (A & R & M & U).
  destruct (U eq_refl) as [U1 _].
  destruct (compare_reflexive example_dmp eq_refl) as (_ & _ & _ & V).
  destruct (V eq_refl) as [V1 _].
  split; [|exact V1].
  destruct (compare example_a1 example_a1) as [a r m u].
  cbn [added removed modified unchanged] in A, R, M, U1.
  now rewrite A, R, M, U1.
Defined.

(** * Further properties of the engine *)

(** ** What every record satisfies *)

Lemma all_records_nil PA PR PM PU : all_records PA PR PM PU no_changes.
Proof. repeat split; constructor. Qed.

Lemma all_records_cconcat PA PR PM PU l :
  (forall c, In c l -> all_records PA PR PM PU c) ->
  all_records PA PR PM PU (cconcat l).
Proof.
  intros H. unfold all_records. rewrite !Forall_forall. repeat split.
  - intros x Hx. apply in_added_cconcat in Hx as [c [Hc Hx]].
    destruct (H c Hc) as (A & _). rewrite Forall_forall in A. auto.
  - intros x Hx. apply in_removed_cconcat in Hx as [c [Hc Hx]].
    destruct (H c Hc) as (_ & A & _). rewrite Forall_forall in A. auto.
  - intros x Hx. apply in_modified_cconcat in Hx as [c [Hc Hx]].
    destruct (H c Hc) as (_ & _ & A & _). rewrite Forall_forall in A. auto.
  - intros x Hx. apply in_unchanged_cconcat in Hx as [c [Hc Hx]].
    destruct (H c Hc) as (_ & _ & _ & A). rewrite Forall_forall in A. auto.
Qed.

Lemma all_records_weaken (PA PR : Change -> Prop) (PM : Modified -> Prop)
    (PU : Change -> Prop) (QA QR : Change -> Prop) (QM : Modified -> Prop)
    (QU : Change -> Prop) changes :
  (forall c, PA c -> QA c) -> (forall c, PR c -> QR c) ->
  (forall m, PM m -> QM m) -> (forall c, PU c -> QU c) ->
  all_records PA PR PM PU changes -> all_records QA QR QM QU changes.
Proof.
  intros HA HR HM HU (A & R & M & U).
  repeat split; eapply Forall_impl; eauto.
Qed.

Lemma all_records_added (PA PR : Change -> Prop) PM PU c :
  PA c -> all_records PA PR PM PU (push_added c no_changes).
Proof. intros H. repeat split; repeat constructor; assumption. Qed.

Lemma all_records_removed (PA PR : Change -> Prop) PM PU c :
  PR c -> all_records PA PR PM PU (push_removed c no_changes).
Proof. intros H. repeat split; repeat constructor; assumption. Qed.

Lemma all_records_modified (PA PR : Change -> Prop) PM PU m :
  PM m -> all_records PA PR PM PU (push_modified m no_changes).
Proof. intros H. repeat split; repeat constructor; assumption. Qed.

Lemma all_records_unchanged (PA PR : Change -> Prop) PM PU c :
  PU c -> all_records PA PR PM PU (push_unchanged c no_changes).
Proof. intros H. repeat split; repeat constructor; assumption. Qed.

Lemma changes_of_typed d :
  forall o n p, depth o < d ->
    all_records change_typed change_typed modified_typed unchanged_leaf
      (changes_of o n p).
Proof.
  induction d as [|d IH]; intros o n p Hd; [lia|].
  destruct (changes_of_case o n p) as
    [-> ->| -> Hn|Ho ->|Ho Hn Hk|lo ln -> ->|lo ln -> ->|Ho Hn E|Ho Hn E| -> ->].
  - apply all_records_unchanged. split; [reflexivity|now left].
  - apply all_records_added. reflexivity.
  - apply all_records_removed. reflexivity.
  - apply all_records_modified. left. repeat split; assumption.
  - apply all_records_cconcat. intros c Hc.
    apply in_map_iff in Hc as [key [<- Hkey]]. unfold keyChanges.
    destruct (includes (Object_keys (JObj lo)) key) eqn:Io;
      destruct (includes (Object_keys (JObj ln)) key) eqn:In'; cbn [andb].
    + apply IH. apply depth_get in Io. lia.
    + apply all_records_removed. reflexivity.
    + apply all_records_added. reflexivity.
    + apply all_records_added. reflexivity.
  - apply all_records_cconcat. intros c Hc.
    apply in_map_iff in Hc as [i [<- Hi]]. unfold indexChanges.
    destruct (Nat.ltb_spec i (length_of (JArr lo))) as [Io|Io];
      destruct (Nat.ltb_spec i (length_of (JArr ln))) as [In'|In']; cbn [andb].
    + apply IH. apply depth_at_index in Io. lia.
    + apply all_records_removed. reflexivity.
    + apply all_records_added. reflexivity.
    + apply all_records_added. reflexivity.
  - apply all_records_modified. right. repeat split; assumption.
  - apply all_records_unchanged. split; [now symmetry|now right].
  - apply all_records_nil.
Qed.

(** X1: in every result of [compare] the [type] of an Added, Removed or
    Unchanged record is the kind of its value, an Unchanged record holds a
    [null] or a primitive (never an object or an array), and a Modified
    record is either a change of kind between two non-null values (with
    [oldType] and [newType], which differ) or a pair of primitives that are
    not strictly equal (with [type] ["primitive"]). *)
Theorem compare_records_typed :
  forall X Y : jsval,
    all_records change_typed change_typed modified_typed unchanged_leaf
      (compare X Y).
Proof.
  intros X Y. rewrite compare_changes_of.
  apply (changes_of_typed (S (depth X))). lia.
Qed.

(** ** Records sit where their paths say *)

Lemma lookup_get props key :
  includes (map fst props) key = true ->
  lookup key props = Some (get (JObj props) key).
Proof.
  intros H. simpl. destruct (lookup key props) eqn:L; [reflexivity|].
  apply lookup_None in L. apply includes_In in H. contradiction.
Qed.

Lemma located_here v p : located v p p v.
Proof. exists []. split; reflexivity. Qed.

Lemma located_key props p key q x :
  includes (map fst props) key = true ->
  located (get (JObj props) key) (keyPath p key) q x ->
  located (JObj props) p q x.
Proof.
  intros I [segs [-> D]]. exists (Key key :: segs). split; [reflexivity|].
  simpl descend. simpl child. now rewrite (lookup_get _ _ I).
Qed.

Lemma located_index elems p i q x :
  i < List.length elems ->
  located (nth i elems JUndefined) (indexPath p i) q x ->
  located (JArr elems) p q x.
Proof.
  intros I [segs [-> D]]. exists (Index i :: segs). split; [reflexivity|].
  simpl descend. simpl child. now rewrite (nth_error_nth' _ JUndefined I).
Qed.

Lemma changes_of_located d :
  forall o n p, depth o < d ->
    all_records
      (fun c => located n p (c_path c) (c_value c))
      (fun c => located o p (c_path c) (c_value c))
      (modified_located o n p)
      (unchanged_located o n p)
      (changes_of o n p).
Proof.
  induction d as [|d IH]; intros o n p Hd; [lia|].
  destruct (changes_of_case o n p) as
    [-> ->| -> Hn|Ho ->|Ho Hn Hk|lo ln -> ->|lo ln -> ->|Ho Hn E|Ho Hn E| -> ->].
  - apply all_records_unchanged. exists [], JNull. repeat split.
  - apply all_records_added. apply located_here.
  - apply all_records_removed. apply located_here.
  - apply all_records_modified. exists []. repeat split.
  - apply all_records_cconcat. intros c Hc.
    apply in_map_iff in Hc as [key [<- Hkey]].
    apply in_Set_of, in_app_iff in Hkey. unfold keyChanges.
    destruct (includes (Object_keys (JObj lo)) key) eqn:Io;
      destruct (includes (Object_keys (JObj ln)) key) eqn:In'; cbn [andb].
    + assert (D := depth_get _ _ Io).
      assert (H : depth (get (JObj lo) key) < d) by lia.
      eapply all_records_weaken;
        [| | | |apply (IH _ (get (JObj ln) key) (keyPath p key) H)].
      * intros c Hc. apply (located_key _ _ key); assumption.
      * intros c Hc. apply (located_key _ _ key); assumption.
      * intros m [segs (E1 & E2 & E3)]. exists (Key key :: segs).
        simpl descend. simpl child.
        rewrite (lookup_get _ _ Io), (lookup_get _ _ In'). auto.
      * intros c [segs [x (E1 & E2 & E3 & E4)]]. exists (Key key :: segs), x.
        simpl descend. simpl child.
        rewrite (lookup_get _ _ Io), (lookup_get _ _ In'). auto.
    + apply all_records_removed. apply (located_key _ _ key); [exact Io|].
      apply located_here.
    + apply all_records_added. apply (located_key _ _ key); [exact In'|].
      apply located_here.
    + apply includes_false in Io, In'. simpl in Io, In'. tauto.
  - apply all_records_cconcat. intros c Hc.
    apply in_map_iff in Hc as [i [<- Hi]]. apply in_seq in Hi.
    unfold indexChanges, length_of, at_index in *. simpl elements in *.
    destruct (Nat.ltb_spec i (List.length lo)) as [Io|Io];
      destruct (Nat.ltb_spec i (List.length ln)) as [In'|In']; cbn [andb].
    + assert (D := depth_elem _ _ (nth_In lo JUndefined Io)).
      assert (H : depth (nth i lo JUndefined) < d) by lia.
      eapply all_records_weaken;
        [| | | |apply (IH _ (nth i ln JUndefined) (indexPath p i) H)].
      * intros c Hc. apply (located_index _ _ i); assumption.
      * intros c Hc. apply (located_index _ _ i); assumption.
      * intros m [segs (E1 & E2 & E3)]. exists (Index i :: segs).
        simpl descend. simpl child.
        rewrite (nth_error_nth' _ JUndefined Io),
          (nth_error_nth' _ JUndefined In'). auto.
      * intros c [segs [x (E1 & E2 & E3 & E4)]]. exists (Index i :: segs), x.
        simpl descend. simpl child.
        rewrite (nth_error_nth' _ JUndefined Io),
          (nth_error_nth' _ JUndefined In'). auto.
    + apply all_records_removed. apply (located_index _ _ i); [exact Io|].
      apply located_here.
    + apply all_records_added. apply (located_index _ _ i); [exact In'|].
      apply located_here.
    + lia.
  - apply all_records_modified. exists []. repeat split.
  - apply all_records_unchanged. exists [], n. repeat split. exact E.
  - apply all_records_nil.
Qed.

(** X2: the path of every record of [compare X Y] is the path of a sequence
    of keys and indices, and following that sequence from the root finds the
    recorded value: in the new document for an Added record, in the old one
    for a Removed record, the old and the new value in the two documents for
    a Modified record, and for an Unchanged record its value in the old
    document and a strictly equal one in the new document. *)
Theorem compare_records_located :
  forall X Y : jsval,
    all_records
      (fun c => exists segs,
           c_path c = format segs /\ descend Y segs = Some (c_value c))
      (fun c => exists segs,
           c_path c = format segs /\ descend X segs = Some (c_value c))
      (fun m => exists segs,
           m_path m = format segs
           /\ descend X segs = Some (m_oldValue m)
           /\ descend Y segs = Some (m_newValue m))
      (fun c => exists segs x,
           c_path c = format segs
           /\ descend X segs = Some (c_value c)
           /\ descend Y segs = Some x
           /\ strict_eq (c_value c) x = true)
      (compare X Y).
Proof.
  intros X Y. rewrite compare_changes_of.
  exact (changes_of_located (S (depth X)) X Y "" (Nat.lt_succ_diag_r _)).
Qed.

(** ** No record below another record *)

Lemma starts_with_append bad t1 t2 :
  starts_with bad t1 -> starts_with bad t2 -> starts_with bad (t1 ++ t2)%string.
Proof. destruct t1; simpl; auto. Qed.

Lemma below_trans p q r : below p q -> below q r -> below p r.
Proof.
  intros [t1 [-> T1]] [t2 [-> T2]]. exists (t1 ++ t2)%string. split.
  - apply append_assoc.
  - now apply starts_with_append.
Qed.

Lemma in_single_path (q q' path : string) :
  In q [path] -> In q' [path] -> q = q'.
Proof. intros [<-|[]] [<-|[]]. reflexivity. Qed.

Lemma changes_of_not_nested d :
  forall o n p, depth o < d ->
    keys_all named_key o = true -> keys_all named_key n = true ->
    forall q q',
      In q (all_paths (changes_of o n p)) ->
      In q' (all_paths (changes_of o n p)) ->
      below q q' -> q = q'.
Proof.
  induction d as [|d IH]; intros o n p Hd Ko Kn q q'; [lia|].
  destruct (changes_of_case o n p) as
    [-> ->| -> Hn|Ho ->|Ho Hn Hk|lo ln -> ->|lo ln -> ->|Ho Hn E|Ho Hn E| -> ->];
    try (intros H H' _; exact (in_single_path _ _ _ H H')).
  - unfold objectChanges. intros H H' B.
    apply in_all_paths_cconcat in H as [k [Hk Hq]].
    apply in_all_paths_cconcat in H' as [k' [Hk' Hq']].
    assert (L : forall key r,
               In key (Set_of (Object_keys (JObj lo) ++ Object_keys (JObj ln))) ->
               In r (all_paths (keyChanges (JObj lo) (JObj ln) p key)) ->
               below (keyPath p key) r).
    { intros key r Hkey. apply keyChanges_below. intros Io In'.
      apply (changes_of_below (S (depth (get (JObj lo) key)))); auto.
      - apply (keys_all_get _ _ _ Ko Io).
      - apply (keys_all_get _ _ _ Kn In').
      - apply keyPath_nonempty.
        apply (named_key_spec key). apply (keys_all_get _ _ _ Ko Io). }
    assert (E : k = k').
    { apply (keyPath_separates p k k' q').
      - apply named_key_spec. apply (allKeys_named lo ln); assumption.
      - apply named_key_spec. apply (allKeys_named lo ln); assumption.
      - apply (below_trans _ q); [now apply L|assumption].
      - now apply L. }
    subst k'. unfold keyChanges in Hq, Hq'.
    destruct (includes (Object_keys (JObj lo)) k) eqn:Io;
      destruct (includes (Object_keys (JObj ln)) k) eqn:In'; cbn [andb] in *;
      try exact (in_single_path _ _ _ Hq Hq').
    assert (D := depth_get _ _ Io).
    apply (IH (get (JObj lo) k) (get (JObj ln) k) (keyPath p k)); auto.
    + lia.
    + apply (keys_all_get _ _ _ Ko Io).
    + apply (keys_all_get _ _ _ Kn In').
  - unfold arrayChanges. intros H H' B.
    apply in_all_paths_cconcat in H as [i [Hi Hq]].
    apply in_all_paths_cconcat in H' as [j [Hj Hq']].
    assert (L : forall k r,
               In r (all_paths (indexChanges (JArr lo) (JArr ln) p k)) ->
               below (indexPath p k) r).
    { intros k r. apply indexChanges_below. intros Io In'.
      apply (changes_of_below (S (depth (at_index (JArr lo) k)))); auto.
      - apply (keys_all_nth _ _ _ Ko Io).
      - apply (keys_all_nth _ _ _ Kn In').
      - apply indexPath_nonempty. }
    assert (E : i = j).
    { apply (indexPath_separates p i j q').
      - apply (below_trans _ q); [now apply L|assumption].
      - now apply L. }
    subst j. unfold indexChanges in Hq, Hq'.
    destruct (Nat.ltb_spec i (length_of (JArr lo))) as [Io|Io];
      destruct (Nat.ltb_spec i (length_of (JArr ln))) as [In'|In'];
      cbn [andb] in *; try exact (in_single_path _ _ _ Hq Hq').
    assert (D := depth_at_index _ _ Io).
    apply (IH (at_index (JArr lo) i) (at_index (JArr ln) i) (indexPath p i));
      auto.
    + lia.
    + apply (keys_all_nth _ _ _ Ko Io).
    + apply (keys_all_nth _ _ _ Kn In').
  - simpl. tauto.
Qed.

Lemma append_self_empty (q t : string) : q = (q ++ t)%string -> t = "".
Proof.
  induction q as [|c q IH]; simpl; intros H; [now symmetry|].
  injection H as H. now apply IH.
Qed.

(** X3: when every object key of the two inputs is non-empty and contains no
    ['.'], ['['] or [']'], no record of [compare X Y] lies below another one:
    where a record has the path [q], no record has a path that continues [q]
    by a ['.'] or ['['] segment.  A subtree reported as Added, Removed or
    Modified, and a leaf reported as Unchanged, has no record of its own
    inside. *)
Theorem compare_records_not_nested :
  forall X Y : jsval,
    keys_all named_key X = true -> keys_all named_key Y = true ->
    forall q t,
      In q (all_paths (compare X Y)) ->
      t <> "" -> starts_with is_separator t ->
      ~ In (q ++ t)%string (all_paths (compare X Y)).
Proof.
  intros X Y KX KY q t Hq Ht Hs Hqt. apply Ht.
  apply (append_self_empty q). revert Hq Hqt.
  rewrite compare_changes_of. intros Hq Hqt.
  apply (changes_of_not_nested (S (depth X)) X Y "" (Nat.lt_succ_diag_r _)
           KX KY q (q ++ t)%string Hq Hqt).
  exists t. split; [reflexivity|assumption].
Qed.

Lemma compare_records_not_nested_witness :
  ~ In "a.x" (all_paths (compare example_object_a example_array_a)).
Proof.
  apply (compare_records_not_nested example_object_a example_array_a
           eq_refl eq_refl "a" ".x").
  - left. reflexivity.
  - discriminate.
  - reflexivity.
Defined.

(** ** An empty object against a populated one *)

Lemma map_get_distinct (f : string -> jsval -> Change) props :
  distinct (map fst props) = true ->
  map (fun key => f key (get (JObj props) key)) (map fst props)
  = map (fun kv => f (fst kv) (snd kv)) props.
Proof.
  intros H. rewrite map_map. apply map_ext_in. intros [k v] Hin. simpl.
  now rewrite (lookup_distinct props H k v Hin).
Qed.

(** X4: comparing the empty object with an object (whose keys are distinct)
    reports every property of that object as Added, in the order of its keys,
    with the key as path and the whole property value as value, and reports
    nothing else; with the two documents exchanged the same records are
    Removed.  Nothing below a property is looked at. *)
Theorem compare_with_empty_object :
  forall props : list (string * jsval),
    distinct (map fst props) = true ->
    let records :=
      map (fun kv => mkChange (fst kv) (snd kv) (getType (snd kv))) props in
    compare (JObj []) (JObj props) = mkChanges records [] [] []
    /\ compare (JObj props) (JObj []) = mkChanges [] records [] [].
Proof.
  intros props H records. rewrite !compare_changes_of, !changes_of_eq.
  cbn -[objectChanges]. unfold objectChanges. simpl Object_keys.
  assert (N := proj1 (distinct_NoDup _) H).
  split.
  - rewrite app_nil_l. unfold Set_of.
    rewrite (fold_Set_add_fresh (map fst props) []) by exact N.
    rewrite app_nil_l.
    rewrite (map_ext _ (fun key =>
               push_added (mkChange key (get (JObj props) key)
                             (getType (get (JObj props) key))) no_changes))
      by reflexivity.
    rewrite (cconcat_pushes_added
               (fun key => mkChange key (get (JObj props) key)
                             (getType (get (JObj props) key)))).
    f_equal.
    apply (map_get_distinct (fun key v => mkChange key v (getType v)) props H).
  - rewrite app_nil_r. unfold Set_of.
    rewrite (fold_Set_add_fresh (map fst props) []) by exact N.
    rewrite app_nil_l.
    rewrite (map_ext_in _ (fun key =>
               push_removed (mkChange key (get (JObj props) key)
                               (getType (get (JObj props) key))) no_changes)).
    + rewrite (cconcat_pushes_removed
                 (fun key => mkChange key (get (JObj props) key)
                               (getType (get (JObj props) key)))).
      f_equal.
      apply (map_get_distinct (fun key v => mkChange key v (getType v)) props H).
    + intros key Hkey. unfold keyChanges. simpl Object_keys.
      apply includes_In in Hkey. now rewrite Hkey.
Qed.

Lemma compare_with_empty_object_witness :
  compare (JObj []) (JObj [("b", JNum 5)])
  = mkChanges [mkChange "b" (JNum 5) "primitive"] [] [] []
  /\ compare (JObj [("b", JNum 5)]) (JObj [])
     = mkChanges [] [mkChange "b" (JNum 5) "primitive"] [] [].
Proof.
  apply (compare_with_empty_object [("b", JNum 5)]). reflexivity.
Defined.

(** ** The accumulator *)

(** X5: with fuel above the depth of the old value [deepCompare] returns, and
    what it returns is the accumulator it was given with records appended to
    the ends of its four sequences: the records already there stay, in their
    order, and the appended ones depend neither on the accumulator nor on the
    fuel. *)
Theorem deepCompare_only_appends :
  forall fuel oldVal newVal path changes,
    depth oldVal < fuel ->
    deepCompare fuel oldVal newVal path changes
    = Some (capp changes (changes_of oldVal newVal path)).
Proof. intros. now apply deepCompare_total. Qed.

Lemma deepCompare_only_appends_witness :
  deepCompare 3 example_a123 example_a12 ""
    (mkChanges [] [] [] [mkChange "z" JNull "null"])
  = Some (capp (mkChanges [] [] [] [mkChange "z" JNull "null"])
            (changes_of example_a123 example_a12 "")).
Proof.
  apply deepCompare_only_appends. simpl. lia.
Defined.

(** ** Looking a path up ([getChangeType], [getChangedPaths]) *)

Lemma find_path_None {A} (path_of : A -> string) path l :
  find (fun c => String.eqb (path_of c) path) l = None
  <-> ~ In path (map path_of l).
Proof.
  induction l as [|c l IH]; simpl; [tauto|].
  destruct (String.eqb_spec (path_of c) path) as [E|N].
  - split; [discriminate|]. intros H. exfalso. apply H. now left.
  - rewrite IH. tauto.
Qed.

Lemma find_path_Some {A} (path_of : A -> string) path l :
  (exists c, find (fun c => String.eqb (path_of c) path) l = Some c)
  <-> In path (map path_of l).
Proof.
  destruct (find _ l) as [c|] eqn:F.
  - split; [intros _|eauto].
    apply find_some in F as [Hin E]. apply String.eqb_eq in E. subst.
    now apply in_map.
  - apply find_path_None in F. split; [intros [c [=]]|contradiction].
Qed.

Lemma getChangeType_cases :
  forall (path : string) (changes : Changes),
    (getChangeType path changes = None <-> ~ In path (all_paths changes))
    /\ (getChangeType path changes = Some "added"
        <-> In path (map c_path (added changes)))
    /\ (getChangeType path changes = Some "removed"
        <-> ~ In path (map c_path (added changes))
            /\ In path (map c_path (removed changes)))
    /\ (getChangeType path changes = Some "modified"
        <-> ~ In path (map c_path (added changes))
            /\ ~ In path (map c_path (removed changes))
            /\ In path (map m_path (modified changes)))
    /\ (getChangeType path changes = Some "unchanged"
        <-> ~ In path (map c_path (added changes))
            /\ ~ In path (map c_path (removed changes))
            /\ ~ In path (map m_path (modified changes))
            /\ In path (map c_path (unchanged changes))).
Proof.
  intros path changes. unfold getChangeType, all_paths.
  rewrite !in_app_iff.
  assert (A := find_path_None c_path path (added changes)).
  assert (R := find_path_None c_path path (removed changes)).
  assert (M := find_path_None m_path path (modified changes)).
  assert (U := find_path_None c_path path (unchanged changes)).
  assert (A' := find_path_Some c_path path (added changes)).
  assert (R' := find_path_Some c_path path (removed changes)).
  assert (M' := find_path_Some m_path path (modified changes)).
  assert (U' := find_path_Some c_path path (unchanged changes)).
  destruct (find _ (added changes)) as [a|].
  { assert (In path (map c_path (added changes))) by (apply A'; eauto).
    repeat split; try discriminate; tauto. }
  assert (~ In path (map c_path (added changes))) by now apply A.
  destruct (find _ (removed changes)) as [r|].
  { assert (In path (map c_path (removed changes))) by (apply R'; eauto).
    repeat split; try discriminate; tauto. }
  assert (~ In path (map c_path (removed changes))) by now apply R.
  destruct (find _ (modified changes)) as [m|].
  { assert (In path (map m_path (modified changes))) by (apply M'; eauto).
    repeat split; try discriminate; tauto. }
  assert (~ In path (map m_path (modified changes))) by now apply M.
  destruct (find _ (unchanged changes)) as [u|].
  { assert (In path (map c_path (unchanged changes))) by (apply U'; eauto).
    repeat split; try discriminate; tauto. }
  assert (~ In path (map c_path (unchanged changes))) by now apply U.
  repeat split; try discriminate; tauto.
Qed.

(** X6: [getChangeType] answers [null] exactly for the paths no record has;
    otherwise it names the first of the sequences added, removed, modified,
    unchanged that holds a record with the path. *)
Theorem getChangeType_first_sequence :
  forall (path : string) (changes : Changes),
    (getChangeType path changes = None <-> ~ In path (all_paths changes))
    /\ (getChangeType path changes = Some "added"
        <-> In path (map c_path (added changes)))
    /\ (getChangeType path changes = Some "removed"
        <-> ~ In path (map c_path (added changes))
            /\ In path (map c_path (removed changes)))
    /\ (getChangeType path changes = Some "modified"
        <-> ~ In path (map c_path (added changes))
            /\ ~ In path (map c_path (removed changes))
            /\ In path (map m_path (modified changes)))
    /\ (getChangeType path changes = Some "unchanged"
        <-> ~ In path (map c_path (added changes))
            /\ ~ In path (map c_path (removed changes))
            /\ ~ In path (map m_path (modified changes))
            /\ In path (map c_path (unchanged changes))).
Proof. exact getChangeType_cases. Qed.

Lemma occurrences_split q changes :
  occurrences q changes
  = count_occ string_dec (map c_path (added changes)) q
    + count_occ string_dec (map c_path (removed changes)) q
    + count_occ string_dec (map m_path (modified changes)) q
    + count_occ string_dec (map c_path (unchanged changes)) q.
Proof. unfold occurrences, all_paths. rewrite !count_occ_app. lia. Qed.

(** X7: on the result of [compare] for inputs whose object keys are
    non-empty and contain no ['.'], ['['] or [']'], [getChangeType] names the
    one sequence that holds the path: it answers ["added"], ["removed"],
    ["modified"] or ["unchanged"] exactly when that sequence has a record with
    the path. *)
Theorem getChangeType_of_compare :
  forall (X Y : jsval) (path : string),
    keys_all named_key X = true -> keys_all named_key Y = true ->
    let r := compare X Y in
    (getChangeType path r = Some "added" <-> In path (map c_path (added r)))
    /\ (getChangeType path r = Some "removed"
        <-> In path (map c_path (removed r)))
    /\ (getChangeType path r = Some "modified"
        <-> In path (map m_path (modified r)))
    /\ (getChangeType path r = Some "unchanged"
        <-> In path (map c_path (unchanged r))).
Proof.
  intros X Y path KX KY r.
  assert (O : occurrences path r <= 1).
  { unfold r. rewrite compare_changes_of.
    apply (changes_of_occurrences (S (depth X))); auto. }
  rewrite occurrences_split in O.
  assert (CA := count_occ_In string_dec (map c_path (added r)) path).
  assert (CR := count_occ_In string_dec (map c_path (removed r)) path).
  assert (CM := count_occ_In string_dec (map m_path (modified r)) path).
  assert (CU := count_occ_In string_dec (map c_path (unchanged r)) path).
  assert (NA := count_occ_not_In string_dec (map c_path (added r)) path).
  assert (NR := count_occ_not_In string_dec (map c_path (removed r)) path).
  assert (NM := count_occ_not_In string_dec (map m_path (modified r)) path).
  destruct (getChangeType_cases path r) as (_ & A & R & M & U).
  repeat split; intros H.
  - now apply A.
  - now apply A.
  - now apply R.
  - apply R. split; [|assumption]. apply NA. apply CR in H. lia.
  - now apply M.
  - apply M. apply CM in H. repeat split; [apply NA|apply NR|]; try lia.
    now apply CM.
  - now apply U.
  - apply U. apply CU in H. repeat split; [apply NA|apply NR|apply NM|];
      try lia. now apply CU.
Qed.

Lemma getChangeType_of_compare_witness :
  let r := compare example_a123 example_a12 in
  (getChangeType "a[2]" r = Some "added" <-> In "a[2]" (map c_path (added r)))
  /\ (getChangeType "a[2]" r = Some "removed"
      <-> In "a[2]" (map c_path (removed r)))
  /\ (getChangeType "a[2]" r = Some "modified"
      <-> In "a[2]" (map m_path (modified r)))
  /\ (getChangeType "a[2]" r = Some "unchanged"
      <-> In "a[2]" (map c_path (unchanged r))).
Proof.
  apply (getChangeType_of_compare example_a123 example_a12 "a[2]");
    reflexivity.
Defined.

Lemma in_addPaths {A} (path_of : A -> string) p l :
  forall paths,
    In p (addPaths path_of l paths) <-> In p paths \/ In p (map path_of l).
Proof.
  unfold addPaths. induction l as [|c l IH]; intros paths; simpl; [tauto|].
  rewrite IH. unfold Set_add.
  destruct (includes paths (path_of c)) eqn:E.
  - apply includes_In in E. split; [tauto|]. intros [H|[<-|H]]; tauto.
  - rewrite in_app_iff. simpl. tauto.
Qed.

Lemma NoDup_addPaths {A} (path_of : A -> string) l :
  forall paths, NoDup paths -> NoDup (addPaths path_of l paths).
Proof.
  unfold addPaths. induction l as [|c l IH]; intros paths H; simpl;
    [assumption|].
  apply IH. unfold Set_add.
  destruct (includes paths (path_of c)) eqn:E; [assumption|].
  apply includes_false in E.
  apply NoDup_app; [assumption|repeat constructor; auto|].
  intros x Hx [<-|[]]. contradiction.
Qed.

Lemma insert_sorted_perm x l : Permutation (insert_sorted x l) (x :: l).
Proof.
  induction l as [|y l IH]; simpl; [reflexivity|].
  destruct (String.leb x y); [reflexivity|].
  rewrite IH. apply perm_swap.
Qed.

Lemma Array_sort_perm l : Permutation (Array_sort l) l.
Proof.
  induction l as [|x l IH]; simpl; [constructor|].
  rewrite insert_sorted_perm. now constructor.
Qed.

Lemma insert_sorted_Sorted x l :
  Sorted (fun a b => String.leb a b = true) l ->
  Sorted (fun a b => String.leb a b = true) (insert_sorted x l).
Proof.
  induction 1 as [|y l S IH Hd]; simpl; [repeat constructor|].
  destruct (String.leb x y) eqn:E.
  - repeat constructor; assumption.
  - constructor; [assumption|].
    assert (L : String.leb y x = true)
      by (destruct (String.leb_total x y); congruence).
    destruct l as [|z l]; simpl; [now constructor|].
    destruct (String.leb x z); constructor; [assumption|].
    now inversion Hd.
Qed.

Lemma Array_sort_Sorted l :
  Sorted (fun a b => String.leb a b = true) (Array_sort l).
Proof.
  induction l as [|x l IH]; simpl; [constructor|].
  now apply insert_sorted_Sorted.
Qed.

(** X8: [getChangedPaths] returns the paths of the Added, Removed and
    Modified records and no other path (a path only Unchanged records have is
    not listed), each path once, in ascending order. *)
Theorem getChangedPaths_sorted_set :
  forall changes : Changes,
    (forall p,
        In p (getChangedPaths changes)
        <-> In p (map c_path (added changes))
            \/ In p (map c_path (removed changes))
            \/ In p (map m_path (modified changes)))
    /\ NoDup (getChangedPaths changes)
    /\ Sorted (fun a b => String.leb a b = true) (getChangedPaths changes).
Proof.
  intros changes. unfold getChangedPaths. repeat split.
  - intros H. apply (Permutation_in _ (Array_sort_perm _)) in H.
    rewrite !in_addPaths in H. simpl in H. tauto.
  - intros H. apply (Permutation_in _ (Permutation_sym (Array_sort_perm _))).
    rewrite !in_addPaths. simpl. tauto.
  - apply (Permutation_NoDup (Permutation_sym (Array_sort_perm _))).
    repeat apply NoDup_addPaths. constructor.
  - apply Array_sort_Sorted.
Qed.

(** ** Truncated renderings ([formatValue], [PDFExporter.truncate]) *)

Lemma length_append (a b : string) :
  String.length (a ++ b)%string = String.length a + String.length b.
Proof. induction a; simpl; congruence. Qed.

Lemma length_substring_0 m :
  forall s, String.length (String.substring 0 m s) = Nat.min m (String.length s).
Proof.
  induction m as [|m IH]; intros [|c s]; simpl; try reflexivity.
  now rewrite IH.
Qed.

Lemma length_truncate str maxLength :
  String.length (truncate str maxLength) <= maxLength + 3
  /\ (String.length str <= maxLength -> truncate str maxLength = str).
Proof.
  unfold truncate.
  destruct (Nat.ltb_spec maxLength (String.length str)) as [L|L].
  - split; [|lia]. rewrite length_append, length_substring_0. simpl. lia.
  - split; [lia|reflexivity].
Qed.

(** X9: the text [formatValue] returns is never longer than [maxLength + 3]
    characters (four for ["null"]): a rendering longer than [maxLength] is cut
    to its first [maxLength] characters followed by three dots, and a
    rendering that fits is returned as it is; [null] and [undefined] are
    rendered ["null"] whatever [maxLength] is. *)
Theorem formatValue_length :
  forall (JSON_stringify String_of : jsval -> string) (value : jsval)
         (maxLength : nat),
    let rendering :=
      if typeof_object value then JSON_stringify value else String_of value in
    String.length (formatValue JSON_stringify String_of value maxLength)
    <= Nat.max 4 (maxLength + 3)
    /\ (is_null value || is_undefined value = true ->
        formatValue JSON_stringify String_of value maxLength = "null")
    /\ (is_null value || is_undefined value = false ->
        String.length rendering <= maxLength ->
        formatValue JSON_stringify String_of value maxLength = rendering)
    /\ (is_null value || is_undefined value = false ->
        maxLength < String.length rendering ->
        formatValue JSON_stringify String_of value maxLength
        = (String.substring 0 maxLength rendering ++ "...")%string).
Proof.
  intros js so value maxLength rendering. unfold formatValue, rendering.
  destruct (is_null value || is_undefined value).
  - split; [cbn [String.length]; lia|].
    split; [reflexivity|]. split; discriminate.
  - assert (T : forall str,
               String.length (truncate str maxLength) <= Nat.max 4 (maxLength + 3)
               /\ (false = true -> truncate str maxLength = "null")
               /\ (false = false -> String.length str <= maxLength ->
                   truncate str maxLength = str)
               /\ (false = false -> maxLength < String.length str ->
                   truncate str maxLength
                   = (String.substring 0 maxLength str ++ "...")%string)).
    { intros str. destruct (length_truncate str maxLength) as [B F].
      split; [lia|]. split; [discriminate|]. split; [auto|].
      intros _ L. unfold truncate. apply Nat.ltb_lt in L. now rewrite L. }
    destruct (typeof_object value); apply T.
Qed.

Lemma substring_0_prefix m :
  forall s, m <= String.length s ->
    exists rest, s = (String.substring 0 m s ++ rest)%string.
Proof.
  induction m as [|m IH]; intros s H.
  - exists s. now destruct s.
  - destruct s as [|c s]; simpl in H; [lia|].
    destruct (IH s) as [rest E]; [lia|].
    exists rest. simpl. now rewrite <- E.
Qed.

(** X10: [PDFExporter.truncate] returns a text that fits into [maxLength]
    characters as it is, and otherwise its first [maxLength - 3] characters
    followed by three dots; the result is never longer than [maxLength] when
    [maxLength] is at least 3, and is the three dots alone, longer than
    [maxLength], for a text that does not fit into a smaller [maxLength]. *)
Theorem PDFExporter_truncate_length :
  forall (text : string) (maxLength : nat),
    (String.length text <= maxLength ->
     PDFExporter.truncate text maxLength = text)
    /\ (maxLength < String.length text ->
        exists kept rest,
          text = (kept ++ rest)%string
          /\ String.length kept = maxLength - 3
          /\ PDFExporter.truncate text maxLength = (kept ++ "...")%string)
    /\ (3 <= maxLength ->
        String.length (PDFExporter.truncate text maxLength) <= maxLength)
    /\ (maxLength < 3 -> maxLength < String.length text ->
        PDFExporter.truncate text maxLength = "...").
Proof.
  intros text maxLength. unfold PDFExporter.truncate.
  destruct (Nat.leb_spec (String.length text) maxLength) as [L|L].
  - repeat split; [lia|lia|lia].
  - split; [lia|]. split; [|split].
    + intros _.
      destruct (substring_0_prefix (maxLength - 3) text) as [rest E]; [lia|].
      exists (String.substring 0 (maxLength - 3) text), rest.
      repeat split; [exact E|]. rewrite length_substring_0. lia.
    + intros H. rewrite length_append, length_substring_0. simpl. lia.
    + intros H _. replace (maxLength - 3) with 0 by lia.
      now destruct text.
Qed.

Lemma PDFExporter_truncate_length_witness :
  PDFExporter.truncate "dataset" 80 = "dataset"
  /\ (exists kept rest,
         "distribution" = (kept ++ rest)%string
         /\ String.length kept = 5
         /\ PDFExporter.truncate "distribution" 8 = (kept ++ "...")%string)
  /\ String.length (PDFExporter.truncate "distribution" 8) <= 8
  /\ PDFExporter.truncate "distribution" 2 = "...".
Proof.
  destruct (PDFExporter_truncate_length "dataset" 80) as (A & _ & _ & _).
  destruct (PDFExporter_truncate_length "distribution" 8) as (_ & K & B & _).
  destruct (PDFExporter_truncate_length "distribution" 2) as (_ & _ & _ & C).
  split; [apply A; simpl; lia|].
  split; [apply K; simpl; lia|].
  split; [apply B; lia|apply C; simpl; lia].
Defined.

Lemma formatValue_length_witness :
  formatValue (fun _ => "{}") (fun _ => "12345678") (JNum 12345678) 5
  = "12345...".
Proof.
  destruct (formatValue_length (fun _ => "{}") (fun _ => "12345678")
              (JNum 12345678) 5) as (_ & _ & _ & T).
  apply T; [reflexivity|simpl; lia].
Defined.

(** ** Cells of the CSV export ([CSVExporter.escapeCSV]) *)

Lemma append_inj_r (a b c : string) :
  (a ++ c)%string = (b ++ c)%string -> a = b.
Proof.
  revert b. induction a as [|x a IH]; intros [|y b] E; simpl in E.
  - reflexivity.
  - apply (f_equal String.length) in E. simpl in E.
    rewrite length_append in E. lia.
  - apply (f_equal String.length) in E. simpl in E.
    rewrite length_append in E. lia.
  - injection E as -> E. f_equal. now apply IH.
Qed.

Lemma double_quotes_inj s1 :
  forall s2,
    CSVExporter.double_quotes s1 = CSVExporter.double_quotes s2 -> s1 = s2.
Proof.
  induction s1 as [|x s1 IH]; intros [|y s2]; simpl.
  - reflexivity.
  - destruct (Ascii.eqb y _); discriminate.
  - destruct (Ascii.eqb x _); discriminate.
  - destruct (Ascii.eqb_spec x (ascii_of_nat 34)) as [Ex|Ex];
      destruct (Ascii.eqb_spec y (ascii_of_nat 34)) as [Ey|Ey].
    + intros [= -> E]. f_equal. now apply IH.
    + intros [= -> E]. congruence.
    + intros [= -> E]. congruence.
    + intros [= -> E]. f_equal. now apply IH.
Qed.

Lemma double_quotes_nil s : CSVExporter.double_quotes s = "" -> s = "".
Proof. intros H. now apply double_quotes_inj. Qed.

Lemma read_quoted_double_quotes s :
  read_quoted (CSVExporter.double_quotes s ++ quote) = Some s.
Proof.
  induction s as [|c s IH]; [reflexivity|].
  cbn [CSVExporter.double_quotes].
  destruct (Ascii.eqb c (ascii_of_nat 34)) eqn:E.
  - cbn [append read_quoted]. rewrite E, IH. reflexivity.
  - cbn [append read_quoted]. rewrite E, IH. reflexivity.
Qed.

Lemma escapeCSV_shape String_of s :
  (CSVExporter.escapeCSV String_of (JStr s) = s
   /\ CSVExporter.includes_char "," s = false
   /\ CSVExporter.includes_char (ascii_of_nat 34) s = false
   /\ CSVExporter.includes_char (ascii_of_nat 10) s = false)
  \/ (CSVExporter.escapeCSV String_of (JStr s)
      = String (ascii_of_nat 34) (CSVExporter.double_quotes s ++ quote)
      /\ s <> ""
      /\ CSVExporter.includes_char "," s
         || CSVExporter.includes_char (ascii_of_nat 34) s
         || CSVExporter.includes_char (ascii_of_nat 10) s = true).
Proof.
  unfold CSVExporter.escapeCSV. cbn [is_null is_undefined orb].
  cbn [CSVExporter.String_of_value].
  destruct (CSVExporter.includes_char "," s) eqn:C;
    destruct (CSVExporter.includes_char (ascii_of_nat 34) s) eqn:Q;
    destruct (CSVExporter.includes_char (ascii_of_nat 10) s) eqn:N;
    cbn [orb]; try (left; repeat split; reflexivity);
    right; (split; [reflexivity|]); (split; [|reflexivity]);
    intros ->; discriminate.
Qed.

(** X11: [escapeCSV] keeps strings apart: two different strings get different
    cells, and no string gets the cell of [null] and [undefined], which is two
    double quotes.  The cell of a string is the string itself when it has no
    comma, double quote or line feed, and otherwise starts with a double
    quote; in both cases a reader of the cell gets the string back. *)
Theorem escapeCSV_injective :
  forall (String_of : jsval -> string),
    (forall s1 s2,
        CSVExporter.escapeCSV String_of (JStr s1)
        = CSVExporter.escapeCSV String_of (JStr s2) -> s1 = s2)
    /\ (forall s,
           CSVExporter.escapeCSV String_of (JStr s)
           <> CSVExporter.escapeCSV String_of JNull)
    /\ CSVExporter.escapeCSV String_of JNull
       = CSVExporter.escapeCSV String_of JUndefined
    /\ (forall s,
           CSVExporter.includes_char "," s = false ->
           CSVExporter.includes_char (ascii_of_nat 34) s = false ->
           CSVExporter.includes_char (ascii_of_nat 10) s = false ->
           CSVExporter.escapeCSV String_of (JStr s) = s)
    /\ (forall s,
           CSVExporter.includes_char "," s
           || CSVExporter.includes_char (ascii_of_nat 34) s
           || CSVExporter.includes_char (ascii_of_nat 10) s = true ->
           exists rest,
             CSVExporter.escapeCSV String_of (JStr s)
             = String (ascii_of_nat 34) rest)
    /\ (forall s,
           read_cell (CSVExporter.escapeCSV String_of (JStr s)) = Some s).
Proof.
  intros String_of.
  assert (Shape := escapeCSV_shape String_of).
  assert (Plain : forall s rest,
             CSVExporter.includes_char (ascii_of_nat 34) s = false ->
             s <> String (ascii_of_nat 34) rest).
  { intros s rest Q ->. simpl in Q. discriminate. }
  split; [|split; [|split; [|split; [|split]]]].
  - intros s1 s2 E.
    destruct (Shape s1) as [(E1 & _ & Q1 & _)|[E1 _]];
      destruct (Shape s2) as [(E2 & _ & Q2 & _)|[E2 _]];
      rewrite E1, E2 in E.
    + exact E.
    + exfalso. exact (Plain _ _ Q1 E).
    + exfalso. symmetry in E. exact (Plain _ _ Q2 E).
    + injection E as E. apply append_inj_r in E.
      now apply double_quotes_inj.
  - intros s E.
    change (CSVExporter.escapeCSV String_of JNull)
      with (String (ascii_of_nat 34) ("" ++ quote)) in E.
    destruct (Shape s) as [(E1 & _ & Q1 & _)|[E1 [Hs _]]]; rewrite E1 in E.
    + exact (Plain _ _ Q1 E).
    + injection E as E.
      apply (append_inj_r (CSVExporter.double_quotes s) "" quote) in E.
      apply double_quotes_nil in E. contradiction.
  - reflexivity.
  - intros s C Q N.
    destruct (Shape s) as [(E1 & _)|(_ & _ & H)]; [exact E1|].
    rewrite C, Q, N in H. discriminate H.
  - intros s H.
    destruct (Shape s) as [(_ & C & Q & N)|(E1 & _)].
    + rewrite C, Q, N in H. discriminate H.
    + rewrite E1. eauto.
  - intros s.
    destruct (Shape s) as [(E1 & _ & Q & _)|(E1 & _)]; rewrite E1.
    + destruct s as [|c s]; [reflexivity|]. simpl in Q.
      apply orb_false_iff in Q as [Q _]. unfold read_cell. now rewrite Q.
    + unfold read_cell. rewrite Ascii.eqb_refl.
      apply read_quoted_double_quotes.
Qed.

Lemma escapeCSV_injective_witness :
  CSVExporter.escapeCSV (fun _ => "") (JStr "plain") = "plain"
  /\ (exists rest,
         CSVExporter.escapeCSV (fun _ => "") (JStr "a,b")
         = String (ascii_of_nat 34) rest)
  /\ read_cell (CSVExporter.escapeCSV (fun _ => "") (JStr "a,b")) = Some "a,b".
Proof.
  destruct (escapeCSV_injective (fun _ => "")) as (_ & _ & _ & P & Q & R).
  split; [apply P; reflexivity|].
  split; [apply Q; reflexivity|apply R].
Defined.

(** ** The last part of a path ([getPathParts]) *)

Lemma split_dot_append p s :
  split_dot (p ++ String "." s)%string = split_dot p ++ split_dot s.
Proof.
  induction p as [|c p IH]; simpl; [reflexivity|].
  destruct (Ascii.eqb c "."); [now rewrite IH|].
  rewrite IH. destruct (split_dot p) as [|h r] eqn:E; [|reflexivity].
  now apply split_dot_nonempty in E.
Qed.

Lemma avoids_append bad a b :
  avoids bad (a ++ b)%string = avoids bad a && avoids bad b.
Proof.
  induction a as [|c a IH]; simpl; [reflexivity|].
  now rewrite IH, andb_assoc.
Qed.

Lemma match_digits_close_digits d :
  avoids (fun c => negb (is_digit c)) d = true ->
  forall rest, match_digits_close (d ++ String "]" rest)%string = Some rest.
Proof.
  induction d as [|c d IH]; simpl; intros H rest; [reflexivity|].
  apply andb_true_iff in H as [H1 H2]. apply negb_true_iff, negb_false_iff in H1.
  rewrite H1. now apply IH.
Qed.

Lemma to_uint_not_Nil i : Nat.to_uint i <> Nil.
Proof.
  intros E. assert (H := DecimalNat.Unsigned.to_of (Nat.to_uint i)).
  rewrite DecimalNat.Unsigned.of_to in H. rewrite E in H at 2.
  simpl in H. rewrite E in H. discriminate.
Qed.

Lemma index_to_string_shape i :
  exists c d,
    index_to_string i = String c d /\ is_digit c = true
    /\ avoids (fun c => negb (is_digit c)) d = true.
Proof.
  unfold index_to_string. assert (D := string_of_uint_digits (Nat.to_uint i)).
  assert (N := to_uint_not_Nil i).
  destruct (Nat.to_uint i); try contradiction;
    cbn [NilEmpty.string_of_uint avoids] in *;
    apply andb_true_iff in D as [D1 D2];
    eexists _, _; (split; [reflexivity|]); split; try assumption; reflexivity.
Qed.

Lemma replace_index_key_index key i rest :
  avoids is_open key = true ->
  replace_index (key ++ "[" ++ index_to_string i ++ "]" ++ rest)%string
  = (key ++ rest)%string.
Proof.
  destruct (index_to_string_shape i) as [c [d (E & C & D)]]. rewrite E.
  induction key as [|x key IH]; intros H.
  - cbn. rewrite C. cbn [andb].
    now rewrite (match_digits_close_digits d D rest).
  - simpl in H. apply andb_true_iff in H as [H1 H2].
    change ((String x key ++ "[" ++ String c d ++ "]" ++ rest)%string)
      with (String x (key ++ "[" ++ String c d ++ "]" ++ rest)%string).
    cbn [replace_index].
    destruct (match_index (String x (key ++ "[" ++ String c d ++ "]" ++ rest)))
      as [r|] eqn:M.
    + apply match_index_open in M as [t [= -> _]]. discriminate.
    + now rewrite IH.
Qed.

Lemma last_map_app {A B} (f : A -> B) l x d :
  last (map f (l ++ [x])) d = f x.
Proof. rewrite map_app. simpl. apply last_last. Qed.

Lemma split_dot_keyPath p s :
  avoids is_dot s = true ->
  exists parts, split_dot (keyPath p s) = parts ++ [s].
Proof.
  intros H. unfold keyPath. destruct (String.eqb_spec p "") as [->|N].
  - exists []. now apply split_dot_plain.
  - change (p ++ "." ++ s)%string with (p ++ String "." s)%string.
    rewrite split_dot_append, (split_dot_plain s H).
    now exists (split_dot p).
Qed.

Lemma index_to_string_no_dot i : avoids is_dot (index_to_string i) = true.
Proof.
  unfold index_to_string.
  apply (avoids_weaken (fun c => negb (is_digit c))).
  - intros c H. unfold is_dot in H. apply Ascii.eqb_eq in H. now subst.
  - apply string_of_uint_digits.
Qed.

Lemma indexPath_keyPath p key i :
  indexPath (keyPath p key) i
  = keyPath p (key ++ "[" ++ index_to_string i ++ "]")%string.
Proof.
  unfold indexPath, keyPath. destruct (p =? ""); [reflexivity|].
  now rewrite !append_assoc.
Qed.

(** X12: the last part [getPathParts] returns, which the views search for,
    is the key itself for a path that ends in a key without ['.'] or ['['],
    and still that key when one array index follows it; when two indices
    follow, only the first is removed and the last part is the key with the
    second index attached. *)
Theorem getPathParts_last_part :
  forall (path key : string) (i j : nat),
    avoids is_dot key = true -> avoids is_open key = true ->
    last (getPathParts (keyPath path key)) "" = key
    /\ last (getPathParts (indexPath (keyPath path key) i)) "" = key
    /\ last (getPathParts (indexPath (indexPath (keyPath path key) i) j)) ""
       = (key ++ "[" ++ index_to_string j ++ "]")%string.
Proof.
  intros path key i j Hd Ho. unfold getPathParts.
  assert (Di := index_to_string_no_dot i).
  assert (Dj := index_to_string_no_dot j).
  split; [|split].
  - destruct (split_dot_keyPath path key Hd) as [parts ->].
    rewrite last_map_app. now apply replace_index_plain.
  - rewrite indexPath_keyPath.
    destruct (split_dot_keyPath path
                (key ++ "[" ++ index_to_string i ++ "]")%string) as [parts ->].
    { rewrite !avoids_append, Hd, Di. reflexivity. }
    rewrite last_map_app.
    rewrite <- (append_nil_r (key ++ "[" ++ index_to_string i ++ "]")).
    rewrite !append_assoc.
    rewrite (replace_index_key_index key i "" Ho). apply append_nil_r.
  - rewrite !indexPath_keyPath.
    destruct (split_dot_keyPath path
                ((key ++ "[" ++ index_to_string i ++ "]")
                 ++ "[" ++ index_to_string j ++ "]")%string) as [parts ->].
    { rewrite !avoids_append, Hd, Di, Dj. reflexivity. }
    rewrite last_map_app. rewrite !append_assoc.
    now rewrite (replace_index_key_index key i _ Ho).
Qed.

Lemma getPathParts_last_part_witness :
  last (getPathParts (keyPath "dmp.dataset[0]" "title")) "" = "title"
  /\ last (getPathParts (indexPath (keyPath "dmp" "dataset") 3)) "" = "dataset"
  /\ last (getPathParts (indexPath (indexPath (keyPath "dmp" "grid") 3) 4)) ""
     = "grid[4]".
Proof.
  destruct (getPathParts_last_part "dmp.dataset[0]" "title" 0 0) as (A & _);
    try reflexivity.
  destruct (getPathParts_last_part "dmp" "dataset" 3 0) as (_ & B & _);
    try reflexivity.
  destruct (getPathParts_last_part "dmp" "grid" 3 4) as (_ & _ & C);
    try reflexivity.
  repeat split; assumption.
Defined.

(** ** Navigation through the changes ([DiffNavigation]) *)

Lemma nav_length_nil s :
  DiffNavigation.length s = 0%Z <-> DiffNavigation.changes s = [].
Proof.
  unfold DiffNavigation.length. destruct (DiffNavigation.changes s); simpl.
  - tauto.
  - split; [lia|discriminate].
Qed.

Lemma nav_length_nonneg s : (0 <= DiffNavigation.length s)%Z.
Proof. unfold DiffNavigation.length. lia. Qed.

Lemma navigateToChange_in_range index s :
  (0 <= index < DiffNavigation.length s)%Z ->
  DiffNavigation.navigateToChange index s
  = DiffNavigation.mkState (DiffNavigation.changes s) index.
Proof.
  intros H. unfold DiffNavigation.navigateToChange.
  destruct (Z.ltb_spec index 0); [lia|].
  destruct (Z.leb_spec (DiffNavigation.length s) index); [lia|]. reflexivity.
Qed.

Lemma navigateToChange_consistent index s :
  nav_consistent s -> nav_consistent (DiffNavigation.navigateToChange index s).
Proof.
  intros H. unfold DiffNavigation.navigateToChange.
  destruct (Z.ltb_spec index 0); [exact H|].
  destruct (Z.leb_spec (DiffNavigation.length s) index); [exact H|].
  right. unfold DiffNavigation.length in *. simpl. lia.
Qed.

Lemma navigateToChange_changes index s :
  DiffNavigation.changes (DiffNavigation.navigateToChange index s)
  = DiffNavigation.changes s.
Proof.
  unfold DiffNavigation.navigateToChange.
  destruct (_ || _); reflexivity.
Qed.

Lemma at_index_in_range l k :
  (0 <= k < Z.of_nat (List.length l))%Z ->
  exists c, DiffNavigation.at_index l k = Some c.
Proof.
  intros H. unfold DiffNavigation.at_index.
  destruct (Z.ltb_spec k 0); [lia|].
  destruct (nth_error l (Z.to_nat k)) eqn:E; [eauto|].
  apply nth_error_None in E. lia.
Qed.

(** What a loop of [jumpToType] finds when it stays inside the list. *)
Lemma scan_in_range t l count :
  forall i,
    (0 <= i)%Z -> (i + Z.of_nat count <= Z.of_nat (List.length l))%Z ->
    (DiffNavigation.scan t l i count = Some None
     /\ forall k, (i <= k < i + Z.of_nat count)%Z ->
          forall c, DiffNavigation.at_index l k = Some c ->
                    DiffNavigation.type c <> t)
    \/ exists j c,
         DiffNavigation.scan t l i count = Some (Some j)
         /\ (i <= j < i + Z.of_nat count)%Z
         /\ DiffNavigation.at_index l j = Some c
         /\ DiffNavigation.type c = t
         /\ forall k, (i <= k < j)%Z ->
              forall c', DiffNavigation.at_index l k = Some c' ->
                         DiffNavigation.type c' <> t.
Proof.
  induction count as [|count IH]; intros i Hi Hb.
  - left. split; [reflexivity|]. intros k Hk. lia.
  - cbn [DiffNavigation.scan].
    destruct (at_index_in_range l i) as [c Hc]; [lia|]. rewrite Hc.
    destruct (String.eqb_spec (DiffNavigation.type c) t) as [E|E].
    + right. exists i, c. repeat split; try assumption; try lia.
    + destruct (IH (i + 1)%Z) as [[S N]|[j [c' (S & R & A & T & N)]]];
        try lia.
      * left. split; [exact S|]. intros k Hk c' Hc'.
        destruct (Z.eq_dec k i) as [->|Nk]; [congruence|].
        apply (N k); [lia|assumption].
      * right. exists j, c'. repeat split; try assumption; try lia.
        intros k Hk c'' Hc''.
        destruct (Z.eq_dec k i) as [->|Nk]; [congruence|].
        apply (N k); [lia|assumption].
Qed.

Lemma buildChangesList_consistent sort_by_path diffResult s :
  nav_consistent (DiffNavigation.buildChangesList sort_by_path diffResult s).
Proof.
  unfold DiffNavigation.buildChangesList.
  destruct diffResult as [d|]; [|left; split; reflexivity].
  match goal with |- context [sort_by_path ?l] => generalize (sort_by_path l) end.
  intros l. unfold DiffNavigation.length. cbn [DiffNavigation.changes].
  destruct (Z.ltb_spec 0 (Z.of_nat (List.length l))) as [L|L].
  - apply navigateToChange_consistent. right.
    unfold DiffNavigation.length. simpl. lia.
  - left. split; [|reflexivity]. simpl. destruct l; [reflexivity|].
    simpl in L. lia.
Qed.

Lemma next_consistent s :
  nav_consistent s -> nav_consistent (DiffNavigation.next s).
Proof.
  intros H. unfold DiffNavigation.next.
  destruct (DiffNavigation.length s =? 0)%Z; [exact H|].
  now apply navigateToChange_consistent.
Qed.

Lemma previous_consistent s :
  nav_consistent s -> nav_consistent (DiffNavigation.previous s).
Proof.
  intros H. unfold DiffNavigation.previous.
  destruct (DiffNavigation.length s =? 0)%Z; [exact H|].
  now apply navigateToChange_consistent.
Qed.

Lemma jumpToType_returns t s :
  nav_consistent s ->
  exists s',
    DiffNavigation.jumpToType t s = Some s'
    /\ nav_consistent s'
    /\ DiffNavigation.changes s' = DiffNavigation.changes s.
Proof.
  intros H. unfold DiffNavigation.jumpToType.
  destruct (Nat.eqb _ 0); [eauto|].
  assert (Nav : forall k,
             nav_consistent
               (if (0 <=? k)%Z then DiffNavigation.navigateToChange k s else s)
             /\ DiffNavigation.changes
                  (if (0 <=? k)%Z then DiffNavigation.navigateToChange k s
                   else s)
                = DiffNavigation.changes s).
  { intros k. destruct (0 <=? k)%Z.
    - split; [now apply navigateToChange_consistent|].
      apply navigateToChange_changes.
    - split; [exact H|reflexivity]. }
  assert (R : (-1 <= DiffNavigation.currentIndex s < DiffNavigation.length s)%Z
              \/ (DiffNavigation.currentIndex s = (-1)%Z
                  /\ DiffNavigation.length s = 0%Z)).
  { destruct H as [[E ->]|H]; [right|left; lia].
    split; [reflexivity|]. now apply nav_length_nil. }
  assert (C : (-1 <= DiffNavigation.currentIndex s)%Z
              /\ (DiffNavigation.currentIndex s + 1 <= DiffNavigation.length s)%Z).
  { destruct R as [R|[-> ->]]; lia. }
  unfold DiffNavigation.length in *.
  destruct (scan_in_range t (DiffNavigation.changes s)
              (Z.to_nat (Z.of_nat (List.length (DiffNavigation.changes s))
                         - (DiffNavigation.currentIndex s + 1)))
              (DiffNavigation.currentIndex s + 1)%Z)
    as [[S _]|[j [c (S & _)]]]; try lia; rewrite S.
  - destruct (scan_in_range t (DiffNavigation.changes s)
                (Z.to_nat (DiffNavigation.currentIndex s + 1)) 0%Z)
      as [[S' _]|[j [c (S' & _)]]]; try lia; rewrite S'.
    + eexists. split; [reflexivity|]. apply Nav.
    + eexists. split; [reflexivity|]. apply Nav.
  - eexists. split; [reflexivity|]. apply Nav.
Qed.

(** X13: the navigation keeps its index on a change: starting from the
    initial state ([changes] empty, index -1), after [buildChangesList] with
    any result and any sorting, and after any sequence of [next],
    [previous], [navigateToChange] and [jumpToType], either there is no
    change and the index is -1, or the index is that of a change.
    [jumpToType] never reads beyond the list (it does not throw), and
    [getCurrentChange] returns [null] only when there is no change. *)
Theorem navigation_index_in_range :
  nav_consistent DiffNavigation.initial
  /\ (forall sort_by_path diffResult s,
         nav_consistent
           (DiffNavigation.buildChangesList sort_by_path diffResult s))
  /\ (forall s, nav_consistent s ->
        nav_consistent (DiffNavigation.next s)
        /\ nav_consistent (DiffNavigation.previous s)
        /\ (forall index,
              nav_consistent (DiffNavigation.navigateToChange index s))
        /\ (forall t, exists s',
              DiffNavigation.jumpToType t s = Some s' /\ nav_consistent s')
        /\ (DiffNavigation.getCurrentChange s = None
            <-> DiffNavigation.changes s = [])).
Proof.
  split; [left; split; reflexivity|].
  split; [apply buildChangesList_consistent|].
  intros s H. split; [now apply next_consistent|].
  split; [now apply previous_consistent|].
  split; [intros index; now apply navigateToChange_consistent|].
  split.
  - intros t. destruct (jumpToType_returns t s H) as [s' (E & C & _)]. eauto.
  - unfold DiffNavigation.getCurrentChange.
    destruct H as [[E I]|H].
    + rewrite I. simpl. tauto.
    + destruct (Z.leb_spec 0 (DiffNavigation.currentIndex s)); [|lia].
      destruct (Z.ltb_spec (DiffNavigation.currentIndex s)
                  (DiffNavigation.length s)); [|lia].
      cbn [andb].
      destruct (at_index_in_range (DiffNavigation.changes s)
                  (DiffNavigation.currentIndex s)) as [c ->]; [exact H|].
      split; [discriminate|]. intros E. apply nav_length_nil in E. lia.
Qed.

Lemma navigation_index_in_range_witness :
  nav_consistent (DiffNavigation.next nav_two_entries)
  /\ nav_consistent (DiffNavigation.previous nav_two_entries)
  /\ nav_consistent (DiffNavigation.navigateToChange 7 nav_two_entries)
  /\ (exists s',
         DiffNavigation.jumpToType "added" nav_two_entries = Some s'
         /\ nav_consistent s')
  /\ DiffNavigation.getCurrentChange nav_two_entries <> None.
Proof.
  destruct navigation_index_in_range as (_ & _ & K).
  destruct (K nav_two_entries) as (N & P & V & J & G).
  - right. cbn. lia.
  - split; [exact N|]. split; [exact P|]. split; [exact (V 7%Z)|].
    split; [exact (J "added")|].
    intros E. apply G in E. discriminate E.
Defined.

Lemma nav_state_eta s :
  DiffNavigation.mkState (DiffNavigation.changes s)
    (DiffNavigation.currentIndex s) = s.
Proof. now destruct s. Qed.

Lemma next_in_range s :
  (0 <= DiffNavigation.currentIndex s < DiffNavigation.length s)%Z ->
  DiffNavigation.next s
  = DiffNavigation.mkState (DiffNavigation.changes s)
      ((DiffNavigation.currentIndex s + 1) mod DiffNavigation.length s)%Z.
Proof.
  intros H. unfold DiffNavigation.next.
  destruct (Z.eqb_spec (DiffNavigation.length s) 0); [lia|].
  rewrite Z.rem_mod_nonneg by lia.
  apply navigateToChange_in_range. apply Z.mod_pos_bound. lia.
Qed.

Lemma previous_in_range s :
  (0 <= DiffNavigation.currentIndex s < DiffNavigation.length s)%Z ->
  DiffNavigation.previous s
  = DiffNavigation.mkState (DiffNavigation.changes s)
      ((DiffNavigation.currentIndex s - 1) mod DiffNavigation.length s)%Z.
Proof.
  intros H. unfold DiffNavigation.previous.
  destruct (Z.eqb_spec (DiffNavigation.length s) 0); [lia|].
  destruct (Z.ltb_spec (DiffNavigation.currentIndex s - 1) 0) as [L|L].
  - replace (DiffNavigation.currentIndex s) with 0%Z by lia.
    replace ((0 - 1) mod DiffNavigation.length s)%Z
      with (DiffNavigation.length s - 1)%Z.
    + apply navigateToChange_in_range. lia.
    + apply (Z.mod_unique _ _ (-1)); lia.
  - rewrite Z.mod_small by lia. apply navigateToChange_in_range. lia.
Qed.

Lemma nav_state_eq s i :
  i = DiffNavigation.currentIndex s ->
  DiffNavigation.mkState (DiffNavigation.changes s) i = s.
Proof. intros ->. apply nav_state_eta. Qed.

(** X14: [previous] undoes [next] and [next] undoes [previous]: from a state
    whose index is on a change (or that has no change), going forward and
    back, or back and forward, restores the state, also across the two ends
    of the list. *)
Theorem next_previous_inverse :
  forall s : DiffNavigation.State,
    nav_consistent s ->
    DiffNavigation.previous (DiffNavigation.next s) = s
    /\ DiffNavigation.next (DiffNavigation.previous s) = s.
Proof.
  intros s [[E I]|H].
  - apply nav_length_nil in E.
    unfold DiffNavigation.next, DiffNavigation.previous. rewrite E.
    cbn. rewrite E. split; reflexivity.
  - assert (B : forall i, (0 <= i mod DiffNavigation.length s
                           < DiffNavigation.length s)%Z)
      by (intros i; apply Z.mod_pos_bound; lia).
    split.
    + rewrite (next_in_range s H).
      assert (P := previous_in_range
                     (DiffNavigation.mkState (DiffNavigation.changes s)
                        ((DiffNavigation.currentIndex s + 1)
                         mod DiffNavigation.length s)%Z)).
      unfold DiffNavigation.length in *.
      cbn [DiffNavigation.changes DiffNavigation.currentIndex] in P.
      rewrite P by apply B. apply nav_state_eq.
      rewrite Zminus_mod_idemp_l.
      replace (DiffNavigation.currentIndex s + 1 - 1)%Z
        with (DiffNavigation.currentIndex s) by lia.
      apply Z.mod_small. exact H.
    + rewrite (previous_in_range s H).
      assert (P := next_in_range
                     (DiffNavigation.mkState (DiffNavigation.changes s)
                        ((DiffNavigation.currentIndex s - 1)
                         mod DiffNavigation.length s)%Z)).
      unfold DiffNavigation.length in *.
      cbn [DiffNavigation.changes DiffNavigation.currentIndex] in P.
      rewrite P by apply B. apply nav_state_eq.
      rewrite Zplus_mod_idemp_l.
      replace (DiffNavigation.currentIndex s - 1 + 1)%Z
        with (DiffNavigation.currentIndex s) by lia.
      apply Z.mod_small. exact H.
Qed.

Lemma next_previous_inverse_witness :
  (DiffNavigation.previous (DiffNavigation.next nav_two_entries)
   = nav_two_entries
   /\ DiffNavigation.next (DiffNavigation.previous nav_two_entries)
      = nav_two_entries)
  /\ (DiffNavigation.previous
        (DiffNavigation.next (DiffNavigation.next nav_two_entries))
      = DiffNavigation.next nav_two_entries
      /\ DiffNavigation.next
           (DiffNavigation.previous (DiffNavigation.next nav_two_entries))
         = DiffNavigation.next nav_two_entries).
Proof.
  split.
  - apply (next_previous_inverse nav_two_entries). right. cbn. lia.
  - apply (next_previous_inverse (DiffNavigation.next nav_two_entries)).
    right. cbn. lia.
Defined.

Lemma iterate_next s :
  (0 <= DiffNavigation.currentIndex s < DiffNavigation.length s)%Z ->
  forall k,
    Nat.iter k DiffNavigation.next s
    = DiffNavigation.mkState (DiffNavigation.changes s)
        ((DiffNavigation.currentIndex s + Z.of_nat k)
         mod DiffNavigation.length s)%Z.
Proof.
  intros H. induction k as [|k IH].
  - simpl. rewrite Z.add_0_r, Z.mod_small by exact H.
    symmetry. apply nav_state_eta.
  - rewrite Nat.iter_succ, IH.
    assert (P := next_in_range
                   (DiffNavigation.mkState (DiffNavigation.changes s)
                      ((DiffNavigation.currentIndex s + Z.of_nat k)
                       mod DiffNavigation.length s)%Z)).
    unfold DiffNavigation.length in *.
    cbn [DiffNavigation.changes DiffNavigation.currentIndex] in P.
    rewrite P by (apply Z.mod_pos_bound; lia).
    f_equal. rewrite Zplus_mod_idemp_l. f_equal. lia.
Qed.

(** X15: [next] walks round the list: from an index on a change, [k] presses
    of [next] lead to the index [(currentIndex + k) mod length]; so as many
    presses as there are changes lead back to the start, and every change is
    reached on the way. *)
Theorem next_cycles :
  forall s : DiffNavigation.State,
    (0 <= DiffNavigation.currentIndex s < DiffNavigation.length s)%Z ->
    (forall k,
        Nat.iter k DiffNavigation.next s
        = DiffNavigation.mkState (DiffNavigation.changes s)
            ((DiffNavigation.currentIndex s + Z.of_nat k)
             mod DiffNavigation.length s)%Z)
    /\ Nat.iter (List.length (DiffNavigation.changes s)) DiffNavigation.next s
       = s
    /\ (forall j, (0 <= j < DiffNavigation.length s)%Z ->
          exists k,
            k < List.length (DiffNavigation.changes s)
            /\ DiffNavigation.currentIndex (Nat.iter k DiffNavigation.next s)
               = j).
Proof.
  intros s H. split; [apply (iterate_next s H)|]. split.
  - rewrite (iterate_next s H). apply nav_state_eq.
    unfold DiffNavigation.length in *.
    rewrite Z.add_mod, Z.mod_same, Z.add_0_r, Z.mod_mod by lia.
    apply Z.mod_small. exact H.
  - intros j Hj.
    exists (Z.to_nat ((j - DiffNavigation.currentIndex s)
                      mod DiffNavigation.length s)).
    assert (B := Z.mod_pos_bound (j - DiffNavigation.currentIndex s)
                   (DiffNavigation.length s) ltac:(lia)).
    split.
    + unfold DiffNavigation.length in *. lia.
    + rewrite (iterate_next s H).
      cbn [DiffNavigation.currentIndex]. rewrite Z2Nat.id by lia.
      rewrite Zplus_mod_idemp_r.
      replace (DiffNavigation.currentIndex s
               + (j - DiffNavigation.currentIndex s))%Z with j by lia.
      apply Z.mod_small. exact Hj.
Qed.

Lemma next_cycles_witness :
  Nat.iter 2 DiffNavigation.next nav_two_entries = nav_two_entries.
Proof.
  apply (next_cycles nav_two_entries). cbn. lia.
Defined.

Lemma fold_left_push {A B} (f : A -> B) l :
  forall acc, fold_left (fun acc x => acc ++ [f x]) l acc = acc ++ map f l.
Proof.
  induction l as [|x l IH]; intros acc; simpl.
  - now rewrite app_nil_r.
  - now rewrite IH, <- app_assoc.
Qed.

(** X16: [buildChangesList] lists one entry per Added, Removed and Modified
    record of the result, with the record's path and its kind of change, and
    no entry for an Unchanged record; whatever order the sorting gives them
    (it only has to rearrange its input), there are [totalChanges] entries,
    and the index is put on the first entry, or is -1 when there is none.
    Without a result ([null]) the list is emptied and the index is -1. *)
Theorem buildChangesList_entries :
  forall (sort_by_path : list DiffNavigation.Entry -> list DiffNavigation.Entry)
         (diffResult : Changes) (s : DiffNavigation.State),
    (forall l, Permutation (sort_by_path l) l) ->
    let s' := DiffNavigation.buildChangesList sort_by_path (Some diffResult) s in
    Permutation (DiffNavigation.changes s')
      (map (fun c => DiffNavigation.mkEntry "added" (c_path c) (inl c))
         (added diffResult)
       ++ map (fun c => DiffNavigation.mkEntry "removed" (c_path c) (inl c))
            (removed diffResult)
       ++ map (fun m => DiffNavigation.mkEntry "modified" (m_path m) (inr m))
            (modified diffResult))
    /\ List.length (DiffNavigation.changes s')
       = totalChanges (calculateStats diffResult)
    /\ DiffNavigation.currentIndex s'
       = (if Nat.eqb (totalChanges (calculateStats diffResult)) 0
          then (-1)%Z else 0%Z)
    /\ DiffNavigation.buildChangesList sort_by_path None s
       = DiffNavigation.initial.
Proof.
  intros sort_by_path d s P s'.
  assert (E : exists l,
             s' = (if (0 <? Z.of_nat (List.length l))%Z
                   then DiffNavigation.navigateToChange 0
                          (DiffNavigation.mkState l 0)
                   else DiffNavigation.mkState l (-1))
             /\ Permutation l
                  (map (fun c => DiffNavigation.mkEntry "added" (c_path c) (inl c))
                     (added d)
                   ++ map (fun c =>
                             DiffNavigation.mkEntry "removed" (c_path c) (inl c))
                        (removed d)
                   ++ map (fun m =>
                             DiffNavigation.mkEntry "modified" (m_path m) (inr m))
                        (modified d))).
  { eexists. split; [reflexivity|].
    rewrite P, !fold_left_push. simpl. now rewrite <- app_assoc. }
  destruct E as [l [-> Pl]].
  assert (Len : List.length l = totalChanges (calculateStats d)).
  { rewrite (Permutation_length Pl), !length_app, !length_map. simpl. lia. }
  rewrite <- Len.
  destruct (Z.ltb_spec 0 (Z.of_nat (List.length l))) as [L|L].
  - rewrite navigateToChange_in_range
      by (unfold DiffNavigation.length; simpl; lia).
    cbn [DiffNavigation.changes DiffNavigation.currentIndex].
    destruct (Nat.eqb_spec (List.length l) 0); [lia|]. auto.
  - cbn [DiffNavigation.changes DiffNavigation.currentIndex].
    destruct (Nat.eqb_spec (List.length l) 0); [|lia]. auto.
Qed.

Lemma buildChangesList_entries_witness :
  let s' := DiffNavigation.buildChangesList (fun l => l)
              (Some (compare example_a123 example_a12))
              DiffNavigation.initial in
  List.length (DiffNavigation.changes s') = 1
  /\ DiffNavigation.currentIndex s' = 0%Z.
Proof.
  destruct (buildChangesList_entries (fun l => l)
              (compare example_a123 example_a12) DiffNavigation.initial)
    as (_ & L & I & _).
  - intros l. apply Permutation_refl.
  - split; [exact L|exact I].
Defined.

Lemma in_at_index (l : list DiffNavigation.Entry) c :
  In c l ->
  exists k, (0 <= k < Z.of_nat (List.length l))%Z
            /\ DiffNavigation.at_index l k = Some c.
Proof.
  intros H. apply In_nth_error in H as [n E].
  assert (B : n < List.length l) by (apply nth_error_Some; congruence).
  exists (Z.of_nat n). split; [lia|].
  unfold DiffNavigation.at_index.
  destruct (Z.ltb_spec (Z.of_nat n) 0); [lia|]. now rewrite Nat2Z.id.
Qed.

Lemma getCurrentChange_in_range l j c :
  DiffNavigation.at_index l j = Some c ->
  (0 <= j < Z.of_nat (List.length l))%Z ->
  DiffNavigation.getCurrentChange (DiffNavigation.mkState l j) = Some c.
Proof.
  intros A H. unfold DiffNavigation.getCurrentChange, DiffNavigation.length.
  cbn [DiffNavigation.changes DiffNavigation.currentIndex].
  destruct (Z.leb_spec 0 j); [|lia].
  destruct (Z.ltb_spec j (Z.of_nat (List.length l))); [|lia]. exact A.
Qed.

(** X17: [jumpToType] leaves the state as it is when no change is of the
    type asked for; otherwise it moves the index to the next change of that
    type after the current one, going round to the start of the list when
    there is none behind the current one: the change it lands on is of the
    type, and none of that type was passed on the way. *)
Theorem jumpToType_destination :
  forall (t : string) (s : DiffNavigation.State),
    nav_consistent s ->
    exists s',
      DiffNavigation.jumpToType t s = Some s'
      /\ DiffNavigation.changes s' = DiffNavigation.changes s
      /\ (((forall c, In c (DiffNavigation.changes s) ->
                      DiffNavigation.type c <> t)
           /\ s' = s)
          \/ exists c,
               DiffNavigation.getCurrentChange s' = Some c
               /\ DiffNavigation.type c = t
               /\ let i := DiffNavigation.currentIndex s in
                  let j := DiffNavigation.currentIndex s' in
                  ((i < j)%Z
                   /\ forall k, (i < k < j)%Z -> not_of_type t s k)
                  \/ ((j <= i)%Z
                      /\ (forall k, (i < k < DiffNavigation.length s)%Z ->
                                    not_of_type t s k)
                      /\ forall k, (0 <= k < j)%Z -> not_of_type t s k)).
Proof.
  intros t s H. unfold DiffNavigation.jumpToType.
  destruct (Nat.eqb_spec
              (List.length
                 (filter (fun c => String.eqb (DiffNavigation.type c) t)
                    (DiffNavigation.changes s))) 0) as [F|F].
  { exists s. split; [reflexivity|]. split; [reflexivity|]. left.
    split; [|reflexivity]. intros c Hc E.
    apply length_zero_iff_nil in F.
    assert (I : In c (filter (fun c => String.eqb (DiffNavigation.type c) t)
                        (DiffNavigation.changes s))).
    { apply filter_In. split; [assumption|]. now apply String.eqb_eq. }
    rewrite F in I. destruct I. }
  assert (Ex : exists c k,
             (0 <= k < DiffNavigation.length s)%Z
             /\ DiffNavigation.at_index (DiffNavigation.changes s) k = Some c
             /\ DiffNavigation.type c = t).
  { destruct (filter _ (DiffNavigation.changes s)) as [|c r] eqn:Fl;
      [contradiction|].
    assert (I : In c (filter (fun c => String.eqb (DiffNavigation.type c) t)
                        (DiffNavigation.changes s)))
      by (rewrite Fl; now left).
    apply filter_In in I as [I E]. apply String.eqb_eq in E.
    destruct (in_at_index _ _ I) as [k [Hk A]]. exists c, k. auto. }
  destruct Ex as [c0 [k0 (Hk0 & A0 & T0)]].
  assert (R : (0 <= DiffNavigation.currentIndex s < DiffNavigation.length s)%Z).
  { destruct H as [[E _]|H]; [|exact H].
    apply nav_length_nil in E. lia. }
  unfold DiffNavigation.length in *.
  set (l := DiffNavigation.changes s) in *.
  set (i := DiffNavigation.currentIndex s) in *.
  destruct (scan_in_range t l (Z.to_nat (Z.of_nat (List.length l) - (i + 1)))
              (i + 1)%Z)
    as [[S N]|[j [c (S & B & A & T & N)]]]; try lia; rewrite S.
  - destruct (scan_in_range t l (Z.to_nat (i + 1)) 0%Z)
      as [[S' N']|[j [c (S' & B' & A' & T' & N')]]]; try lia; rewrite S'.
    + exfalso. destruct (Z.le_gt_cases k0 i) as [L|L].
      * apply (N' k0 ltac:(lia) c0 A0 T0).
      * apply (N k0 ltac:(lia) c0 A0 T0).
    + destruct (Z.leb_spec 0 j); [|lia].
      rewrite navigateToChange_in_range
        by (unfold DiffNavigation.length; fold l; lia).
      fold l. eexists. split; [reflexivity|]. split; [reflexivity|].
      right. exists c. split; [apply getCurrentChange_in_range; [exact A'|lia]|].
      split; [exact T'|]. cbn [DiffNavigation.currentIndex]. right.
      split; [lia|]. split.
      * intros k Hk c' Hc'. apply (N k); [lia|exact Hc'].
      * intros k Hk c' Hc'. apply (N' k); [lia|exact Hc'].
  - destruct (Z.leb_spec 0 j); [|lia].
    rewrite navigateToChange_in_range
      by (unfold DiffNavigation.length; fold l; lia).
    fold l. eexists. split; [reflexivity|]. split; [reflexivity|].
    right. exists c. split; [apply getCurrentChange_in_range; [exact A|lia]|].
    split; [exact T|]. cbn [DiffNavigation.currentIndex]. left.
    split; [lia|]. intros k Hk c' Hc'. apply (N k); [lia|exact Hc'].
Qed.

Lemma jumpToType_destination_witness :
  exists s',
    DiffNavigation.jumpToType "added" nav_two_entries = Some s'
    /\ DiffNavigation.currentIndex s' = 0%Z.
Proof.
  destruct (jumpToType_destination "added" nav_two_entries) as [s' (E & _)].
  - right. cbn. lia.
  - exists s'. split; [exact E|].
    cbn in E. injection E as <-. reflexivity.
Defined.

(** ** Statistics of a document ([Utils.calculateStats]) *)

Lemma traverse_elements f lv l :
  (forall x, In x l ->
     forall st, Utils.traverse f x lv st = Some (stats_with x lv st)) ->
  forall st,
    forEachWith (fun item stats => Utils.traverse f item lv stats) l st
    = Some (Utils.mkStats
              (Utils.totalKeys st + list_sum (map count_keys l))
              (Utils.totalArrays st + list_sum (map (count_nodes isArray) l))
              (Utils.totalObjects st + list_sum (map (count_nodes is_object) l))
              (Utils.totalPrimitives st + list_sum (map (count_nodes is_leaf) l))
              (Nat.max (Utils.depth st)
                 (list_max (map (fun x => lv + height x) l)))
              (Utils.size st)).
Proof.
  induction l as [|x l IH]; intros H st.
  - destruct st. simpl. do 2 f_equal; lia.
  - cbn [forEachWith]. rewrite (H x (or_introl eq_refl)).
    rewrite IH by (intros y Hy; apply H; now right).
    unfold stats_with. cbn [Utils.totalKeys Utils.totalArrays
      Utils.totalObjects Utils.totalPrimitives Utils.depth Utils.size
      map list_sum list_max fold_right].
    unfold list_sum, list_max. do 2 f_equal; lia.
Qed.

Lemma traverse_properties f lv props l :
  (forall key v, In (key, v) l -> lookup key props = Some v) ->
  (forall key v, In (key, v) l ->
     forall st, Utils.traverse f v lv st = Some (stats_with v lv st)) ->
  forall st,
    forEachWith
      (fun key stats =>
         Utils.traverse f (get (JObj props) key) lv
           (Utils.mkStats (Utils.totalKeys stats + 1) (Utils.totalArrays stats)
              (Utils.totalObjects stats) (Utils.totalPrimitives stats)
              (Utils.depth stats) (Utils.size stats)))
      (map fst l) st
    = Some (Utils.mkStats
              (Utils.totalKeys st + List.length l
               + list_sum (map (fun kv => count_keys (snd kv)) l))
              (Utils.totalArrays st
               + list_sum (map (fun kv => count_nodes isArray (snd kv)) l))
              (Utils.totalObjects st
               + list_sum (map (fun kv => count_nodes is_object (snd kv)) l))
              (Utils.totalPrimitives st
               + list_sum (map (fun kv => count_nodes is_leaf (snd kv)) l))
              (Nat.max (Utils.depth st)
                 (list_max (map (fun kv => lv + height (snd kv)) l)))
              (Utils.size st)).
Proof.
  induction l as [|[k v] l IH]; intros L H st.
  - destruct st. simpl. do 2 f_equal; lia.
  - cbn [forEachWith map fst]. simpl get.
    rewrite (L k v (or_introl eq_refl)).
    rewrite (H k v (or_introl eq_refl)).
    rewrite IH;
      [|intros key x Hx; apply L; now right
       |intros key x Hx; apply (H key); now right].
    unfold stats_with. cbn [Utils.totalKeys Utils.totalArrays
      Utils.totalObjects Utils.totalPrimitives Utils.depth Utils.size
      map list_sum list_max fold_right snd List.length].
    unfold list_sum, list_max. do 2 f_equal; lia.
Qed.

Lemma list_max_shift lv (hs : list nat) :
  Nat.max lv (list_max (map (fun h => lv + 1 + h) hs))
  = lv + list_max (map S hs).
Proof.
  unfold list_max.
  induction hs as [|h hs IH]; cbn [map fold_right] in *; lia.
Qed.

Lemma traverse_adds f :
  forall v lv st,
    depth v < f -> json_shaped v = true ->
    Utils.traverse f v lv st = Some (stats_with v lv st).
Proof.
  induction f as [|f IH]; intros v lv st Hd Hv; [lia|].
  destruct v as [| |b|x|s|l|l]; try discriminate Hv;
    try (destruct st; cbn; unfold stats_with; cbn; do 2 f_equal; lia).
  - cbn [Utils.traverse isArray elements].
    rewrite traverse_elements.
    + unfold stats_with. cbn [Utils.totalKeys Utils.totalArrays
        Utils.totalObjects Utils.totalPrimitives Utils.depth Utils.size
        count_keys count_nodes isArray is_object is_leaf height].
      assert (M := list_max_shift lv (map height l)).
      rewrite !map_map in M.
      do 2 f_equal; lia.
    + intros x Hx st'. apply IH.
      * assert (D := depth_elem x l Hx). lia.
      * simpl in Hv. rewrite forallb_forall in Hv. now apply Hv.
  - cbn [Utils.traverse isArray is_null typeof_object negb andb Object_keys].
    assert (Hdis : distinct (map fst l) = true)
      by (simpl in Hv; now apply andb_true_iff in Hv as [? _]).
    rewrite (traverse_properties f (lv + 1) l l).
    + unfold stats_with. cbn [Utils.totalKeys Utils.totalArrays
        Utils.totalObjects Utils.totalPrimitives Utils.depth Utils.size
        count_keys count_nodes isArray is_object is_leaf height].
      assert (M := list_max_shift lv (map (fun kv => height (snd kv)) l)).
      rewrite !map_map in M.
      do 2 f_equal; lia.
    + apply lookup_distinct. exact Hdis.
    + intros key x Hx st'. apply IH.
      * assert (D := depth_prop key x l Hx). lia.
      * simpl in Hv. apply andb_true_iff in Hv as [_ Hv].
        rewrite forallb_forall in Hv. apply (Hv _ Hx).
Qed.

(** X18: for a JSON-shaped document [Utils.calculateStats] returns and its
    counts are those of the document: [totalKeys] is the number of
    properties of all its objects, [totalArrays] and [totalObjects] the
    numbers of its arrays and objects (the document itself included),
    [totalPrimitives] the number of its other nodes ([null] counts as one),
    [depth] the greatest nesting level of a node (0 for a document that is a
    primitive or an empty object or array), and [size] the length of the
    [JSON.stringify] text. *)
Theorem Utils_calculateStats_counts :
  forall (JSON_stringify : jsval -> string) (obj : jsval),
    json_shaped obj = true ->
    Utils.calculateStats JSON_stringify obj
    = Some (Utils.mkStats (count_keys obj) (count_nodes isArray obj)
              (count_nodes is_object obj) (count_nodes is_leaf obj)
              (height obj) (String.length (JSON_stringify obj))).
Proof.
  intros js obj H. unfold Utils.calculateStats, traverse_fuel.
  rewrite traverse_adds by (auto; lia).
  destruct obj; [discriminate H|reflexivity..].
Qed.

Lemma Utils_calculateStats_counts_witness :
  Utils.calculateStats (fun _ => "{}") example_a123
  = Some (Utils.mkStats 1 1 1 3 2 2).
Proof.
  apply (Utils_calculateStats_counts (fun _ => "{}") example_a123).
  reflexivity.
Defined.

Lemma length_leaves_elems p l :
  (forall x, In x l ->
     forall q, List.length (leaves q x) = count_nodes is_leaf x) ->
  forall a,
    List.length
      ((fix elems (i : nat) (l : list jsval) : list Change :=
          match l with
          | [] => []
          | x :: rest => leaves (indexPath p i) x ++ elems (S i) rest
          end) a l)
    = list_sum (map (count_nodes is_leaf) l).
Proof.
  induction l as [|x l IHl]; intros H a; [reflexivity|].
  rewrite length_app, (H x (or_introl eq_refl)).
  rewrite IHl by (intros y Hy; apply H; now right). reflexivity.
Qed.

Lemma length_leaves_props p l :
  (forall k x, In (k, x) l ->
     forall q, List.length (leaves q x) = count_nodes is_leaf x) ->
  List.length
    ((fix props (l : list (string * jsval)) : list Change :=
        match l with
        | [] => []
        | (key, x) :: rest => leaves (keyPath p key) x ++ props rest
        end) l)
  = list_sum (map (fun kv => count_nodes is_leaf (snd kv)) l).
Proof.
  induction l as [|[k x] l IHl]; intros H; [reflexivity|].
  rewrite length_app, (H k x (or_introl eq_refl)).
  rewrite IHl by (intros k' y Hy; apply (H k'); now right). reflexivity.
Qed.

Lemma leaves_count d :
  forall v p, depth v < d -> json_shaped v = true ->
    List.length (leaves p v) = count_nodes is_leaf v.
Proof.
  induction d as [|d IH]; intros v p Hd Hv; [lia|].
  destruct v as [| |b|x|s|l|l]; try discriminate Hv; try reflexivity.
  - cbn [leaves count_nodes is_leaf]. rewrite length_leaves_elems.
    + reflexivity.
    + intros x Hx q. apply IH.
      * assert (D := depth_elem x l Hx). lia.
      * simpl in Hv. rewrite forallb_forall in Hv. now apply Hv.
  - cbn [leaves count_nodes is_leaf]. rewrite length_leaves_props.
    + reflexivity.
    + intros k x Hx q. apply IH.
      * assert (D := depth_prop k x l Hx). lia.
      * simpl in Hv. apply andb_true_iff in Hv as [_ Hv].
        rewrite forallb_forall in Hv. apply (Hv _ Hx).
Qed.

(** X19: the two statistics agree on a JSON-shaped document: the
    [totalPrimitives] that [Utils.calculateStats] counts in it is the number
    of Unchanged records [compare] reports when the document is compared with
    itself (the [unchanged] of [DiffEngine.calculateStats]), and that
    comparison has no change. *)
Theorem totalPrimitives_is_unchanged_count :
  forall (JSON_stringify : jsval -> string) (obj : jsval),
    json_shaped obj = true ->
    exists stats,
      Utils.calculateStats JSON_stringify obj = Some stats
      /\ Utils.totalPrimitives stats
         = s_unchanged (calculateStats (compare obj obj))
      /\ totalChanges (calculateStats (compare obj obj)) = 0.
Proof.
  intros js obj H. unfold Utils.calculateStats, traverse_fuel.
  rewrite traverse_adds by (auto; lia).
  assert (U : is_undefined obj = false)
    by (destruct obj; [discriminate H|reflexivity..]).
  rewrite U. eexists. split; [reflexivity|].
  rewrite compare_changes_of, (changes_of_same (depth obj)) by auto.
  cbn. split; [|reflexivity].
  symmetry. apply (leaves_count (S (depth obj))); auto.
Qed.

Lemma totalPrimitives_is_unchanged_count_witness :
  exists stats,
    Utils.calculateStats (fun _ => "{}") example_a123 = Some stats
    /\ Utils.totalPrimitives stats
       = s_unchanged (calculateStats (compare example_a123 example_a123))
    /\ totalChanges (calculateStats (compare example_a123 example_a123)) = 0.
Proof.
  apply (totalPrimitives_is_unchanged_count (fun _ => "{}") example_a123).
  reflexivity.
Defined.

(** ** The order of the keys *)

Lemma same_records_cconcat {A} (f g : A -> Changes) l1 l2 :
  (forall x, In x l1 <-> In x l2) ->
  (forall x, f x = g x) ->
  same_records (cconcat (map f l1)) (cconcat (map g l2)).
Proof.
  intros Hl Hf.
  assert (M : forall c, In c (map f l1) <-> In c (map g l2)).
  { intros c. rewrite !in_map_iff. split; intros [x [E Hx]]; exists x.
    - rewrite <- Hf. split; [assumption|now apply Hl].
    - rewrite Hf. split; [assumption|now apply Hl]. }
  repeat split; intros H.
  - apply in_added_cconcat in H as [c' [H1 H2]].
    apply in_added_cconcat. exists c'. split; [now apply M|assumption].
  - apply in_added_cconcat in H as [c' [H1 H2]].
    apply in_added_cconcat. exists c'. split; [now apply M|assumption].
  - apply in_removed_cconcat in H as [c' [H1 H2]].
    apply in_removed_cconcat. exists c'. split; [now apply M|assumption].
  - apply in_removed_cconcat in H as [c' [H1 H2]].
    apply in_removed_cconcat. exists c'. split; [now apply M|assumption].
  - apply in_modified_cconcat in H as [c' [H1 H2]].
    apply in_modified_cconcat. exists c'. split; [now apply M|assumption].
  - apply in_modified_cconcat in H as [c' [H1 H2]].
    apply in_modified_cconcat. exists c'. split; [now apply M|assumption].
  - apply in_unchanged_cconcat in H as [c' [H1 H2]].
    apply in_unchanged_cconcat. exists c'. split; [now apply M|assumption].
  - apply in_unchanged_cconcat in H as [c' [H1 H2]].
    apply in_unchanged_cconcat. exists c'. split; [now apply M|assumption].
Qed.

Lemma includes_perm l l' key :
  Permutation l l' -> includes l key = includes l' key.
Proof.
  intros P. destruct (includes l' key) eqn:E.
  - apply includes_In. apply includes_In in E.
    apply (Permutation_in _ (Permutation_sym P) E).
  - apply includes_false. apply includes_false in E.
    intros H. apply E. apply (Permutation_in _ P H).
Qed.

Lemma lookup_perm l l' key :
  distinct (map fst l) = true -> Permutation l l' ->
  lookup key l = lookup key l'.
Proof.
  intros D P.
  assert (D' : distinct (map fst l') = true).
  { apply distinct_NoDup. apply distinct_NoDup in D.
    apply (Permutation_NoDup (Permutation_map fst P) D). }
  destruct (lookup key l') as [v|] eqn:E.
  - apply lookup_In in E. apply lookup_distinct; [exact D|].
    apply (Permutation_in _ (Permutation_sym P) E).
  - apply lookup_None. apply lookup_None in E. intros H. apply E.
    apply (Permutation_in _ (Permutation_map fst P) H).
Qed.

(** X20: the order in which the two root objects list their keys decides
    only the order of the records: when the properties of the old object and
    those of the new object (with distinct keys each) are rearranged,
    [compare] reports the same Added, the same Removed, the same Modified and
    the same Unchanged records. *)
Theorem compare_key_order :
  forall lo lo' ln ln' : list (string * jsval),
    distinct (map fst lo) = true -> distinct (map fst ln) = true ->
    Permutation lo lo' -> Permutation ln ln' ->
    same_records (compare (JObj lo) (JObj ln)) (compare (JObj lo') (JObj ln')).
Proof.
  intros lo lo' ln ln' Do Dn Po Pn.
  rewrite !compare_changes_of, !changes_of_eq.
  cbn -[objectChanges]. unfold objectChanges.
  apply same_records_cconcat.
  - intros key. rewrite !in_Set_of, !in_app_iff. simpl.
    assert (Ko := Permutation_map fst Po). assert (Kn := Permutation_map fst Pn).
    split; intros [H|H];
      [left; apply (Permutation_in _ Ko H)
      |right; apply (Permutation_in _ Kn H)
      |left; apply (Permutation_in _ (Permutation_sym Ko) H)
      |right; apply (Permutation_in _ (Permutation_sym Kn) H)].
  - intros key. unfold keyChanges. simpl Object_keys. simpl get.
    rewrite (includes_perm _ _ key (Permutation_map fst Po)).
    rewrite (includes_perm _ _ key (Permutation_map fst Pn)).
    now rewrite (lookup_perm lo lo' key Do Po), (lookup_perm ln ln' key Dn Pn).
Qed.

Lemma compare_key_order_witness :
  same_records
    (compare (JObj [("a", JNum 1); ("b", JNum 2)]) (JObj [("b", JNum 3)]))
    (compare (JObj [("b", JNum 2); ("a", JNum 1)]) (JObj [("b", JNum 3)])).
Proof.
  apply compare_key_order;
    [reflexivity|reflexivity|apply perm_swap|apply Permutation_refl].
Defined.
